(** * The "Collage du Monde" force-directed layout: model and properties

    A shallow embedding of the collage section of
    [src/app/routes/home/partials/FullScreenCarousel.tsx] (the second
    module of that file, [CollageMonde] and its helpers).

    Conventions of the embedding.
    - A JavaScript [number] is an IEEE double; here it is a real number
      (type [R]): arithmetic is exact, there is neither NaN nor an
      infinity.  Comparisons in the source become [Rlt_dec] and the like.
      Where [Math.floor] makes the rounding of a result visible
      ([AlbumSelection.albumPosition]), the rounding is written out.
    - [Math.random()] is the [k]-th element of a sequence [rand], the
      number [k] of draws made so far being threaded as state.
    - A JavaScript exception is [None] in the monad [M].
    - The node objects are shared between the array [data], the
      simulation and the data bound to the SVG groups: they live in one
      store (the list [data]) and are referred to by their index.
    - d3 ends a transition when its duration is over or when a later
      transition on the same element starts.  The model does not keep
      track of that: a tween or transition, once installed, may receive
      a frame at any later moment and with any eased time.  Every
      schedule of the real program is one of the model. *)

From Stdlib Require Import Reals Lra ZArith List.
From stdpp Require Import base option list strings pretty gmap fin_maps.

Open Scope R_scope.

(** ** Constants *)

Definition ANIMATION_DURATION : R := 500.
Definition ENTRANCE_ANIMATION_DELAY : R := 100.
Definition ENTRANCE_ANIMATION_DURATION : R := 800.
Definition OPACITY_ANIMATION_DURATION : R := 300.
Definition SUBTITLE_DELAY_OFFSET : R := 200.

Module SIMULATION_CONFIG.
Module nodeSize.
Definition album : R := 50.
Definition artist : R := 60.
Definition title : R := 200.
Definition hover : R := 70.
Definition maxDelta : R := 20.
Definition minAlbum : R := 20.
Definition minArtist : R := 25.
Definition holePadding : R := 2.
Definition clipPadding : R := 2.
End nodeSize.
Module forces.
Definition charge : R := 0.
Definition collide : R := 1.
Definition center : R := 5 / 1000.
Definition x : R := 2 / 1000.
Definition y : R := 2 / 100.
End forces.
Module centerHole.
Definition radius : R := 0.
Definition strength : R := 2 / 100.
End centerHole.
Module container.
Definition width : R := 1280.
Definition height : R := 960.
End container.
Module performance.
Definition alphaDecay : R := 228 / 10000.
Definition velocityDecay : R := 1 / 10.
Definition alphaTarget : R := 3 / 10.
Definition collisionIterations : nat := 3.
Definition restartAlpha : R := 1 / 10.
End performance.
End SIMULATION_CONFIG.

(** ** The catalog (input data) *)

(** [interface Album] and [interface Group] of the group context, with
    the fields that the section reads.  An album id is a [number]; the
    catalog numbers its albums with integers, and [pretty] is their
    decimal notation, as [toString()] and a template literal give it. *)
Module Album.
Record t := mk { id : Z; title : string; src : string; alt : string }.
End Album.

Module Group.
Record t := mk { id : string; name : string; albums : list Album.t }.
End Group.

Module FilterType.
Inductive t := tous | album | artist.
Definition eqb (a b : t) : bool :=
  match a, b with
  | tous, tous | album, album | artist, artist => true
  | _, _ => false
  end.
End FilterType.

(** ** Nodes *)

Module NodeType.
Inductive t := album | artist | title.
Definition eqb (a b : t) : bool :=
  match a, b with
  | album, album | artist, artist | title, title => true
  | _, _ => false
  end.
End NodeType.

(** [interface Node extends d3Force.SimulationNodeDatum]: the fields of
    the source, then those of the d3 datum ([x], [y], [vx], [vy], [fx],
    [fy]), which are all optional. *)
Module Node.
Record t := mk {
  id : string;
  src : string;
  alt : string;
  type : NodeType.t;
  groupName : option string;
  groupId : option string;
  albumId : option string;
  r : R;
  originalR : option R;
  group : string;
  x : option R;
  y : option R;
  vx : option R;
  vy : option R;
  fx : option R;
  fy : option R
}.

Definition set_r (v : R) (d : t) : t :=
  mk (id d) (src d) (alt d) (type d) (groupName d) (groupId d) (albumId d)
     v (originalR d) (group d) (x d) (y d) (vx d) (vy d) (fx d) (fy d).

Definition set_originalR (v : option R) (d : t) : t :=
  mk (id d) (src d) (alt d) (type d) (groupName d) (groupId d) (albumId d)
     (r d) v (group d) (x d) (y d) (vx d) (vy d) (fx d) (fy d).
End Node.

(** ** Exceptions and [Math.random]: the monad of node construction *)

Section Construction.

(** The sequence of values that successive calls of [Math.random()]
    return. *)
Variable rand : nat -> R.

Definition M (A : Type) : Type := nat -> option (A * nat).

Definition ret {A} (a : A) : M A := fun k => Some (a, k).
Definition bind {A B} (m : M A) (f : A -> M B) : M B :=
  fun k => match m k with
           | Some (a, k') => f a k'
           | None => None
           end.
Definition throw {A} : M A := fun _ => None.
Definition Math_random : M R := fun k => Some (rand k, S k).

Notation "x <- m ;; f" := (bind m (fun x => f))
  (at level 100, m at next level, right associativity).

(** [xs.forEach(f)] for an [f] that runs in the monad and pushes onto
    the accumulator [items]. *)
Fixpoint forEach {A S} (f : S -> A -> M S) (xs : list A) (items : S) : M S :=
  match xs with
  | [] => ret items
  | a :: xs' => items' <- f items a ;; forEach f xs' items'
  end.

Definition createTitleNode : Node.t :=
  {| Node.id := "title-center";
     Node.src := "";
     Node.alt := "Titre central";
     Node.type := NodeType.title;
     Node.groupName := Some "Nous ne sommes qu'un";
     Node.groupId := None;
     Node.albumId := None;
     Node.r := SIMULATION_CONFIG.nodeSize.title;
     Node.originalR := None;
     Node.group := "center";
     Node.x := Some (SIMULATION_CONFIG.container.width / 2);
     Node.y := Some (SIMULATION_CONFIG.container.height / 2);
     Node.vx := None;
     Node.vy := None;
     Node.fx := Some (SIMULATION_CONFIG.container.width / 2);
     Node.fy := Some (SIMULATION_CONFIG.container.height / 2) |}.

Definition createAlbumNode (album : Album.t) (group : Group.t) : M Node.t :=
  let baseSize := SIMULATION_CONFIG.nodeSize.album in
  u <- Math_random ;;
  let randomDelta := (u - 1 / 2) * 2 * SIMULATION_CONFIG.nodeSize.maxDelta in
  ret {| Node.id := "album-" +:+ pretty (Album.id album);
         Node.src := Album.src album;
         Node.alt := Album.alt album;
         Node.type := NodeType.album;
         Node.groupName := Some (Group.name group);
         Node.groupId := Some (Group.id group);
         Node.albumId := Some (pretty (Album.id album));
         Node.r := Rmax SIMULATION_CONFIG.nodeSize.minAlbum (baseSize + randomDelta);
         Node.originalR := None;
         Node.group := Group.id group;
         Node.x := None; Node.y := None; Node.vx := None; Node.vy := None;
         Node.fx := None; Node.fy := None |}.

(** [group.albums[0].src] raises a [TypeError] when the group has no
    album. *)
Definition createArtistNode (group : Group.t) : M Node.t :=
  let baseSize := SIMULATION_CONFIG.nodeSize.artist in
  u <- Math_random ;;
  let randomDelta := (u - 1 / 2) * 2 * SIMULATION_CONFIG.nodeSize.maxDelta in
  match Group.albums group !! 0%nat with
  | None => throw
  | Some album0 =>
    ret {| Node.id := "artist-" +:+ Group.id group;
           Node.src := Album.src album0;
           Node.alt := Group.name group +:+ " artist photo";
           Node.type := NodeType.artist;
           Node.groupName := Some (Group.name group);
           Node.groupId := Some (Group.id group);
           Node.albumId := None;
           Node.r := Rmax SIMULATION_CONFIG.nodeSize.minArtist (baseSize + randomDelta);
           Node.originalR := None;
           Node.group := Group.id group;
           Node.x := None; Node.y := None; Node.vx := None; Node.vy := None;
           Node.fx := None; Node.fy := None |}
  end.

(** The [useMemo] of [CollageMonde] that builds [data]. *)
Definition data (groups : list Group.t) (filter : FilterType.t) : M (list Node.t) :=
  let items := [createTitleNode] in
  forEach (fun items group =>
    items <-
      (if FilterType.eqb filter FilterType.tous || FilterType.eqb filter FilterType.album
       then forEach (fun items album =>
                       d <- createAlbumNode album group ;; ret (items ++ [d]))
                    (Group.albums group) items
       else ret items) ;;
    if (FilterType.eqb filter FilterType.tous || FilterType.eqb filter FilterType.artist)
         && (0 <? length (Group.albums group))%nat
    then d <- createArtistNode group ;; ret (items ++ [d])
    else ret items)
    groups items.

End Construction.

(** ** Cluster targets *)

Module Cluster.
Record t := mk { x : R; y : R }.
End Cluster.

(** The body of [groups.forEach((group, i) => ...)] in [createClusters],
    from index [i] on; [clusters] is the JavaScript [Map] filled so far
    ([Map.set] overwrites an existing key). *)
Fixpoint createClusters_forEach (groups : list Group.t) (i numGroups : nat)
    (width height : R) (clusters : gmap string Cluster.t) : gmap string Cluster.t :=
  match groups with
  | [] => clusters
  | group :: groups' =>
    let angle := (INR i / INR numGroups) * 2 * PI in
    let radius := Rmin width height / 4 in
    createClusters_forEach groups' (S i) numGroups width height
      (<[Group.id group :=
           {| Cluster.x := width / 2 + cos angle * radius;
              Cluster.y := height / 2 + sin angle * radius |}]> clusters)
  end.

Definition createClusters (groups : list Group.t) (width height : R)
    : gmap string Cluster.t :=
  let numGroups := length groups in
  createClusters_forEach groups 0 numGroups width height ∅.

(** The point at angle [2 * PI * i / n] of the circle of radius
    [min(width, height) / 4] around the centre of the canvas. *)
Definition clusterPoint (i n : nat) (width height : R) : Cluster.t :=
  {| Cluster.x := width / 2 + cos (2 * PI * INR i / INR n) * (Rmin width height / 4);
     Cluster.y := height / 2 + sin (2 * PI * INR i / INR n) * (Rmin width height / 4) |}.

Definition onCircle (p : Cluster.t) (cx cy rad : R) : Prop :=
  (Cluster.x p - cx) * (Cluster.x p - cx) + (Cluster.y p - cy) * (Cluster.y p - cy)
  = rad * rad.

(** ** The d3 simulation, as far as [CollageMonde] drives it

    [d3-force] is a dependency of the repository, not part of it; the
    model keeps what the section calls.  A collision force computes the
    array [radii] of its nodes' radii when it is initialized, which
    [simulation.force(name, force)] does on the simulation's nodes; this
    array, not the accessor, is what a tick reads. *)

Module Collide.
Record t := mk {
  radius : Node.t -> R;
  strength : R;
  iterations : nat;
  radii : list R
}.
Definition initialize (nodes : list Node.t) (f : t) : t :=
  mk (radius f) (strength f) (iterations f) (map (radius f) nodes).
End Collide.

(** [d3Force.forceCollide().radius(..).strength(..).iterations(..)] *)
Definition forceCollide (radius : Node.t -> R) (strength : R) (iterations : nat)
    : Collide.t :=
  Collide.mk radius strength iterations [].

Module Simulation.
Record t := mk {
  alpha : R;
  alphaTarget : R;
  velocityDecay : R;
  (** whether the internal timer (the stepper) runs *)
  timer : bool;
  (** [forceCenter(x, y).strength(s)] *)
  center : option (R * R * R);
  (** [forceX().x(f).strength(s)], [forceY().y(f).strength(s)] *)
  forceX : option ((Node.t -> R) * R);
  forceY : option ((Node.t -> R) * R);
  collide : option Collide.t;
  (** [forceManyBody().strength(s)] *)
  charge : option R;
  (** [forceRadial(radius, x, y).strength(s)] *)
  radial : option (R * R * R * R)
}.

Definition set_alpha (a : R) (s : t) : t :=
  mk a (alphaTarget s) (velocityDecay s) (timer s) (center s) (forceX s)
     (forceY s) (collide s) (charge s) (radial s).
Definition restart (s : t) : t :=
  mk (alpha s) (alphaTarget s) (velocityDecay s) true (center s) (forceX s)
     (forceY s) (collide s) (charge s) (radial s).
Definition stop (s : t) : t :=
  mk (alpha s) (alphaTarget s) (velocityDecay s) false (center s) (forceX s)
     (forceY s) (collide s) (charge s) (radial s).
(** [simulation.force("collide", f)] on a simulation over [nodes] *)
Definition force_collide (nodes : list Node.t) (f : Collide.t) (s : t) : t :=
  mk (alpha s) (alphaTarget s) (velocityDecay s) (timer s) (center s) (forceX s)
     (forceY s) (Some (Collide.initialize nodes f)) (charge s) (radial s).
End Simulation.

(** [initializeNodes] of [d3.forceSimulation(nodes)]: a fixed coordinate
    wins, a node without a position is put on a spiral, a node without a
    velocity is at rest. *)
Definition initializeNode (i : nat) (node : Node.t) : Node.t :=
  let x1 := match Node.fx node with Some v => Some v | None => Node.x node end in
  let y1 := match Node.fy node with Some v => Some v | None => Node.y node end in
  let radius := 10 * sqrt (1 / 2 + INR i) in
  let angle := INR i * (PI * (3 - sqrt 5)) in
  let '(x2, y2) := match x1, y1 with
                   | Some a, Some b => (a, b)
                   | _, _ => (radius * cos angle, radius * sin angle)
                   end in
  let '(vx2, vy2) := match Node.vx node, Node.vy node with
                     | Some a, Some b => (a, b)
                     | _, _ => (0, 0)
                     end in
  Node.mk (Node.id node) (Node.src node) (Node.alt node) (Node.type node)
    (Node.groupName node) (Node.groupId node) (Node.albumId node)
    (Node.r node) (Node.originalR node) (Node.group node)
    (Some x2) (Some y2) (Some vx2) (Some vy2) (Node.fx node) (Node.fy node).

Definition updateCollisionForce (nodes : list Node.t) (simulation : Simulation.t)
    : Simulation.t :=
  Simulation.force_collide nodes
    (forceCollide
       (fun node => Node.r node + SIMULATION_CONFIG.nodeSize.holePadding)
       SIMULATION_CONFIG.forces.collide
       SIMULATION_CONFIG.performance.collisionIterations)
    simulation.

Definition restartSimulationIfNeeded (simulation : Simulation.t) : Simulation.t :=
  if Rlt_dec (Simulation.alpha simulation) SIMULATION_CONFIG.performance.restartAlpha
  then Simulation.restart
         (Simulation.set_alpha SIMULATION_CONFIG.performance.restartAlpha simulation)
  else simulation.

(** ** The SVG document *)

Module Element.
(** The children of a node's group: [class], then the attributes and
    styles that the section writes.  A font size is in [rem]; [filter]
    is the percentage of [grayscale(..%)], [None] for [none]. *)
Inductive t :=
| circle (class : string) (r : R)
| image (href : string) (x y width height : R) (clip_path : string)
        (filter : option R)
| text (class : string) (y : R) (font_size : R) (content : string).

Definition classed (c : string) (e : t) : bool :=
  match e with
  | circle class _ => bool_decide (class = c)
  | image _ _ _ _ _ _ _ => false
  | text class _ _ _ => bool_decide (class = c)
  end.
Definition is_circle (e : t) : bool :=
  match e with circle _ _ => true | _ => false end.
Definition is_image (e : t) : bool :=
  match e with image _ _ _ _ _ _ _ => true | _ => false end.
End Element.

Module G.
Record t := mk {
  datum : nat;
  opacity : R;
  transform : option (option R * option R);
  children : list Element.t
}.
Definition set_children (c : list Element.t) (g : t) : t :=
  mk (datum g) (opacity g) (transform g) c.
Definition set_opacity (v : R) (g : t) : t :=
  mk (datum g) v (transform g) (children g).
End G.

Module ClipPath.
(** [<clipPath id=..><circle r=.. cx=0 cy=0/></clipPath>] *)
Record t := mk { id : string; r : R }.
End ClipPath.

Module Svg.
Record t := mk { defs : list ClipPath.t; nodeGroup : list G.t }.
End Svg.

Definition createClipPaths (data : list Node.t) : list ClipPath.t :=
  map (fun d => ClipPath.mk ("clip-" +:+ Node.id d) 0) data.

Definition createAlbumElements (d : Node.t) : list Element.t :=
  [ Element.circle "outer" 0;
    Element.image (Node.src d) 0 0 0 0 ("url(#clip-" +:+ Node.id d +:+ ")") (Some 20);
    Element.circle "hole" 0 ].

Definition createArtistElements (d : Node.t) : list Element.t :=
  [ Element.circle "outer" 0;
    Element.image (Node.src d) 0 0 0 0 ("url(#clip-" +:+ Node.id d +:+ ")") None ].

Definition createTitleElements : list Element.t :=
  [ Element.circle "" 0;
    Element.text "title-main" (-10) 0 "ECHOS";
    Element.text "title-sub" 25 0 "Nous ne sommes qu'un" ].

(** The [g.node] of the [i]-th datum, with the children of its type. *)
Definition createNodeGroup (i : nat) (d : Node.t) : G.t :=
  G.mk i 0 None
    (match Node.type d with
     | NodeType.album => createAlbumElements d
     | NodeType.artist => createArtistElements d
     | NodeType.title => createTitleElements
     end).

(** ** Render sync *)

(** [s.startsWith(pat)] and the rest of [s], if so. *)
Fixpoint strip_prefix (pat s : string) : option string :=
  match pat, s with
  | EmptyString, _ => Some s
  | String a pat', String b s' =>
    if bool_decide (a = b) then strip_prefix pat' s' else None
  | String _ _, EmptyString => None
  end.

(** [s.replace(pat, rep)] for a string pattern: the first occurrence
    only. *)
Fixpoint replace (pat rep s : string) : string :=
  match strip_prefix pat s with
  | Some rest => rep +:+ rest
  | None =>
    match s with
    | EmptyString => EmptyString
    | String c s' => String c (replace pat rep s')
    end
  end.

(** What the three branches of the [attr("r", ...)] callbacks return for
    a circle of class [class] in the group of a node of radius [r]. *)
Definition circleRadius (e : Element.t) (r : R) : R :=
  if Element.classed "outer" e then r
  else if Element.classed "hole" e then SIMULATION_CONFIG.nodeSize.holePadding
  else r.

Definition updateChild (d : Node.t) (e : Element.t) : Element.t :=
  match e with
  | Element.circle class _ => Element.circle class (circleRadius e (Node.r d))
  | Element.image href _ _ _ _ clip filter =>
    Element.image href
      (- (Node.r d - SIMULATION_CONFIG.nodeSize.clipPadding))
      (- (Node.r d - SIMULATION_CONFIG.nodeSize.clipPadding))
      ((Node.r d - SIMULATION_CONFIG.nodeSize.clipPadding) * 2)
      ((Node.r d - SIMULATION_CONFIG.nodeSize.clipPadding) * 2)
      clip filter
  | Element.text _ _ _ _ => e
  end.

Definition updateGroup (data : list Node.t) (g : G.t) : G.t :=
  match data !! G.datum g with
  | Some d =>
    G.mk (G.datum g) (G.opacity g) (Some (Node.x d, Node.y d))
         (map (updateChild d) (G.children g))
  | None => g
  end.

Definition updateClipPath (data : list Node.t) (c : ClipPath.t) : ClipPath.t :=
  let clipId := ClipPath.id c in
  let nodeId := replace "clip-" "" clipId in
  let node := find (fun d => bool_decide (Node.id d = nodeId)) data in
  ClipPath.mk clipId
    (match node with
     | Some node => Node.r node - SIMULATION_CONFIG.nodeSize.clipPadding
     | None => 0
     end).

Definition updateVisualsOnTick (svg : Svg.t) (data : list Node.t) : Svg.t :=
  Svg.mk (map (updateClipPath data) (Svg.defs svg))
         (map (updateGroup data) (Svg.nodeGroup svg)).

(** ** Transitions *)

(** [interpolate(a, b)] of d3-interpolate at numbers. *)
Definition interpolate (a b t : R) : R := a * (1 - t) + b * t.

(** The closure that [tween("radius", ...)] installs on the group
    [element] for the node [node]: [interpolate(from, to)] was built when
    the pointer event was handled. *)
Record RadiusTween := {
  tw_element : nat;
  tw_node : nat;
  tw_from : R;
  tw_to : R
}.

Inductive Attr := a_r | a_x | a_y | a_width | a_height | a_font_size | a_filter.

(** What a transition writes: a style of a group, an attribute or style
    of the [c]-th child of the [g]-th group, the radius of the circle of
    the [k]-th clip path. *)
Inductive AttrRef :=
| GOpacity (g : nat)
| ChildAttr (g c : nat) (a : Attr)
| ClipR (k : nat).

(** The value a transition goes to: a constant, or the callback of the
    entrance animation of the node [i], which reads the element's class
    and the node's radius when the transition starts. *)
Inductive Target :=
| Const (v : R)
| EntranceCircleR (i : nat).

Record Scheduled := {
  s_ref : AttrRef;
  s_delay : R;
  s_duration : R;
  s_target : Target
}.

Record Running := {
  run_ref : AttrRef;
  run_from : R;
  run_to : R
}.

Definition getChildAttr (a : Attr) (e : Element.t) : option R :=
  match a, e with
  | a_r, Element.circle _ r => Some r
  | a_x, Element.image _ x _ _ _ _ _ => Some x
  | a_y, Element.image _ _ y _ _ _ _ => Some y
  | a_width, Element.image _ _ _ w _ _ _ => Some w
  | a_height, Element.image _ _ _ _ h _ _ => Some h
  | a_filter, Element.image _ _ _ _ _ _ f => f
  | a_font_size, Element.text _ _ s _ => Some s
  | _, _ => None
  end.

Definition setChildAttr (a : Attr) (v : R) (e : Element.t) : Element.t :=
  match a, e with
  | a_r, Element.circle c _ => Element.circle c v
  | a_x, Element.image h _ y w ht cp f => Element.image h v y w ht cp f
  | a_y, Element.image h x _ w ht cp f => Element.image h x v w ht cp f
  | a_width, Element.image h x y _ ht cp f => Element.image h x y v ht cp f
  | a_height, Element.image h x y w _ cp f => Element.image h x y w v cp f
  | a_filter, Element.image h x y w ht cp _ => Element.image h x y w ht cp (Some v)
  | a_font_size, Element.text c y _ t => Element.text c y v t
  | _, _ => e
  end.

Definition getAttr (ref : AttrRef) (svg : Svg.t) : option R :=
  match ref with
  | GOpacity g => G.opacity <$> Svg.nodeGroup svg !! g
  | ChildAttr g c a =>
    grp ← Svg.nodeGroup svg !! g; e ← G.children grp !! c; getChildAttr a e
  | ClipR k => ClipPath.r <$> Svg.defs svg !! k
  end.

Definition setAttr (ref : AttrRef) (v : R) (svg : Svg.t) : Svg.t :=
  match ref with
  | GOpacity g =>
    Svg.mk (Svg.defs svg) (alter (G.set_opacity v) g (Svg.nodeGroup svg))
  | ChildAttr g c a =>
    Svg.mk (Svg.defs svg)
      (alter (fun grp => G.set_children (alter (setChildAttr a v) c (G.children grp)) grp)
             g (Svg.nodeGroup svg))
  | ClipR k =>
    Svg.mk (alter (fun c => ClipPath.mk (ClipPath.id c) v) k (Svg.defs svg))
           (Svg.nodeGroup svg)
  end.

(** ** The mounted section: shared store, simulation, document, transitions *)

Module World.
Record t := mk {
  (** the node objects: the array [data], which is also the
      simulation's node array and the data bound to the groups *)
  data : list Node.t;
  simulation : Simulation.t;
  (** the [Map] that the accessors of the [x] and [y] forces close over *)
  clusters : gmap string Cluster.t;
  svg : Svg.t;
  (** the radius tweens installed by the pointer handlers *)
  tweens : list RadiusTween;
  (** attribute and style transitions: scheduled, then started *)
  pending : list Scheduled;
  running : list Running
}.
End World.

(** JavaScript truthiness of a [number | undefined]. *)
Definition truthy (v : option R) : bool :=
  match v with
  | Some v => if Req_dec_T v 0 then false else true
  | None => false
  end.

(** Indices of the children that a [selectAll] keeps. *)
Definition selectAll (p : Element.t -> bool) (children : list Element.t) : list nat :=
  omap (fun o => o) (imap (fun c e => if p e then Some c else None) children).

(** Index of the child that a [select] keeps: the first match. *)
Definition select (p : Element.t -> bool) (children : list Element.t) : option nat :=
  fst <$> list_find (fun e => Is_true (p e)) children.

(** [select(element).select("image").transition().duration(..)
    .style("filter", "grayscale(v%)")] *)
Definition filterTransition (element : nat) (v : R) (svg : Svg.t) : list Scheduled :=
  match Svg.nodeGroup svg !! element with
  | Some g =>
    match select Element.is_image (G.children g) with
    | Some c => [ {| s_ref := ChildAttr element c a_filter; s_delay := 0;
                     s_duration := ANIMATION_DURATION; s_target := Const v |} ]
    | None => []
    end
  | None => []
  end.

(** [handleNodeHover(element, d, simulation)], [d] being the node of
    index [i] in the store. *)
Definition handleNodeHover (element i : nat) (w : World.t) : World.t :=
  match World.data w !! i with
  | None => w
  | Some d =>
    let targetSize := SIMULATION_CONFIG.nodeSize.hover in
    let d := if negb (truthy (Node.originalR d))
             then Node.set_originalR (Some (Node.r d)) d else d in
    let tween := {| tw_element := element; tw_node := i;
                    tw_from := Node.r d; tw_to := targetSize |} in
    World.mk (<[i := d]> (World.data w)) (World.simulation w) (World.clusters w)
      (World.svg w) (World.tweens w ++ [tween])
      (if NodeType.eqb (Node.type d) NodeType.album
       then World.pending w ++ filterTransition element 0 (World.svg w)
       else World.pending w)
      (World.running w)
  end.

(** The target of the leave animation:
    [d.originalR || (d.type === "album" ? album : artist)]. *)
Definition leaveTargetSize (d : Node.t) : R :=
  if truthy (Node.originalR d) then default 0 (Node.originalR d)
  else if NodeType.eqb (Node.type d) NodeType.album
       then SIMULATION_CONFIG.nodeSize.album
       else SIMULATION_CONFIG.nodeSize.artist.

Definition handleNodeLeave (element i : nat) (w : World.t) : World.t :=
  match World.data w !! i with
  | None => w
  | Some d =>
    let targetSize := leaveTargetSize d in
    let tween := {| tw_element := element; tw_node := i;
                    tw_from := Node.r d; tw_to := targetSize |} in
    World.mk (World.data w) (World.simulation w) (World.clusters w)
      (World.svg w) (World.tweens w ++ [tween])
      (if NodeType.eqb (Node.type d) NodeType.album
       then World.pending w ++ filterTransition element 20 (World.svg w)
       else World.pending w)
      (World.running w)
  end.

(** One frame of the [k]-th radius tween, d3 calling it with the eased
    time [t]: the body of [function (t) { d.r = tween(t); ... }]. *)
Definition tweenFrame (k : nat) (t : R) (w : World.t) : World.t :=
  match World.tweens w !! k with
  | None => w
  | Some tw =>
    match World.data w !! tw_node tw with
    | None => w
    | Some d =>
      let data := <[tw_node tw := Node.set_r (interpolate (tw_from tw) (tw_to tw) t) d]>
                    (World.data w) in
      let simulation := updateCollisionForce data (World.simulation w) in
      let simulation := restartSimulationIfNeeded simulation in
      World.mk data simulation (World.clusters w) (World.svg w) (World.tweens w)
        (World.pending w) (World.running w)
    end
  end.

(** The listeners are put on the groups whose datum is not the title. *)
Definition listens (g : nat) (w : World.t) : option nat :=
  grp ← Svg.nodeGroup (World.svg w) !! g;
  d ← World.data w !! G.datum grp;
  if NodeType.eqb (Node.type d) NodeType.title then None else Some (G.datum grp).

Definition mouseenter (g : nat) (w : World.t) : World.t :=
  match listens g w with
  | Some i => handleNodeHover g i w
  | None => w
  end.

Definition mouseleave (g : nat) (w : World.t) : World.t :=
  match listens g w with
  | Some i => handleNodeLeave g i w
  | None => w
  end.

(** Pointer events and tween frames, in the order they happen. *)
Inductive Event :=
| MouseEnter (g : nat)
| MouseLeave (g : nat)
| TweenFrame (k : nat) (t : R).

Definition step (w : World.t) (ev : Event) : World.t :=
  match ev with
  | MouseEnter g => mouseenter g w
  | MouseLeave g => mouseleave g w
  | TweenFrame k t => tweenFrame k t w
  end.

Definition run (evs : list Event) (w : World.t) : World.t := foldl step w evs.

(** d3 calls a tween with an eased time between 0 and 1. *)
Definition eased (ev : Event) : Prop :=
  match ev with
  | TweenFrame _ t => 0 <= t <= 1
  | _ => True
  end.

(** ** Entrance choreography *)

(** [animateNodeEntrance(node, d, i, defs)]: [node] is the index of the
    group, [d] that of its datum in the store.  Every call below is a
    [transition()] on a selection, with one entry per selected element
    and written attribute. *)
Definition animateNodeEntrance (node d i : nat) (w : World.t) : World.t :=
  match World.data w !! d, Svg.nodeGroup (World.svg w) !! node with
  | Some dn, Some g =>
    let delay := INR i * ENTRANCE_ANIMATION_DELAY in
    let opacity :=
      [ {| s_ref := GOpacity node; s_delay := delay;
           s_duration := OPACITY_ANIMATION_DURATION; s_target := Const 1 |} ] in
    let circles :=
      map (fun c => {| s_ref := ChildAttr node c a_r; s_delay := delay;
                       s_duration := OPACITY_ANIMATION_DURATION;
                       s_target := EntranceCircleR d |})
          (selectAll Element.is_circle (G.children g)) in
    let imageSize := Node.r dn - SIMULATION_CONFIG.nodeSize.clipPadding in
    let images :=
      flat_map (fun c =>
          map (fun av => {| s_ref := ChildAttr node c (fst av); s_delay := delay;
                            s_duration := ENTRANCE_ANIMATION_DURATION;
                            s_target := Const (snd av) |})
              [ (a_x, - imageSize); (a_y, - imageSize);
                (a_width, imageSize * 2); (a_height, imageSize * 2) ])
        (selectAll Element.is_image (G.children g)) in
    let clip :=
      match list_find (fun c => ClipPath.id c = "clip-" +:+ Node.id dn)
                      (Svg.defs (World.svg w)) with
      | Some (k, _) =>
        [ {| s_ref := ClipR k; s_delay := delay;
             s_duration := ENTRANCE_ANIMATION_DURATION; s_target := Const imageSize |} ]
      | None => []
      end in
    let texts :=
      if NodeType.eqb (Node.type dn) NodeType.title then
        match select (Element.classed "title-main") (G.children g) with
        | Some c => [ {| s_ref := ChildAttr node c a_font_size; s_delay := delay;
                         s_duration := ENTRANCE_ANIMATION_DURATION;
                         s_target := Const 3 |} ]
        | None => []
        end ++
        match select (Element.classed "title-sub") (G.children g) with
        | Some c => [ {| s_ref := ChildAttr node c a_font_size;
                         s_delay := delay + SUBTITLE_DELAY_OFFSET;
                         s_duration := ENTRANCE_ANIMATION_DURATION - SUBTITLE_DELAY_OFFSET;
                         s_target := Const 2 |} ]
        | None => []
        end
      else [] in
    World.mk (World.data w) (World.simulation w) (World.clusters w) (World.svg w)
      (World.tweens w)
      (World.pending w ++ opacity ++ circles ++ images ++ clip ++ texts)
      (World.running w)
  | _, _ => w
  end.

(** The value a scheduled transition goes to, computed when it starts. *)
Definition evalTarget (s : Scheduled) (w : World.t) : option R :=
  match s_target s with
  | Const v => Some v
  | EntranceCircleR i =>
    match s_ref s with
    | ChildAttr g c _ =>
      grp ← Svg.nodeGroup (World.svg w) !! g;
      e ← G.children grp !! c;
      d ← World.data w !! i;
      Some (circleRadius e (Node.r d))
    | _ => None
    end
  end.

(** The [k]-th scheduled transition starts: it reads the present value of
    what it writes and its target, and interpolates between them. *)
Definition startTransition (k : nat) (w : World.t) : World.t :=
  match World.pending w !! k with
  | None => w
  | Some s =>
    match evalTarget s w with
    | None => w
    | Some to =>
      World.mk (World.data w) (World.simulation w) (World.clusters w) (World.svg w)
        (World.tweens w) (delete k (World.pending w))
        (World.running w ++
           [ {| run_ref := s_ref s;
                run_from := default 0 (getAttr (s_ref s) (World.svg w));
                run_to := to |} ])
    end
  end.

(** One frame of the [k]-th started transition at the eased time [t]. *)
Definition transitionFrame (k : nat) (t : R) (w : World.t) : World.t :=
  match World.running w !! k with
  | None => w
  | Some tr =>
    World.mk (World.data w) (World.simulation w) (World.clusters w)
      (setAttr (run_ref tr) (interpolate (run_from tr) (run_to tr) t) (World.svg w))
      (World.tweens w) (World.pending w) (World.running w)
  end.

Inductive TransitionEvent :=
| Start (k : nat)
| Frame (k : nat) (t : R).

Definition transitionStep (w : World.t) (ev : TransitionEvent) : World.t :=
  match ev with
  | Start k => startTransition k w
  | Frame k t => transitionFrame k t w
  end.

(** A simulation tick as far as the section sees it: the listener
    installed by [simulation.on("tick", ...)]. *)
Definition onTick (w : World.t) : World.t :=
  World.mk (World.data w) (World.simulation w) (World.clusters w)
    (updateVisualsOnTick (World.svg w) (World.data w))
    (World.tweens w) (World.pending w) (World.running w).

(** ** Mounting: the [useEffect] of [CollageMonde] *)

Definition clusterX (clusters : gmap string Cluster.t) (width : R) (d : Node.t) : R :=
  match clusters !! Node.group d with
  | Some cluster => Cluster.x cluster
  | None => width / 2
  end.

Definition clusterY (clusters : gmap string Cluster.t) (height : R) (d : Node.t) : R :=
  match clusters !! Node.group d with
  | Some cluster => Cluster.y cluster
  | None => height / 2
  end.

(** [svgRef] tells whether [svgRef.current] is set.  [forceSimulation]
    starts with alpha 1 and a running timer. *)
Definition mount (groups : list Group.t) (data : list Node.t) (svgRef : bool)
    : option World.t :=
  if (length data =? 0)%nat || negb svgRef then None
  else
    let width := SIMULATION_CONFIG.container.width in
    let height := SIMULATION_CONFIG.container.height in
    let defs := createClipPaths data in
    let clusters := createClusters groups width height in
    let nodes := imap initializeNode data in
    let simulation :=
      Simulation.mk 1
        SIMULATION_CONFIG.performance.alphaTarget
        SIMULATION_CONFIG.performance.velocityDecay
        true
        (Some (width / 2, height / 2, SIMULATION_CONFIG.forces.center))
        (Some (clusterX clusters width, SIMULATION_CONFIG.forces.x))
        (Some (clusterY clusters height, SIMULATION_CONFIG.forces.y))
        (Some (Collide.initialize nodes
                 (forceCollide
                    (fun d => Node.r d + SIMULATION_CONFIG.nodeSize.holePadding)
                    SIMULATION_CONFIG.forces.collide
                    SIMULATION_CONFIG.performance.collisionIterations)))
        (Some SIMULATION_CONFIG.forces.charge)
        (Some (SIMULATION_CONFIG.centerHole.radius, width / 2, height / 2,
               SIMULATION_CONFIG.centerHole.strength)) in
    let nodeGroup := imap createNodeGroup nodes in
    let w := World.mk nodes simulation clusters (Svg.mk defs nodeGroup) [] [] [] in
    Some (foldl (fun w i => animateNodeEntrance i i i w) w (seq 0 (length nodes))).

(** The cleanup of the effect: [simulation.stop()]. *)
Definition unmount (w : World.t) : World.t :=
  World.mk (World.data w) (Simulation.stop (World.simulation w)) (World.clusters w)
    (World.svg w) (World.tweens w) (World.pending w) (World.running w).

(** A render of [CollageMonde] with the filter [filter]: the node list is
    built with the draws of [rand] from the [k]-th on, then mounted. *)
Definition render (rand : nat -> R) (groups : list Group.t) (filter : FilterType.t)
    (k : nat) : option World.t :=
  match data rand groups filter k with
  | Some (items, _) => mount groups items true
  | None => None
  end.

(** The collision force of a mounted section, if any. *)
Definition collideOf (w : World.t) : option Collide.t :=
  Simulation.collide (World.simulation w).

(** ** Definitions used to state the properties *)

(** The nodes that [createAlbumNode] and [createArtistNode] return when
    [Math.random()] gives [u]. *)
Definition albumNodeWith (album : Album.t) (group : Group.t) (u : R) : Node.t :=
  {| Node.id := "album-" +:+ pretty (Album.id album);
     Node.src := Album.src album;
     Node.alt := Album.alt album;
     Node.type := NodeType.album;
     Node.groupName := Some (Group.name group);
     Node.groupId := Some (Group.id group);
     Node.albumId := Some (pretty (Album.id album));
     Node.r := Rmax SIMULATION_CONFIG.nodeSize.minAlbum
                 (SIMULATION_CONFIG.nodeSize.album
                  + (u - 1 / 2) * 2 * SIMULATION_CONFIG.nodeSize.maxDelta);
     Node.originalR := None;
     Node.group := Group.id group;
     Node.x := None; Node.y := None; Node.vx := None; Node.vy := None;
     Node.fx := None; Node.fy := None |}.

Definition artistNodeWith (album0 : Album.t) (group : Group.t) (u : R) : Node.t :=
  {| Node.id := "artist-" +:+ Group.id group;
     Node.src := Album.src album0;
     Node.alt := Group.name group +:+ " artist photo";
     Node.type := NodeType.artist;
     Node.groupName := Some (Group.name group);
     Node.groupId := Some (Group.id group);
     Node.albumId := None;
     Node.r := Rmax SIMULATION_CONFIG.nodeSize.minArtist
                 (SIMULATION_CONFIG.nodeSize.artist
                  + (u - 1 / 2) * 2 * SIMULATION_CONFIG.nodeSize.maxDelta);
     Node.originalR := None;
     Node.group := Group.id group;
     Node.x := None; Node.y := None; Node.vx := None; Node.vy := None;
     Node.fx := None; Node.fy := None |}.

(** The list that [data] builds, as a function of the draws. *)
Fixpoint albumNodes (rand : nat -> R) (group : Group.t) (albums : list Album.t)
    (k : nat) : list Node.t :=
  match albums with
  | [] => []
  | album :: albums' =>
    albumNodeWith album group (rand k) :: albumNodes rand group albums' (S k)
  end.

Definition allowsAlbums (filter : FilterType.t) : bool :=
  FilterType.eqb filter FilterType.tous || FilterType.eqb filter FilterType.album.

Definition allowsArtists (filter : FilterType.t) : bool :=
  FilterType.eqb filter FilterType.tous || FilterType.eqb filter FilterType.artist.

Definition groupNodes (rand : nat -> R) (filter : FilterType.t) (group : Group.t)
    (k : nat) : list Node.t * nat :=
  let albums := if allowsAlbums filter
                then albumNodes rand group (Group.albums group) k else [] in
  let k1 := (k + length albums)%nat in
  match allowsArtists filter, Group.albums group with
  | true, album0 :: _ => (albums ++ [artistNodeWith album0 group (rand k1)], S k1)
  | _, _ => (albums, k1)
  end.

Fixpoint nodesFrom (rand : nat -> R) (filter : FilterType.t) (groups : list Group.t)
    (k : nat) : list Node.t * nat :=
  match groups with
  | [] => ([], k)
  | group :: groups' =>
    let '(here, k1) := groupNodes rand filter group k in
    let '(rest, k2) := nodesFrom rand filter groups' k1 in
    (here ++ rest, k2)
  end.

Definition countType (ty : NodeType.t) (items : list Node.t) : nat :=
  length (List.filter (fun d => NodeType.eqb (Node.type d) ty) items).

Definition totalAlbums (groups : list Group.t) : nat :=
  sum_list (map (fun g => length (Group.albums g)) groups).

Definition groupsWithAlbums (groups : list Group.t) : nat :=
  length (List.filter (fun g => (0 <? length (Group.albums g))%nat) groups).

(** The radius a node rests at, as the pointer handlers see it: the
    value recorded in [originalR] once there is one, the present radius
    before. *)
Definition restingRadius (d : Node.t) : R :=
  if truthy (Node.originalR d) then default 0 (Node.originalR d) else Node.r d.

(** The radius that the collision force takes for a node. *)
Definition collisionRadius (d : Node.t) : R :=
  Node.r d + SIMULATION_CONFIG.nodeSize.holePadding.

(** A small mounted state used to instantiate the properties: one album
    node of radius 30 with its group, a simulation that has cooled to
    alpha 0.05. *)
Definition exampleNode : Node.t :=
  Node.mk "album-1" "cover.jpg" "cover" NodeType.album (Some "Group") (Some "A")
    (Some "1") 30 None "A" (Some 0) (Some 0) (Some 0) (Some 0) None None.

Definition exampleWorld : World.t :=
  World.mk [exampleNode]
    (Simulation.mk (5 / 100) SIMULATION_CONFIG.performance.alphaTarget
       SIMULATION_CONFIG.performance.velocityDecay false None None None None None None)
    ∅
    (Svg.mk (createClipPaths [exampleNode]) [createNodeGroup 0 exampleNode])
    [] [] [].

(** What render sync writes for one child of the group of the node [d]. *)
Definition projected (d : Node.t) (e e' : Element.t) : Prop :=
  match e with
  | Element.circle class _ =>
    e' = Element.circle class
           (if bool_decide (class = "outer") then Node.r d
            else if bool_decide (class = "hole")
                 then SIMULATION_CONFIG.nodeSize.holePadding
                 else Node.r d)
  | Element.image href _ _ _ _ clip filter =>
    e' = Element.image href
           (- (Node.r d - SIMULATION_CONFIG.nodeSize.clipPadding))
           (- (Node.r d - SIMULATION_CONFIG.nodeSize.clipPadding))
           ((Node.r d - SIMULATION_CONFIG.nodeSize.clipPadding) * 2)
           ((Node.r d - SIMULATION_CONFIG.nodeSize.clipPadding) * 2)
           clip filter
  | Element.text _ _ _ _ => e' = e
  end.

(** The attributes that render sync writes at every tick. *)
Definition overwritten (ref : AttrRef) : bool :=
  match ref with
  | ChildAttr _ _ (a_r | a_x | a_y | a_width | a_height) => true
  | ClipR _ => true
  | _ => false
  end.

(** The attributes and styles that the entrance animation is about:
    opacity, radii of circles, image box, clip radius, font sizes. *)
Definition entranceAttr (ref : AttrRef) : bool :=
  match ref with
  | GOpacity _ => true
  | ChildAttr _ _ (a_r | a_x | a_y | a_width | a_height | a_font_size) => true
  | ChildAttr _ _ a_filter => false
  | ClipR _ => true
  end.

(** Radii are positive: those of the nodes, the recorded resting radii
    and the end points of the tweens. *)
Definition positiveNode (d : Node.t) : Prop :=
  0 < Node.r d /\ forall v, Node.originalR d = Some v -> 0 < v.

Definition positiveTween (tw : RadiusTween) : Prop :=
  0 < tw_from tw /\ 0 < tw_to tw.

Definition positive (w : World.t) : Prop :=
  Forall positiveNode (World.data w) /\ Forall positiveTween (World.tweens w).

(** The radii that the collision force holds are those of the nodes as
    they are now. *)
Definition collideFresh (w : World.t) : Prop :=
  exists f, collideOf w = Some f
    /\ Collide.radii f = map collisionRadius (World.data w).


(** ** Everything that happens to a mounted section

    Pointer events and tween frames, starts and frames of the attribute
    transitions, and ticks of the simulation.  Of a tick the section
    sees the listener only; the positions that the solver of d3 computes
    are not part of the model. *)
Inductive Action :=
| Pointer (ev : Event)
| Animation (ev : TransitionEvent)
| Tick.

Definition act (w : World.t) (a : Action) : World.t :=
  match a with
  | Pointer ev => step w ev
  | Animation ev => transitionStep w ev
  | Tick => onTick w
  end.

Definition play (actions : list Action) (w : World.t) : World.t :=
  foldl act w actions.

Definition easedAction (a : Action) : Prop :=
  match a with
  | Pointer ev => eased ev
  | _ => True
  end.

(** The radii of an album or artist node stay in the interval that
    construction and the hover size span. *)
Definition boundedNode (d : Node.t) : Prop :=
  Node.type d = NodeType.title
  \/ (30 <= Node.r d <= 80 /\ forall v, Node.originalR d = Some v -> 30 <= v <= 80).

Definition boundedTween (tw : RadiusTween) : Prop :=
  30 <= tw_from tw <= 80 /\ 30 <= tw_to tw <= 80.

Definition bounded (w : World.t) : Prop :=
  Forall boundedNode (World.data w) /\ Forall boundedTween (World.tweens w).

(** The title node is the first node and no tween is about it. *)
Definition titleKept (w : World.t) : Prop :=
  World.data w !! 0%nat = Some (initializeNode 0 createTitleNode)
  /\ Forall (fun tw => tw_node tw <> 0%nat) (World.tweens w).

(** The album ids of a catalog, group after group. *)
Definition catalogAlbumIds (groups : list Group.t) : list Z :=
  flat_map (fun g => map Album.id (Group.albums g)) groups.

(** The ids of the nodes that a group contributes under a filter. *)
Definition nodeIdsOf (filter : FilterType.t) (g : Group.t) : list string :=
  (if allowsAlbums filter
   then map (fun a => "album-" +:+ pretty (Album.id a)) (Group.albums g) else [])
  ++ (if allowsArtists filter && (0 <? length (Group.albums g))%nat
      then ["artist-" +:+ Group.id g] else []).

(** What is asked of an entrance transition of the [i]-th node: it runs
    within 800 ms from the node's delay, and when it is about an
    attribute that render sync writes, it goes to the value that render
    sync writes. *)
Definition entranceAgrees (w : World.t) (i : nat) (s : Scheduled) : Prop :=
  INR i * ENTRANCE_ANIMATION_DELAY <= s_delay s
  /\ s_delay s + s_duration s
     <= INR i * ENTRANCE_ANIMATION_DELAY + ENTRANCE_ANIMATION_DURATION
  /\ (overwritten (s_ref s) = true ->
      exists v, evalTarget s w = Some v
        /\ getAttr (s_ref s) (updateVisualsOnTick (World.svg w) (World.data w))
           = Some v).

(** ** Clicks on a node *)

(** JavaScript truthiness of a [string | undefined]. *)
Definition truthyString (s : option string) : bool :=
  match s with
  | Some s => negb (bool_decide (s = ""))
  | None => false
  end.

(** What a template literal prints for a [string | undefined]. *)
Definition templateString (s : option string) : string := default "undefined" s.

(** [handleNodeClick(navigate, d)]: the path that [navigate] is called
    with, [None] when it is not called. *)
Definition handleNodeClick (d : Node.t) : option string :=
  if NodeType.eqb (Node.type d) NodeType.album && truthyString (Node.albumId d)
  then Some ("/artist/" +:+ templateString (Node.groupId d)
             +:+ "?album=" +:+ templateString (Node.albumId d))
  else if NodeType.eqb (Node.type d) NodeType.artist && truthyString (Node.groupId d)
  then Some ("/artist/" +:+ templateString (Node.groupId d))
  else None.

(** What a click on a node of a render of [groups] does: nothing on the
    title, the page of its group and album for an album node, the page
    of its group for an artist node, unless the group id is empty. *)
Definition clickResolves (groups : list Group.t) (d : Node.t) : Prop :=
  match Node.type d with
  | NodeType.title => handleNodeClick d = None
  | NodeType.album =>
    exists g a, g ∈ groups /\ a ∈ Group.albums g
      /\ Node.group d = Group.id g
      /\ handleNodeClick d
         = Some ("/artist/" +:+ Group.id g +:+ "?album=" +:+ pretty (Album.id a))
  | NodeType.artist =>
    exists g, g ∈ groups /\ Group.albums g <> []
      /\ Node.group d = Group.id g
      /\ handleNodeClick d
         = if bool_decide (Group.id g = "") then None
           else Some ("/artist/" +:+ Group.id g)
  end.

(** ** The group context ([contexts/GroupContext]) and the artist page
    ([routes/artist/artist.$id.tsx])

    [useContext(GroupContext)] gives the value of the nearest
    [GroupProvider] above the component, and [undefined], here [None],
    when there is none.  A render gives its output or raises, here
    [None]; a component whose child raises is not shown. *)
Module GroupContext.
(** An album of the context: the album with the id and the name of its
    group. *)
Record ContextAlbum := mkAlbum {
  album : Album.t;
  groupId : string;
  groupName : string
}.

Record Value := mk { groups : list Group.t; albums : list ContextAlbum }.

(** The value that [GroupProvider] supplies to what it wraps. *)
Definition GroupProvider (groupsData : list Group.t) : Value :=
  let groups := map (fun group => group) groupsData in
  let albums :=
    flat_map (fun group =>
                map (fun album => mkAlbum album (Group.id group) (Group.name group))
                    (Group.albums group))
             groups in
  mk groups albums.

Definition useGroups (context : option Value) : option Value :=
  match context with
  | None => None
  | Some context => Some context
  end.
End GroupContext.

(** [id] is the route parameter, [albumId] the [album] parameter of the
    query string ([null] is [None]), [context] what the components above
    the page supply.  The page is "not found" or shows a group, the
    selected album if there is one, and the other albums; in both cases
    it renders the navigation bar, whose search bar calls [useSearch]
    whether it is open or not, and [useSearch] calls [useGroups] before
    it computes anything.  Of the search only this call is modelled. *)
Module ArtistPage.
Inductive View :=
| NotFound
| Page (group : Group.t) (selectedAlbum : option Album.t) (otherAlbums : list Album.t).

Definition useSearch (context : option GroupContext.Value) : option unit :=
  _ ← GroupContext.useGroups context; Some tt.

Definition SearchBar (context : option GroupContext.Value) : option unit :=
  useSearch context.

Definition Navigation (context : option GroupContext.Value) : option unit :=
  SearchBar context.

Definition Artist (context : option GroupContext.Value) (groupsData : list Group.t)
    (id : option string) (albumId : option string) : option View :=
  let group :=
    find (fun g => bool_decide (Some (Group.id g) = id)) groupsData in
  let selectedAlbum :=
    if truthyString albumId
    then g ← group;
         find (fun album => bool_decide (Some (pretty (Album.id album)) = albumId))
              (Group.albums g)
    else g ← group; Group.albums g !! 0%nat in
  let otherAlbums :=
    (fun g : Group.t =>
       List.filter
         (fun album =>
            if truthyString albumId
            then negb (bool_decide (Some (pretty (Album.id album)) = albumId))
            else negb (bool_decide (Some (Album.id album)
                                    = Album.id <$> Group.albums g !! 0%nat)))
         (Group.albums g)) <$> group in
  match group, otherAlbums with
  | Some g, Some others => _ ← Navigation context; Some (Page g selectedAlbum others)
  | _, _ => _ ← Navigation context; Some NotFound
  end.
End ArtistPage.

(** ** The full-screen slideshow ([FullScreenCarousel]) and its keys

    The state of the component and the callbacks that [setTimeout] holds:
    each one sets the slide it was created for.  An index is a
    JavaScript number, here an integer; [%] on integers is [Z.rem].  The
    component reads [items[currentSlide]] at every render, so it raises
    and is gone when there is no such item; the handlers below belong to
    a component that rendered. *)
Module Slideshow.
Record CarouselItem := mkItem {
  id : Z;
  title : string;
  description : string;
  image : string;
  link : string;
  buttonText : string
}.

Record State := mk {
  currentSlide : Z;
  isVisible : bool;
  isPaused : bool;
  timeouts : list Z
}.

Definition initial : State := mk 0 true false [].

(** [items[currentSlide]] *)
Definition currentItem (items : list CarouselItem) (s : State) : option CarouselItem :=
  if (0 <=? currentSlide s)%Z then items !! Z.to_nat (currentSlide s) else None.

Definition changeSlide (newIndex : Z) (s : State) : State :=
  if (newIndex =? currentSlide s)%Z then s
  else mk (currentSlide s) false (isPaused s) (timeouts s ++ [newIndex]).

Definition goToNext (items : list CarouselItem) (s : State) : State :=
  changeSlide (Z.rem (currentSlide s + 1) (Z.of_nat (length items))) s.

Definition goToPrevious (items : list CarouselItem) (s : State) : State :=
  changeSlide (Z.rem (currentSlide s - 1 + Z.of_nat (length items))
                     (Z.of_nat (length items))) s.

Definition togglePause (s : State) : State :=
  mk (currentSlide s) (isVisible s) (negb (isPaused s)) (timeouts s).

Definition setIsPaused (b : bool) (s : State) : State :=
  mk (currentSlide s) (isVisible s) b (timeouts s).

(** The callback of the [k]-th pending [setTimeout] runs. *)
Definition timeout (k : nat) (s : State) : State :=
  match timeouts s !! k with
  | Some newIndex => mk newIndex true (isPaused s) (delete k (timeouts s))
  | None => s
  end.

(** [handleKeyDown] of [useKeyboardNavigation], with the three callbacks
    that the slideshow passes. *)
Definition handleKeyDown (items : list CarouselItem) (key : string) (s : State)
    : State :=
  if bool_decide (key = "ArrowLeft") then goToPrevious items s
  else if bool_decide (key = "ArrowRight") then goToNext items s
  else if bool_decide (key = " ") then togglePause s
  else if bool_decide (key = "Escape") then togglePause s
  else s.

(** [handleSlideClick]: the link that [navigate] is called with;
    [None] when reading [currentItem.link] raises. *)
Definition handleSlideClick (items : list CarouselItem) (s : State) : option string :=
  link <$> currentItem items s.

(** The width of the progress bar, in percent. *)
Definition progress (items : list CarouselItem) (s : State) : R :=
  IZR (currentSlide s + 1) / IZR (Z.of_nat (length items)) * 100.

Inductive Event :=
| ClickNext
| ClickPrevious
| ClickDot (index : nat)
| KeyDown (key : string)
| MouseEnter
| MouseLeave
| Timeout (k : nat).

Definition step (items : list CarouselItem) (s : State) (ev : Event) : State :=
  match ev with
  | ClickNext => goToNext items s
  | ClickPrevious => goToPrevious items s
  | ClickDot index => changeSlide (Z.of_nat index) s
  | KeyDown key => handleKeyDown items key s
  | MouseEnter => setIsPaused true s
  | MouseLeave => setIsPaused false s
  | Timeout k => timeout k s
  end.

Definition run (items : list CarouselItem) (evs : list Event) (s : State) : State :=
  foldl (step items) s evs.

(** There is one dot per item. *)
Definition possible (items : list CarouselItem) (ev : Event) : Prop :=
  match ev with
  | ClickDot index => (index < length items)%nat
  | _ => True
  end.

Definition inRange (items : list CarouselItem) (s : State) : Prop :=
  (0 <= currentSlide s < Z.of_nat (length items))%Z
  /\ Forall (fun i => 0 <= i < Z.of_nat (length items))%Z (timeouts s).

(** [j] clicks on "next", each one followed by its timeout. *)
Fixpoint nexts (j : nat) : list Event :=
  match j with
  | O => []
  | S j' => ClickNext :: Timeout 0 :: nexts j'
  end.
End Slideshow.

(** ** The album pile ([useAlbumSelection], used by [RocknRoulette])

    [selectionHistory] is a JavaScript [Set], which keeps its elements
    in the order of their first insertion: a list without repetition.
    Indices and z-indices are integers. *)
Module AlbumSelection.
Record State := mk {
  selectedAlbum : option Z;
  selectionHistory : list Z
}.

Definition initial : State := mk None [].

(** [new Set([...prev, index])] *)
Definition setAdd (index : Z) (prev : list Z) : list Z :=
  if bool_decide (index ∈ prev) then prev else prev ++ [index].

Definition handleAlbumClick (index : Z) (s : State) : State :=
  if bool_decide (selectedAlbum s = Some index)
  then mk None (selectionHistory s)
  else mk (Some index) (setAdd index (selectionHistory s)).

Definition handleUnfocus (s : State) : State := mk None (selectionHistory s).

(** [u] is what [Math.random()] returns. *)
Definition handleRandomSelection (albumsLength : Z) (u : R) (s : State) : State :=
  match selectedAlbum s with
  | None =>
    let randomIndex := Zfloor (u * IZR albumsLength) in
    mk (Some randomIndex) (setAdd randomIndex (selectionHistory s))
  | Some _ => mk None (selectionHistory s)
  end.

(** [Array.from(set).indexOf(index)], which is -1 for a missing element. *)
Definition indexOf (index : Z) (l : list Z) : Z :=
  match list_find (fun y => y = index) l with
  | Some (i, _) => Z.of_nat i
  | None => -1
  end.

Definition getAlbumZIndex (albumsLength : Z) (index : Z) (s : State) : Z :=
  let baseZIndex := albumsLength in
  if bool_decide (selectedAlbum s = Some index)
  then baseZIndex + Z.of_nat (length (selectionHistory s)) + 100
  else if bool_decide (index ∈ selectionHistory s)
  then
    let selectionOrder := indexOf index (selectionHistory s) in
    baseZIndex + selectionOrder + 50
  else index.

Definition isSelected (index : Z) (s : State) : bool :=
  bool_decide (selectedAlbum s = Some index).

Definition isDimmed (index : Z) (s : State) : bool :=
  match selectedAlbum s with
  | Some i => negb (bool_decide (i = index))
  | None => false
  end.

(** The section listens to clicks only while an album is selected. *)
Inductive Event :=
| ClickAlbum (index : Z)
| ClickSection
| ClickRandom (u : R).

Definition step (albumsLength : Z) (s : State) (ev : Event) : State :=
  match ev with
  | ClickAlbum index => handleAlbumClick index s
  | ClickSection =>
    match selectedAlbum s with
    | Some _ => handleUnfocus s
    | None => s
    end
  | ClickRandom u => handleRandomSelection albumsLength u s
  end.

Definition run (albumsLength : Z) (evs : list Event) (s : State) : State :=
  foldl (step albumsLength) s evs.

(** There is one album per index below [albumsLength], and
    [Math.random()] is in [0, 1). *)
Definition possible (albumsLength : Z) (ev : Event) : Prop :=
  match ev with
  | ClickAlbum index => (0 <= index < albumsLength)%Z
  | ClickSection => True
  | ClickRandom u => 0 <= u < 1
  end.

(** The positions that [RocknRoulette] draws for an album: [top] and
    [left] in percent, [rotate] in degrees, from three values of
    [Math.random()].  [Math.floor] makes the rounding of the sums and
    products visible, so it is written out: [round] is the rounding of
    an exact result to a JavaScript number, applied after each
    operation.  [Math.min], [Math.max] and [Math.floor] are exact. *)
Record AlbumPosition := mkPosition { top : Z; left : Z; rotate : Z }.

Definition albumPosition (round : R -> R) (u1 u2 u3 : R) : AlbumPosition :=
  let maxDeviationX := 20 in
  let maxDeviationY := 20 in
  let maxRotation := 40 in
  let xDeviation := round (round (round (u1 - 1 / 2) * 2) * maxDeviationX) in
  let yDeviation := round (round (round (u2 - 1 / 2) * 2) * maxDeviationY) in
  let randomRotation := round (round (u3 * maxRotation) - round (maxRotation / 2)) in
  mkPosition (Zfloor (Rmax 10 (Rmin 90 (round (50 + yDeviation)))))
             (Zfloor (Rmax 10 (Rmin 90 (round (50 + xDeviation)))))
             (Zfloor randomRotation).

(** What is used of the rounding: it is monotone, and the halves of the
    integers up to [2 ^ 53] are numbers, which it leaves as they are.
    Rounding to the nearest binary64 number is of this kind. *)
Definition rounding (round : R -> R) : Prop :=
  (forall x y, x <= y -> round x <= round y)
  /\ (forall n : Z, (Z.abs n <= 2 ^ 53)%Z -> round (IZR n / 2) = IZR n / 2).

(** A rounding of this kind that does round: to the nearest multiple of
    [1 / 2], a tie going up. *)
Definition roundToHalves (x : R) : R := IZR (Zfloor (x * 2 + 1 / 2)) / 2.
End AlbumSelection.

(** The invariant of the pile: the history has no repetition and holds
    indices of albums only, and the selected album is in it. *)
Definition pileInvariant (albumsLength : Z) (s : AlbumSelection.State) : Prop :=
  NoDup (AlbumSelection.selectionHistory s)
  /\ Forall (fun i => 0 <= i < albumsLength)%Z (AlbumSelection.selectionHistory s)
  /\ forall i, AlbumSelection.selectedAlbum s = Some i ->
       i ∈ AlbumSelection.selectionHistory s.

(** ** The album carousel ([BranchesMarginales/Carousel])

    [timeouts] counts the pending [setTimeout] callbacks, each of which
    ends the transition. *)
Module Carousel.
Record State := mk {
  currentIndex : Z;
  isTransitioning : bool;
  timeouts : nat
}.

Definition initial : State := mk 0 false 0.

(** [Math.max(0, albums.length - itemsPerView)] *)
Definition maxIndex (albumsLength itemsPerView : Z) : Z :=
  Z.max 0 (albumsLength - itemsPerView).

Definition updateCarousel (index : Z) (s : State) : State :=
  if isTransitioning s then s
  else mk index true (S (timeouts s)).

Definition handleNext (albumsLength itemsPerView : Z) (s : State) : State :=
  let nextIndex :=
    if (currentIndex s <? maxIndex albumsLength itemsPerView)%Z
    then (currentIndex s + 1)%Z else 0%Z in
  updateCarousel nextIndex s.

Definition handlePrev (albumsLength itemsPerView : Z) (s : State) : State :=
  let prevIndex :=
    if (0 <? currentIndex s)%Z
    then (currentIndex s - 1)%Z else maxIndex albumsLength itemsPerView in
  updateCarousel prevIndex s.

Definition handleIndicatorClick (index : Z) (s : State) : State :=
  updateCarousel index s.

(** The callback of a pending [setTimeout] runs. *)
Definition timeout (s : State) : State :=
  match timeouts s with
  | O => s
  | S k => mk (currentIndex s) false k
  end.

(** The callback of the auto-scroll [setInterval] runs. *)
Definition interval (albumsLength itemsPerView : Z) (s : State) : State :=
  if negb (isTransitioning s) then handleNext albumsLength itemsPerView s else s.

Inductive Event :=
| ClickNext
| ClickPrev
| ClickIndicator (index : Z)
| Timeout
| Interval.

Definition step (albumsLength itemsPerView : Z) (s : State) (ev : Event) : State :=
  match ev with
  | ClickNext => handleNext albumsLength itemsPerView s
  | ClickPrev => handlePrev albumsLength itemsPerView s
  | ClickIndicator index => handleIndicatorClick index s
  | Timeout => timeout s
  | Interval => interval albumsLength itemsPerView s
  end.

Definition run (albumsLength itemsPerView : Z) (evs : list Event) (s : State)
    : State :=
  foldl (step albumsLength itemsPerView) s evs.

(** There are [maxIndex + 1] indicators. *)
Definition possible (albumsLength itemsPerView : Z) (ev : Event) : Prop :=
  match ev with
  | ClickIndicator index => (0 <= index <= maxIndex albumsLength itemsPerView)%Z
  | _ => True
  end.

Definition invariant (albumsLength itemsPerView : Z) (s : State) : Prop :=
  (0 <= currentIndex s <= maxIndex albumsLength itemsPerView)%Z
  /\ timeouts s = (if isTransitioning s then 1 else 0)%nat.
End Carousel.

(** ** The selection in the search results ([SearchBar])

    [selectedIndex] under the arrow keys, for [n] results; [Enter] opens
    the selected result, and raises when there is none at that index. *)
Module SearchSelection.
Definition arrowDown (n : Z) (prev : Z) : Z :=
  if (prev <? n - 1)%Z then (prev + 1)%Z else 0%Z.

Definition arrowUp (n : Z) (prev : Z) : Z :=
  if (0 <? prev)%Z then (prev - 1)%Z else (n - 1)%Z.

Inductive Outcome :=
| Ignored
| Opens (index : nat)
| Raises.

(** [if (e.key === "Enter" && selectedIndex >= 0)
    handleResultClick(searchResults[selectedIndex])]: the handler reads
    [result.type], which raises on [undefined]. *)
Definition enter (n : Z) (selectedIndex : Z) : Outcome :=
  if (0 <=? selectedIndex)%Z
  then if (selectedIndex <? n)%Z then Opens (Z.to_nat selectedIndex) else Raises
  else Ignored.

Inductive Key := ArrowDown | ArrowUp.

Definition press (n : Z) (selectedIndex : Z) (key : Key) : Z :=
  match key with
  | ArrowDown => arrowDown n selectedIndex
  | ArrowUp => arrowUp n selectedIndex
  end.

(** The index after a sequence of arrow keys, from the -1 that a change
    of the results sets. *)
Definition after (n : Z) (keys : list Key) : Z := foldl (press n) (-1)%Z keys.
End SearchSelection.

(** ** The stepper of d3

    One run of the timer callback of a d3 simulation ([step], which
    calls [tick]): alpha moves towards [alphaTarget] by the fraction
    [alphaDecay], the forces move the nodes (not modelled), the tick
    listener runs, and the timer stops when alpha is below [alphaMin],
    which is 0.001.  The section never sets [alphaDecay]; d3's default
    is [1 - 0.001 ^ (1 / 300)], and the definitions take any value. *)
Definition d3Step (alphaDecay : R) (w : World.t) : World.t :=
  let s := World.simulation w in
  if Simulation.timer s then
    let alpha :=
      Simulation.alpha s + (Simulation.alphaTarget s - Simulation.alpha s) * alphaDecay in
    let s1 := Simulation.set_alpha alpha s in
    let w1 := onTick (World.mk (World.data w) s1 (World.clusters w) (World.svg w)
                        (World.tweens w) (World.pending w) (World.running w)) in
    if Rlt_dec alpha (1 / 1000)
    then World.mk (World.data w1) (Simulation.stop s1) (World.clusters w1)
           (World.svg w1) (World.tweens w1) (World.pending w1) (World.running w1)
    else w1
  else w.

Inductive LiveAction :=
| Do (a : Action)
| Step.

Definition liveAct (alphaDecay : R) (w : World.t) (a : LiveAction) : World.t :=
  match a with
  | Do a => act w a
  | Step => d3Step alphaDecay w
  end.

Definition live (alphaDecay : R) (actions : list LiveAction) (w : World.t) : World.t :=
  foldl (liveAct alphaDecay) w actions.

(** The simulation is warm: its timer runs and alpha is between the
    target and 1. *)
Definition warm (s : Simulation.t) : Prop :=
  Simulation.timer s = true
  /\ Simulation.alphaTarget s = SIMULATION_CONFIG.performance.alphaTarget
  /\ SIMULATION_CONFIG.performance.alphaTarget <= Simulation.alpha s <= 1.
(** * Properties *)

(** ** Node construction *)

Lemma createAlbumNode_eq rand album group k :
  createAlbumNode rand album group k
  = Some (albumNodeWith album group (rand k), S k).
Proof. reflexivity. Qed.

Lemma createArtistNode_eq rand group album0 albums k :
  Group.albums group = album0 :: albums ->
  createArtistNode rand group k
  = Some (artistNodeWith album0 group (rand k), S k).
Proof.
  intros H. unfold createArtistNode, bind, Math_random. rewrite H. reflexivity.
Qed.

Lemma createArtistNode_throws rand group k :
  Group.albums group = [] -> createArtistNode rand group k = None.
Proof.
  intros H. unfold createArtistNode, bind, Math_random. rewrite H. reflexivity.
Qed.

Lemma album_radius_bounds u :
  0 <= u < 1 ->
  let r := Rmax SIMULATION_CONFIG.nodeSize.minAlbum
             (SIMULATION_CONFIG.nodeSize.album
              + (u - 1 / 2) * 2 * SIMULATION_CONFIG.nodeSize.maxDelta) in
  r = 30 + 40 * u /\ 30 <= r < 70.
Proof.
  intros Hu. cbv zeta.
  unfold SIMULATION_CONFIG.nodeSize.minAlbum, SIMULATION_CONFIG.nodeSize.album,
    SIMULATION_CONFIG.nodeSize.maxDelta.
  rewrite Rmax_right by lra. lra.
Qed.

Lemma artist_radius_bounds u :
  0 <= u < 1 ->
  let r := Rmax SIMULATION_CONFIG.nodeSize.minArtist
             (SIMULATION_CONFIG.nodeSize.artist
              + (u - 1 / 2) * 2 * SIMULATION_CONFIG.nodeSize.maxDelta) in
  r = 40 + 40 * u /\ 40 <= r < 80.
Proof.
  intros Hu. cbv zeta.
  unfold SIMULATION_CONFIG.nodeSize.minArtist, SIMULATION_CONFIG.nodeSize.artist,
    SIMULATION_CONFIG.nodeSize.maxDelta.
  rewrite Rmax_right by lra. lra.
Qed.

(** C4. Radius bounds.  Whatever [Math.random()] returns in [0, 1), the
    random delta lies in [-maxDelta, +maxDelta), an album node is built
    and its radius [r] satisfies [minAlbum <= r <= album + maxDelta]; an
    artist node is built as soon as the group has an album, and every
    artist node built has [minArtist <= r <= artist + maxDelta]. *)
Theorem C4_radius_bounds (rand : nat -> R) (album : Album.t) (group : Group.t)
    (k : nat) (Hdraw : 0 <= rand k < 1) :
  let delta := (rand k - 1 / 2) * 2 * SIMULATION_CONFIG.nodeSize.maxDelta in
  (- SIMULATION_CONFIG.nodeSize.maxDelta <= delta
   < SIMULATION_CONFIG.nodeSize.maxDelta)
  /\ (exists d, createAlbumNode rand album group k = Some (d, S k)
        /\ Node.type d = NodeType.album
        /\ Node.r d = Rmax SIMULATION_CONFIG.nodeSize.minAlbum
                        (SIMULATION_CONFIG.nodeSize.album + delta)
        /\ SIMULATION_CONFIG.nodeSize.minAlbum <= Node.r d
           <= SIMULATION_CONFIG.nodeSize.album + SIMULATION_CONFIG.nodeSize.maxDelta)
  /\ (Group.albums group <> [] ->
      exists d, createArtistNode rand group k = Some (d, S k))
  /\ (forall d k', createArtistNode rand group k = Some (d, k') ->
        Node.type d = NodeType.artist
        /\ Node.r d = Rmax SIMULATION_CONFIG.nodeSize.minArtist
                        (SIMULATION_CONFIG.nodeSize.artist + delta)
        /\ SIMULATION_CONFIG.nodeSize.minArtist <= Node.r d
           <= SIMULATION_CONFIG.nodeSize.artist + SIMULATION_CONFIG.nodeSize.maxDelta).
Proof.
  intros delta. split; [|split; [|split]].
  - unfold delta, SIMULATION_CONFIG.nodeSize.maxDelta. lra.
  - exists (albumNodeWith album group (rand k)). split; [apply createAlbumNode_eq|].
    split; [reflexivity|]. split; [reflexivity|].
    destruct (album_radius_bounds (rand k) Hdraw) as [_ Hb]. simpl.
    unfold SIMULATION_CONFIG.nodeSize.minAlbum, SIMULATION_CONFIG.nodeSize.album,
      SIMULATION_CONFIG.nodeSize.maxDelta in *. lra.
  - intros Hne. destruct (Group.albums group) as [|album0 albums] eqn:E; [done|].
    eexists. eapply createArtistNode_eq. exact E.
  - intros d k' Hc. destruct (Group.albums group) as [|album0 albums] eqn:E.
    + rewrite createArtistNode_throws in Hc by exact E. discriminate.
    + rewrite (createArtistNode_eq _ _ _ _ _ E) in Hc. injection Hc as <- <-.
      split; [reflexivity|]. split; [reflexivity|].
      destruct (artist_radius_bounds (rand k) Hdraw) as [_ Hb]. simpl.
      unfold SIMULATION_CONFIG.nodeSize.minArtist, SIMULATION_CONFIG.nodeSize.artist,
        SIMULATION_CONFIG.nodeSize.maxDelta in *. lra.
Qed.

Lemma C4_radius_bounds_witness :
  let rand := fun _ : nat => 1 / 4 in
  let album := Album.mk 1 "t" "s" "a" in
  let group := Group.mk "A" "n" [album] in
  exists d, createAlbumNode rand album group 0%nat = Some (d, 1%nat)
        /\ SIMULATION_CONFIG.nodeSize.minAlbum <= Node.r d
           <= SIMULATION_CONFIG.nodeSize.album + SIMULATION_CONFIG.nodeSize.maxDelta.
Proof.
  intros rand album group.
  assert (Hdraw : 0 <= rand 0%nat < 1) by (unfold rand; lra).
  destruct (C4_radius_bounds rand album group 0%nat Hdraw) as (_ & (d & Hd & _ & _ & Hb) & _).
  exists d. split; [exact Hd | exact Hb].
Defined.

Lemma albumNodes_length rand group albums k :
  length (albumNodes rand group albums k) = length albums.
Proof. revert k. induction albums as [|a l IH]; intros k; simpl; [done|]. by rewrite IH. Qed.

Lemma forEach_albums rand group albums items k :
  forEach (fun items album =>
             bind (createAlbumNode rand album group) (fun d => ret (items ++ [d])))
          albums items k
  = Some (items ++ albumNodes rand group albums k, (k + length albums)%nat).
Proof.
  revert items k. induction albums as [|a l IH]; intros items k; simpl.
  - unfold ret. by rewrite app_nil_r, Nat.add_0_r.
  - unfold bind at 1. unfold bind at 1. rewrite createAlbumNode_eq. unfold ret at 1.
    rewrite IH. rewrite <- app_assoc. simpl. do 3 f_equal. lia.
Qed.

Lemma data_group rand filter group items k :
  bind
    (if FilterType.eqb filter FilterType.tous || FilterType.eqb filter FilterType.album
     then forEach (fun items album =>
                     bind (createAlbumNode rand album group)
                          (fun d => ret (items ++ [d])))
                  (Group.albums group) items
     else ret items)
    (fun items =>
       if (FilterType.eqb filter FilterType.tous
           || FilterType.eqb filter FilterType.artist)
          && (0 <? length (Group.albums group))%nat
       then bind (createArtistNode rand group) (fun d => ret (items ++ [d]))
       else ret items) k
  = Some (items ++ fst (groupNodes rand filter group k),
          snd (groupNodes rand filter group k)).
Proof.
  unfold groupNodes. fold (allowsAlbums filter). fold (allowsArtists filter).
  unfold bind at 1.
  assert (Hfirst :
    (if allowsAlbums filter
     then forEach (fun items album =>
                     bind (createAlbumNode rand album group)
                          (fun d => ret (items ++ [d])))
                  (Group.albums group) items
     else ret items) k
    = Some (items ++ (if allowsAlbums filter
                      then albumNodes rand group (Group.albums group) k else []),
            (k + length (if allowsAlbums filter
                         then albumNodes rand group (Group.albums group) k
                         else []))%nat)).
  { destruct (allowsAlbums filter).
    - rewrite forEach_albums, albumNodes_length. reflexivity.
    - unfold ret. simpl. by rewrite app_nil_r, Nat.add_0_r. }
  rewrite Hfirst. clear Hfirst.
  destruct (allowsArtists filter); simpl.
  - destruct (Group.albums group) as [|album0 albums] eqn:E; simpl.
    + reflexivity.
    + unfold bind. rewrite (createArtistNode_eq rand group album0 albums _ E).
      unfold ret. simpl. by rewrite <- app_assoc.
  - destruct (Group.albums group); reflexivity.
Qed.

Lemma data_forEach rand filter groups items k :
  forEach (fun items group =>
    bind
      (if FilterType.eqb filter FilterType.tous || FilterType.eqb filter FilterType.album
       then forEach (fun items album =>
                       bind (createAlbumNode rand album group)
                            (fun d => ret (items ++ [d])))
                    (Group.albums group) items
       else ret items)
      (fun items =>
         if (FilterType.eqb filter FilterType.tous
             || FilterType.eqb filter FilterType.artist)
            && (0 <? length (Group.albums group))%nat
         then bind (createArtistNode rand group) (fun d => ret (items ++ [d]))
         else ret items))
    groups items k
  = Some (items ++ fst (nodesFrom rand filter groups k),
          snd (nodesFrom rand filter groups k)).
Proof.
  revert items k. induction groups as [|g gs IH]; intros items k.
  - simpl. unfold ret. by rewrite app_nil_r.
  - cbn [forEach]. unfold bind at 1. rewrite data_group. rewrite IH.
    cbn [nodesFrom]. destruct (groupNodes rand filter g k) as [here k1]. simpl.
    destruct (nodesFrom rand filter gs k1) as [rest k2]. simpl.
    by rewrite <- app_assoc.
Qed.

(** Building the node list never raises: it returns the title node
    followed by the nodes of the groups, in order. *)
Lemma data_eq rand groups filter k :
  data rand groups filter k
  = Some (createTitleNode :: fst (nodesFrom rand filter groups k),
          snd (nodesFrom rand filter groups k)).
Proof. unfold data. rewrite data_forEach. reflexivity. Qed.

Lemma countType_app ty l1 l2 :
  countType ty (l1 ++ l2) = (countType ty l1 + countType ty l2)%nat.
Proof. unfold countType. by rewrite List.filter_app, length_app. Qed.

Lemma countType_albumNodes ty rand group albums k :
  countType ty (albumNodes rand group albums k)
  = if NodeType.eqb NodeType.album ty then length albums else 0%nat.
Proof.
  revert k. induction albums as [|a l IH]; intros k.
  - by destruct ty.
  - simpl. change (albumNodeWith a group (rand k) :: albumNodes rand group l (S k))
      with ([albumNodeWith a group (rand k)] ++ albumNodes rand group l (S k)).
    rewrite countType_app, IH. by destruct ty.
Qed.

Lemma countType_groupNodes ty rand filter group k :
  countType ty (fst (groupNodes rand filter group k))
  = ((if NodeType.eqb NodeType.album ty && allowsAlbums filter
      then length (Group.albums group) else 0)
     + (if NodeType.eqb NodeType.artist ty && allowsArtists filter
           && (0 <? length (Group.albums group))%nat
        then 1 else 0))%nat.
Proof.
  unfold groupNodes.
  set (al := if allowsAlbums filter
             then albumNodes rand group (Group.albums group) k else []).
  assert (Hal : countType ty al
                = if NodeType.eqb NodeType.album ty && allowsAlbums filter
                  then length (Group.albums group) else 0%nat).
  { unfold al. destruct (allowsAlbums filter).
    - rewrite countType_albumNodes. by destruct (NodeType.eqb _ _).
    - by destruct (NodeType.eqb _ _). }
  clearbody al.
  destruct (allowsArtists filter), (Group.albums group) as [|a0 l]; simpl;
    rewrite ?countType_app, Hal; simpl;
    rewrite ?andb_false_r; simpl; try lia.
  destruct ty; unfold countType; simpl; lia.
Qed.

Lemma countType_nodesFrom ty rand filter groups k :
  countType ty (fst (nodesFrom rand filter groups k))
  = ((if NodeType.eqb NodeType.album ty && allowsAlbums filter
      then totalAlbums groups else 0)
     + (if NodeType.eqb NodeType.artist ty && allowsArtists filter
        then groupsWithAlbums groups else 0))%nat.
Proof.
  revert k. induction groups as [|g gs IH]; intros k.
  - simpl. unfold countType, totalAlbums, groupsWithAlbums. simpl.
    by destruct (_ && _), (_ && _).
  - cbn [nodesFrom].
    pose proof (countType_groupNodes ty rand filter g k) as Hg.
    destruct (groupNodes rand filter g k) as [here k1]. simpl in Hg.
    specialize (IH k1). destruct (nodesFrom rand filter gs k1) as [rest k2].
    simpl in IH. simpl. rewrite countType_app, Hg, IH.
    unfold totalAlbums, groupsWithAlbums. simpl.
    destruct ty, (allowsAlbums filter), (allowsArtists filter),
      (0 <? length (Group.albums g))%nat; simpl; lia.
Qed.

Lemma nodesFrom_app rand filter gs1 gs2 k :
  nodesFrom rand filter (gs1 ++ gs2) k
  = (fst (nodesFrom rand filter gs1 k)
       ++ fst (nodesFrom rand filter gs2 (snd (nodesFrom rand filter gs1 k))),
     snd (nodesFrom rand filter gs2 (snd (nodesFrom rand filter gs1 k)))).
Proof.
  revert k. induction gs1 as [|g gs IH]; intros k.
  - simpl. by destruct (nodesFrom rand filter gs2 k).
  - simpl. destruct (groupNodes rand filter g k) as [here k1].
    rewrite IH. destruct (nodesFrom rand filter gs k1) as [rest k2]. simpl.
    by rewrite app_assoc.
Qed.

Lemma groupNodes_no_album rand filter gid name k :
  groupNodes rand filter (Group.mk gid name []) k = ([], k).
Proof.
  unfold groupNodes. simpl.
  destruct (allowsAlbums filter), (allowsArtists filter); simpl; by rewrite Nat.add_0_r.
Qed.

(** C5. Node-set construction.  For every catalog, filter and state of
    the random source, construction returns a list (it never raises)
    with exactly one title node; under [album] it has one album node per
    catalog album and no artist node, under [artist] one artist node per
    group that has an album and no album node, under [tous] both.  A
    group without album adds nothing: the list is the one built without
    that group.  For the groups A (two albums) and B (one album) under
    [tous] the list has 6 nodes. *)
Theorem C5_node_set (rand : nat -> R) (groups : list Group.t) (k : nat) :
  (forall filter, exists items k',
      data rand groups filter k = Some (items, k')
      /\ countType NodeType.title items = 1%nat)
  /\ (exists items k',
      data rand groups FilterType.album k = Some (items, k')
      /\ countType NodeType.album items = totalAlbums groups
      /\ countType NodeType.artist items = 0%nat)
  /\ (exists items k',
      data rand groups FilterType.artist k = Some (items, k')
      /\ countType NodeType.album items = 0%nat
      /\ countType NodeType.artist items = groupsWithAlbums groups)
  /\ (exists items k',
      data rand groups FilterType.tous k = Some (items, k')
      /\ countType NodeType.album items = totalAlbums groups
      /\ countType NodeType.artist items = groupsWithAlbums groups)
  /\ (forall filter gs1 gid name gs2,
      data rand (gs1 ++ Group.mk gid name [] :: gs2) filter k
      = data rand (gs1 ++ gs2) filter k)
  /\ (forall nameA nameB album1 album2 album3, exists items k',
      data rand [Group.mk "A" nameA [album1; album2]; Group.mk "B" nameB [album3]]
           FilterType.tous k = Some (items, k')
      /\ length items = 6%nat).
Proof.
  assert (Hcount : forall filter ty,
    countType ty (createTitleNode :: fst (nodesFrom rand filter groups k))
    = ((if NodeType.eqb NodeType.title ty then 1 else 0)
       + ((if NodeType.eqb NodeType.album ty && allowsAlbums filter
           then totalAlbums groups else 0)
          + (if NodeType.eqb NodeType.artist ty && allowsArtists filter
             then groupsWithAlbums groups else 0)))%nat).
  { intros filter ty.
    change (createTitleNode :: fst (nodesFrom rand filter groups k))
      with ([createTitleNode] ++ fst (nodesFrom rand filter groups k)).
    rewrite countType_app, countType_nodesFrom. by destruct ty. }
  repeat split.
  - intros filter. do 2 eexists. split; [apply data_eq|]. rewrite Hcount. simpl. lia.
  - do 2 eexists. split; [apply data_eq|]. rewrite !Hcount. simpl. lia.
  - do 2 eexists. split; [apply data_eq|]. rewrite !Hcount. simpl. lia.
  - do 2 eexists. split; [apply data_eq|]. rewrite !Hcount. simpl. lia.
  - intros filter gs1 gid name gs2. rewrite !data_eq, !nodesFrom_app.
    cbn [nodesFrom]. rewrite groupNodes_no_album. simpl.
    by destruct (nodesFrom rand filter gs2 _).
  - intros nameA nameB album1 album2 album3. do 2 eexists.
    split; [apply data_eq|]. reflexivity.
Qed.

(** ** Mounting *)

(** Scheduling the entrance animation of a node only adds scheduled
    transitions. *)
Lemma animateNodeEntrance_frame node d i w :
  let w' := animateNodeEntrance node d i w in
  World.data w' = World.data w
  /\ World.simulation w' = World.simulation w
  /\ World.clusters w' = World.clusters w
  /\ World.svg w' = World.svg w
  /\ World.tweens w' = World.tweens w
  /\ World.running w' = World.running w.
Proof.
  unfold animateNodeEntrance.
  destruct (World.data w !! d); [|by repeat split].
  destruct (Svg.nodeGroup (World.svg w) !! node); by repeat split.
Qed.

Lemma entrances_frame (idx : list nat) w :
  let w' := foldl (fun w i => animateNodeEntrance i i i w) w idx in
  World.data w' = World.data w
  /\ World.simulation w' = World.simulation w
  /\ World.clusters w' = World.clusters w
  /\ World.svg w' = World.svg w
  /\ World.tweens w' = World.tweens w
  /\ World.running w' = World.running w.
Proof.
  revert w. induction idx as [|i idx IH]; intros w; simpl; [by repeat split|].
  destruct (IH (animateNodeEntrance i i i w)) as (H1 & H2 & H3 & H4 & H5 & H6).
  destruct (animateNodeEntrance_frame i i i w) as (G1 & G2 & G3 & G4 & G5 & G6).
  simpl in *. repeat split; congruence.
Qed.

Lemma initializeNode_r i d : Node.r (initializeNode i d) = Node.r d.
Proof.
  unfold initializeNode.
  destruct (Node.fx d), (Node.fy d), (Node.x d), (Node.y d), (Node.vx d), (Node.vy d);
    reflexivity.
Qed.

Lemma initializeNode_originalR i d :
  Node.originalR (initializeNode i d) = Node.originalR d.
Proof.
  unfold initializeNode.
  destruct (Node.fx d), (Node.fy d), (Node.x d), (Node.y d), (Node.vx d), (Node.vy d);
    reflexivity.
Qed.

Lemma initializeNode_type i d : Node.type (initializeNode i d) = Node.type d.
Proof.
  unfold initializeNode.
  destruct (Node.fx d), (Node.fy d), (Node.x d), (Node.y d), (Node.vx d), (Node.vy d);
    reflexivity.
Qed.

Lemma initializeNode_id i d : Node.id (initializeNode i d) = Node.id d.
Proof.
  unfold initializeNode.
  destruct (Node.fx d), (Node.fy d), (Node.x d), (Node.y d), (Node.vx d), (Node.vy d);
    reflexivity.
Qed.

(** What [mount] leaves in the store, the simulation and the document. *)
Lemma mount_spec groups data :
  data <> [] ->
  exists w, mount groups data true = Some w
    /\ World.data w = imap initializeNode data
    /\ World.clusters w
       = createClusters groups SIMULATION_CONFIG.container.width
                        SIMULATION_CONFIG.container.height
    /\ World.svg w
       = Svg.mk (createClipPaths data) (imap createNodeGroup (imap initializeNode data))
    /\ World.tweens w = []
    /\ World.running w = []
    /\ Simulation.alpha (World.simulation w) = 1
    /\ Simulation.timer (World.simulation w) = true
    /\ collideOf w
       = Some (Collide.mk
                 (fun d => Node.r d + SIMULATION_CONFIG.nodeSize.holePadding)
                 SIMULATION_CONFIG.forces.collide
                 SIMULATION_CONFIG.performance.collisionIterations
                 (map (fun d => Node.r d + SIMULATION_CONFIG.nodeSize.holePadding)
                      (imap initializeNode data))).
Proof.
  intros Hne. unfold mount.
  destruct data as [|d0 data']; [done|].
  cbn [length Nat.eqb orb negb].
  eexists. split; [reflexivity|].
  match goal with
  | |- context [foldl _ ?w0 ?idx] => destruct (entrances_frame idx w0) as (H1 & H2 & H3 & H4 & H5 & H6)
  end.
  unfold collideOf. cbv zeta in *.
  rewrite H1, H2, H3, H4, H5, H6. repeat split.
Qed.

Lemma render_spec rand groups filter k :
  exists items k' w,
    data rand groups filter k = Some (items, k')
    /\ items = createTitleNode :: fst (nodesFrom rand filter groups k)
    /\ render rand groups filter k = Some w
    /\ mount groups items true = Some w.
Proof.
  destruct (mount_spec groups (createTitleNode :: fst (nodesFrom rand filter groups k)))
    as (w & Hw & _); [done|].
  do 2 eexists. exists w. split; [apply data_eq|]. split; [reflexivity|].
  unfold render. rewrite data_eq. split; exact Hw.
Qed.

(** ** The collision force *)

Lemma render_collide rand groups filter k :
  exists w f, render rand groups filter k = Some w
    /\ collideOf w = Some f
    /\ Collide.iterations f = 3%nat
    /\ Collide.strength f = 1
    /\ Collide.radii f
       = map (fun d => Node.r d + SIMULATION_CONFIG.nodeSize.holePadding) (World.data w).
Proof.
  destruct (render_spec rand groups filter k) as (items & k' & w & _ & Hitems & Hr & Hm).
  destruct (mount_spec groups items) as (w' & Hw' & Hdata & _ & _ & _ & _ & _ & _ & Hc).
  { by rewrite Hitems. }
  assert (w' = w) as -> by congruence.
  eexists w, _. split; [exact Hr|]. split; [exact Hc|].
  simpl. rewrite Hdata. repeat split.
Qed.

(** C1 as stated fails: the strength of the collision force of a mounted
    section is not below 1. *)
Lemma C1_counterexample :
  ~ (forall w f,
       render (fun _ => 0) [] FilterType.tous 0%nat = Some w ->
       collideOf w = Some f ->
       (1 < Collide.iterations f)%nat /\ Collide.strength f < 1).
Proof.
  intros H.
  destruct (render_collide (fun _ => 0) [] FilterType.tous 0%nat)
    as (w & f & Hr & Hc & _ & Hs & _).
  destruct (H w f Hr Hc) as [_ Hlt]. rewrite Hs in Hlt. lra.
Qed.

(** C1 (amended). The collision force, at mount and each time a hover
    frame replaces it, makes 3 relaxation passes per tick (more than
    one) and has strength exactly 1.0, which is not below 1.0. *)
Theorem C1_collision_config (rand : nat -> R) (groups : list Group.t)
    (filter : FilterType.t) (k : nat) :
  SIMULATION_CONFIG.forces.collide = 1
  /\ SIMULATION_CONFIG.performance.collisionIterations = 3%nat
  /\ (exists w f, render rand groups filter k = Some w
        /\ collideOf w = Some f
        /\ (1 < Collide.iterations f)%nat
        /\ Collide.strength f = 1
        /\ ~ Collide.strength f < 1)
  /\ (forall nodes simulation, exists f,
        Simulation.collide (updateCollisionForce nodes simulation) = Some f
        /\ (1 < Collide.iterations f)%nat
        /\ Collide.strength f = 1
        /\ ~ Collide.strength f < 1).
Proof.
  split; [reflexivity|]. split; [reflexivity|]. split.
  - destruct (render_collide rand groups filter k) as (w & f & Hr & Hc & Hi & Hs & _).
    exists w, f. rewrite Hi, Hs. repeat split; try done; try lia. lra.
  - intros nodes simulation. eexists. split; [reflexivity|]. simpl.
    unfold SIMULATION_CONFIG.performance.collisionIterations,
      SIMULATION_CONFIG.forces.collide. repeat split; try lia. lra.
Qed.

(** ** Cluster targets *)

Lemma clusterPoint_code i n width height :
  {| Cluster.x := width / 2 + cos (INR i / INR n * 2 * PI) * (Rmin width height / 4);
     Cluster.y := height / 2 + sin (INR i / INR n * 2 * PI) * (Rmin width height / 4) |}
  = clusterPoint i n width height.
Proof.
  unfold clusterPoint.
  replace (INR i / INR n * 2 * PI) with (2 * PI * INR i / INR n)
    by (unfold Rdiv; ring).
  reflexivity.
Qed.

Lemma clusterPoint_onCircle i n width height :
  onCircle (clusterPoint i n width height) (width / 2) (height / 2)
           (Rmin width height / 4).
Proof.
  unfold onCircle, clusterPoint. simpl.
  set (a := 2 * PI * INR i / INR n). set (rad := Rmin width height / 4).
  pose proof (sin2_cos2 a) as H. unfold Rsqr in H.
  replace ((width / 2 + cos a * rad - width / 2) * (width / 2 + cos a * rad - width / 2)
           + (height / 2 + sin a * rad - height / 2)
             * (height / 2 + sin a * rad - height / 2))
    with (rad * rad * (sin a * sin a + cos a * cos a)) by ring.
  rewrite H. ring.
Qed.

Lemma createClusters_forEach_notin groups i n width height
    (clusters : gmap string Cluster.t) key :
  key ∉ map Group.id groups ->
  createClusters_forEach groups i n width height clusters !! key = clusters !! key.
Proof.
  revert i clusters. induction groups as [|g gs IH]; intros i clusters Hnot; simpl.
  - reflexivity.
  - simpl in Hnot. apply not_elem_of_cons in Hnot as [Hne Hnot].
    rewrite IH by exact Hnot. by rewrite lookup_insert_ne.
Qed.

Lemma createClusters_forEach_lookup groups i n width height
    (clusters : gmap string Cluster.t) j g :
  NoDup (map Group.id groups) ->
  groups !! j = Some g ->
  createClusters_forEach groups i n width height clusters !! Group.id g
  = Some (clusterPoint (i + j) n width height).
Proof.
  revert i clusters j. induction groups as [|g0 gs IH]; intros i clusters j Hnd Hj.
  - done.
  - simpl in Hnd. apply NoDup_cons in Hnd as [Hnot Hnd]. destruct j as [|j]; simpl in Hj.
    + injection Hj as ->. simpl.
      rewrite createClusters_forEach_notin by exact Hnot.
      rewrite lookup_insert_eq, clusterPoint_code. by rewrite Nat.add_0_r.
    + simpl. rewrite (IH (S i) _ j Hnd Hj). do 2 f_equal. lia.
Qed.

Lemma createClusters_forEach_size groups i n width height
    (clusters : gmap string Cluster.t) :
  NoDup (map Group.id groups) ->
  (forall key, key ∈ map Group.id groups -> clusters !! key = None) ->
  size (createClusters_forEach groups i n width height clusters)
  = (size clusters + length groups)%nat.
Proof.
  revert i clusters. induction groups as [|g gs IH]; intros i clusters Hnd Hfresh; simpl.
  - lia.
  - simpl in Hnd. apply NoDup_cons in Hnd as [Hnot Hnd].
    rewrite IH; [| exact Hnd |].
    + rewrite map_size_insert_None; [lia|]. apply Hfresh. simpl. apply elem_of_cons. by left.
    + intros key Hkey. rewrite lookup_insert_ne.
      * apply Hfresh. simpl. apply elem_of_cons. by right.
      * intros Heq. subst key. contradiction.
Qed.

Lemma createClusters_forEach_ids gs1 gs2 i n width height
    (clusters : gmap string Cluster.t) :
  map Group.id gs1 = map Group.id gs2 ->
  createClusters_forEach gs1 i n width height clusters
  = createClusters_forEach gs2 i n width height clusters.
Proof.
  revert gs2 i clusters. induction gs1 as [|g gs IH]; intros [|g' gs'] i clusters H;
    simpl in *; try done.
  injection H as Hid Hrest. rewrite Hid. by apply IH.
Qed.

(** C6. Cluster targets.  For groups with distinct ids the mapping has
    exactly one entry per group; the [i]-th group of [n] is at angle
    [2 * PI * i / n] on the circle of radius [min(width, height) / 4]
    around [(width / 2, height / 2)].  The mapping is a function of the
    list of group ids, the width and the height, and of nothing else. *)
Theorem C6_cluster_targets (groups : list Group.t) (width height : R)
    (Hdistinct : NoDup (map Group.id groups)) :
  size (createClusters groups width height) = length groups
  /\ (forall key, is_Some (createClusters groups width height !! key)
                  <-> key ∈ map Group.id groups)
  /\ (forall i g, groups !! i = Some g ->
        createClusters groups width height !! Group.id g
        = Some (clusterPoint i (length groups) width height)
        /\ onCircle (clusterPoint i (length groups) width height)
                    (width / 2) (height / 2) (Rmin width height / 4))
  /\ (forall groups', map Group.id groups' = map Group.id groups ->
        createClusters groups' width height = createClusters groups width height).
Proof.
  unfold createClusters. split; [|split; [|split]].
  - rewrite createClusters_forEach_size; [by rewrite map_size_empty| exact Hdistinct |].
    intros key _. apply lookup_empty.
  - intros key. split.
    + intros Hsome. destruct (decide (key ∈ map Group.id groups)) as [|Hnot]; [done|].
      rewrite createClusters_forEach_notin in Hsome by exact Hnot.
      rewrite lookup_empty in Hsome. by destruct Hsome.
    + intros Hin. apply list_elem_of_fmap in Hin as (g & -> & Hg).
      apply list_elem_of_lookup in Hg as [i Hi].
      rewrite (createClusters_forEach_lookup _ _ _ _ _ _ i g Hdistinct Hi). eauto.
  - intros i g Hi. split; [|apply clusterPoint_onCircle].
    by rewrite (createClusters_forEach_lookup _ _ _ _ _ _ i g Hdistinct Hi).
  - intros groups' Hids.
    assert (length groups' = length groups) as ->.
    { by rewrite <- (length_map Group.id groups'), Hids, length_map. }
    by apply createClusters_forEach_ids.
Qed.

Lemma C6_cluster_targets_witness :
  let groups := [Group.mk "A" "a" []; Group.mk "B" "b" []] in
  size (createClusters groups 1280 960) = 2%nat
  /\ createClusters groups 1280 960 !! "B"
     = Some (clusterPoint 1 2 1280 960).
Proof.
  intros groups.
  assert (Hdistinct : NoDup (map Group.id groups)).
  { unfold groups. simpl. apply NoDup_cons. split.
    - intros H. apply list_elem_of_singleton in H. discriminate.
    - apply NoDup_singleton. }
  destruct (C6_cluster_targets groups 1280 960 Hdistinct) as (Hsize & _ & Hat & _).
  split; [exact Hsize|].
  exact (proj1 (Hat 1%nat (Group.mk "B" "b" []) eq_refl)).
Defined.

Lemma mount_forces groups data :
  data <> [] ->
  exists w, mount groups data true = Some w
    /\ Simulation.forceX (World.simulation w)
       = Some (clusterX (World.clusters w) SIMULATION_CONFIG.container.width,
               SIMULATION_CONFIG.forces.x)
    /\ Simulation.forceY (World.simulation w)
       = Some (clusterY (World.clusters w) SIMULATION_CONFIG.container.height,
               SIMULATION_CONFIG.forces.y).
Proof.
  intros Hne. unfold mount.
  destruct data as [|d0 data']; [done|].
  cbn [length Nat.eqb orb negb].
  eexists. split; [reflexivity|].
  match goal with
  | |- context [foldl _ ?w0 ?idx] =>
    destruct (entrances_frame idx w0) as (H1 & H2 & H3 & H4 & H5 & H6)
  end.
  cbv zeta in *. rewrite H2, H3. split; reflexivity.
Qed.

(** C7. Cluster targets do not depend on the filter.  Whatever the
    filter (and the random draws), a render of the same group list
    computes its cluster targets from the whole list, so two renders
    have the same mapping and their [x] and [y] forces pull a node
    towards the same point. *)
Theorem C7_clusters_filter_independent (rand1 rand2 : nat -> R)
    (groups : list Group.t) (filter1 filter2 : FilterType.t) (k1 k2 : nat) :
  exists w1 w2,
    render rand1 groups filter1 k1 = Some w1
    /\ render rand2 groups filter2 k2 = Some w2
    /\ World.clusters w1
       = createClusters groups SIMULATION_CONFIG.container.width
                        SIMULATION_CONFIG.container.height
    /\ World.clusters w1 = World.clusters w2
    /\ (exists fx fy,
          Simulation.forceX (World.simulation w1)
          = Some (fx, SIMULATION_CONFIG.forces.x)
          /\ Simulation.forceX (World.simulation w2)
             = Some (fx, SIMULATION_CONFIG.forces.x)
          /\ Simulation.forceY (World.simulation w1)
             = Some (fy, SIMULATION_CONFIG.forces.y)
          /\ Simulation.forceY (World.simulation w2)
             = Some (fy, SIMULATION_CONFIG.forces.y)
          /\ forall d,
               fx d = clusterX (World.clusters w1) SIMULATION_CONFIG.container.width d
               /\ fy d = clusterY (World.clusters w1) SIMULATION_CONFIG.container.height d).
Proof.
  destruct (render_spec rand1 groups filter1 k1) as (i1 & ? & w1 & _ & Hi1 & Hr1 & Hm1).
  destruct (render_spec rand2 groups filter2 k2) as (i2 & ? & w2 & _ & Hi2 & Hr2 & Hm2).
  destruct (mount_spec groups i1) as (w1' & Hw1 & _ & Hc1 & _); [by rewrite Hi1|].
  destruct (mount_spec groups i2) as (w2' & Hw2 & _ & Hc2 & _); [by rewrite Hi2|].
  destruct (mount_forces groups i1) as (w1'' & Hw1' & Hx1 & Hy1); [by rewrite Hi1|].
  destruct (mount_forces groups i2) as (w2'' & Hw2' & Hx2 & Hy2); [by rewrite Hi2|].
  assert (w1' = w1) as -> by congruence. assert (w1'' = w1) as -> by congruence.
  assert (w2' = w2) as -> by congruence. assert (w2'' = w2) as -> by congruence.
  exists w1, w2. split; [exact Hr1|]. split; [exact Hr2|]. split; [exact Hc1|].
  split; [congruence|].
  eexists _, _. split; [exact Hx1|]. split; [rewrite Hx2, Hc2, <- Hc1; reflexivity|].
  split; [exact Hy1|]. split; [rewrite Hy2, Hc2, <- Hc1; reflexivity|].
  intros d. split; reflexivity.
Qed.

(** ** Pointer handlers and radius tweens *)

Lemma interpolate_0 a b : interpolate a b 0 = a.
Proof. unfold interpolate. ring. Qed.

Lemma interpolate_1 a b : interpolate a b 1 = b.
Proof. unfold interpolate. ring. Qed.

Lemma interpolate_between a b t :
  0 <= t <= 1 -> Rmin a b <= interpolate a b t <= Rmax a b.
Proof.
  intros Ht. unfold interpolate, Rmin, Rmax.
  destruct (Rle_dec a b); nra.
Qed.

Lemma truthy_Some v : v <> 0 -> truthy (Some v) = true.
Proof. intros H. unfold truthy. by destruct (Req_dec_T v 0). Qed.

Lemma truthy_true o : truthy o = true -> exists v, o = Some v /\ v <> 0.
Proof.
  destruct o as [v|]; simpl; [|done].
  destruct (Req_dec_T v 0); [done|]. eauto.
Qed.

Lemma listens_spec g w i :
  listens g w = Some i ->
  exists grp d, Svg.nodeGroup (World.svg w) !! g = Some grp
    /\ G.datum grp = i
    /\ World.data w !! i = Some d
    /\ Node.type d <> NodeType.title.
Proof.
  unfold listens. intros H.
  destruct (Svg.nodeGroup (World.svg w) !! g) as [grp|]; simpl in H; [|done].
  destruct (World.data w !! G.datum grp) as [d|] eqn:Hd; simpl in H; [|done].
  destruct (Node.type d) eqn:Ht; simpl in H; try done; injection H as <-;
    exists grp, d; rewrite Ht; done.
Qed.

(** The handlers read the document but only the store decides whether a
    group listens, and no event changes the document. *)
Lemma step_svg w ev : World.svg (step w ev) = World.svg w.
Proof.
  destruct ev as [g|g|k t]; simpl.
  - unfold mouseenter. destruct (listens g w); [|done].
    unfold handleNodeHover. by destruct (World.data w !! n).
  - unfold mouseleave. destruct (listens g w); [|done].
    unfold handleNodeLeave. by destruct (World.data w !! n).
  - unfold tweenFrame. destruct (World.tweens w !! k) as [tw|]; [|done].
    by destruct (World.data w !! tw_node tw).
Qed.

Lemma handleNodeHover_data element i w d :
  World.data w !! i = Some d ->
  World.data (handleNodeHover element i w)
  = <[i := if negb (truthy (Node.originalR d))
           then Node.set_originalR (Some (Node.r d)) d else d]> (World.data w)
  /\ World.tweens (handleNodeHover element i w)
     = World.tweens w
       ++ [ {| tw_element := element; tw_node := i; tw_from := Node.r d;
               tw_to := SIMULATION_CONFIG.nodeSize.hover |} ]
  /\ World.simulation (handleNodeHover element i w) = World.simulation w.
Proof.
  intros Hd. unfold handleNodeHover. rewrite Hd. simpl. split; [done|].
  split; [|done]. by destruct (negb _).
Qed.

Lemma handleNodeLeave_data element i w d :
  World.data w !! i = Some d ->
  World.data (handleNodeLeave element i w) = World.data w
  /\ World.tweens (handleNodeLeave element i w)
     = World.tweens w
       ++ [ {| tw_element := element; tw_node := i; tw_from := Node.r d;
               tw_to := leaveTargetSize d |} ]
  /\ World.simulation (handleNodeLeave element i w) = World.simulation w.
Proof. intros Hd. unfold handleNodeLeave. rewrite Hd. done. Qed.

(** What an event does to the node at an index: its type stays, and so
    does a recorded resting radius. *)
Lemma step_node w ev j d :
  World.data w !! j = Some d ->
  exists d', World.data (step w ev) !! j = Some d'
    /\ Node.type d' = Node.type d
    /\ Node.id d' = Node.id d
    /\ (truthy (Node.originalR d) = true -> Node.originalR d' = Node.originalR d).
Proof.
  intros Hd. destruct ev as [g|g|k t]; simpl.
  - unfold mouseenter. destruct (listens g w) as [i|]; [|by exists d].
    destruct (World.data w !! i) as [di|] eqn:Hi.
    + destruct (handleNodeHover_data g i w di Hi) as (-> & _).
      destruct (decide (i = j)) as [->|Hne].
      * rewrite list_lookup_insert_eq by (by eapply lookup_lt_Some).
        assert (di = d) as -> by congruence.
        eexists. split; [reflexivity|].
        destruct (truthy (Node.originalR d)); simpl; done.
      * rewrite list_lookup_insert_ne by done. by exists d.
    + unfold handleNodeHover. rewrite Hi. by exists d.
  - unfold mouseleave. destruct (listens g w) as [i|]; [|by exists d].
    unfold handleNodeLeave. destruct (World.data w !! i); by exists d.
  - unfold tweenFrame. destruct (World.tweens w !! k) as [tw|]; [|by exists d].
    destruct (World.data w !! tw_node tw) as [dn|] eqn:Hn; [|by exists d].
    simpl. destruct (decide (tw_node tw = j)) as [<-|Hne].
    + rewrite list_lookup_insert_eq by (by eapply lookup_lt_Some).
      assert (dn = d) as -> by congruence. eexists. by split.
    + rewrite list_lookup_insert_ne by done. by exists d.
Qed.

Lemma run_snoc evs ev w : run (evs ++ [ev]) w = step (run evs w) ev.
Proof. unfold run. by rewrite foldl_app. Qed.

Lemma run_svg evs w : World.svg (run evs w) = World.svg w.
Proof.
  induction evs as [|ev evs IH] using rev_ind; [done|].
  by rewrite run_snoc, step_svg.
Qed.

Lemma run_node evs w j d :
  World.data w !! j = Some d ->
  exists d', World.data (run evs w) !! j = Some d'
    /\ Node.type d' = Node.type d
    /\ Node.id d' = Node.id d
    /\ (truthy (Node.originalR d) = true -> Node.originalR d' = Node.originalR d).
Proof.
  intros Hd. induction evs as [|ev evs IH] using rev_ind.
  - by exists d.
  - destruct IH as (d1 & H1 & Ht1 & Hi1 & Ho1).
    destruct (step_node (run evs w) ev j d1 H1) as (d2 & H2 & Ht2 & Hi2 & Ho2).
    rewrite run_snoc. exists d2. split; [done|]. split; [congruence|].
    split; [congruence|]. intros Htr. rewrite Ho2, Ho1; try done.
    rewrite Ho1; done.
Qed.

Lemma step_length w ev : length (World.data (step w ev)) = length (World.data w).
Proof.
  destruct ev as [g|g|k t]; simpl.
  - unfold mouseenter. destruct (listens g w) as [i|]; [|done].
    unfold handleNodeHover. destruct (World.data w !! i); [|done].
    simpl. by rewrite length_insert.
  - unfold mouseleave. destruct (listens g w) as [i|]; [|done].
    unfold handleNodeLeave. by destruct (World.data w !! i).
  - unfold tweenFrame. destruct (World.tweens w !! k) as [tw|]; [|done].
    destruct (World.data w !! tw_node tw); [|done].
    simpl. by rewrite length_insert.
Qed.

Lemma listens_step g w ev : listens g (step w ev) = listens g w.
Proof.
  unfold listens. rewrite step_svg.
  destruct (Svg.nodeGroup (World.svg w) !! g) as [grp|]; simpl; [|done].
  destruct (World.data w !! G.datum grp) as [d|] eqn:Hd; simpl.
  - destruct (step_node w ev _ d Hd) as (d' & -> & Ht & _). simpl. by rewrite Ht.
  - apply lookup_ge_None in Hd. rewrite <- (step_length w ev) in Hd.
    apply lookup_ge_None in Hd. by rewrite Hd.
Qed.

Lemma restingRadius_nonzero d : Node.r d <> 0 -> restingRadius d <> 0.
Proof.
  intros Hr. unfold restingRadius.
  destruct (truthy (Node.originalR d)) eqn:Ht; [|done].
  apply truthy_true in Ht as (v & -> & Hv). done.
Qed.

Lemma leaveTargetSize_recorded d v :
  Node.originalR d = Some v -> v <> 0 -> leaveTargetSize d = v.
Proof.
  intros Ho Hv. unfold leaveTargetSize. rewrite Ho, truthy_Some by done. done.
Qed.

(** The node that the first statement of [handleNodeHover] leaves. *)
Lemma hover_records d :
  Node.r d <> 0 ->
  let d1 := if negb (truthy (Node.originalR d))
            then Node.set_originalR (Some (Node.r d)) d else d in
  Node.originalR d1 = Some (restingRadius d)
  /\ Node.r d1 = Node.r d
  /\ Node.type d1 = Node.type d.
Proof.
  intros Hr. unfold restingRadius. cbv zeta.
  destruct (truthy (Node.originalR d)) eqn:Ht; simpl; [|done].
  apply truthy_true in Ht as (v & -> & Hv). done.
Qed.

(** C2. Hover round trip.  On a node that listens to the pointer (any
    node but the title) and has a non-zero radius, entering and leaving
    at once, without a frame in between, leaves the radius as it was and
    records as [originalR] the resting radius: the radius before the
    hover when none was recorded yet, the recorded one otherwise.  The
    leave animation goes to that same value.  After the first hover no
    sequence of hovers, leaves and frames changes [originalR]. *)
Theorem C2_hover_round_trip (w : World.t) (g i : nat) (d : Node.t)
    (Hlistens : listens g w = Some i)
    (Hd : World.data w !! i = Some d)
    (Hr : Node.r d <> 0) :
  let w1 := mouseenter g w in
  let w2 := mouseleave g w1 in
  (Node.originalR d = None -> restingRadius d = Node.r d)
  /\ (exists d2, World.data w2 !! i = Some d2
        /\ Node.r d2 = Node.r d
        /\ Node.originalR d2 = Some (restingRadius d)
        /\ leaveTargetSize d2 = restingRadius d)
  /\ World.tweens w2
     = World.tweens w
       ++ [ {| tw_element := g; tw_node := i; tw_from := Node.r d;
               tw_to := SIMULATION_CONFIG.nodeSize.hover |};
            {| tw_element := g; tw_node := i; tw_from := Node.r d;
               tw_to := restingRadius d |} ]
  /\ (forall evs, exists d',
        World.data (run evs w1) !! i = Some d'
        /\ Node.originalR d' = Some (restingRadius d)
        /\ leaveTargetSize d' = restingRadius d).
Proof.
  intros w1 w2.
  pose proof (restingRadius_nonzero d Hr) as Hnz.
  destruct (hover_records d Hr) as (Ho1 & Hr1 & Ht1).
  set (d1 := if negb (truthy (Node.originalR d))
             then Node.set_originalR (Some (Node.r d)) d else d) in *.
  assert (Hw1 : w1 = handleNodeHover g i w).
  { unfold w1, mouseenter. by rewrite Hlistens. }
  destruct (handleNodeHover_data g i w d Hd) as (Hdata1 & Htw1 & _).
  fold d1 in Hdata1. rewrite <- Hw1 in Hdata1, Htw1.
  assert (Hd1 : World.data w1 !! i = Some d1).
  { rewrite Hdata1. apply list_lookup_insert_eq. by eapply lookup_lt_Some. }
  assert (Hl1 : listens g w1 = Some i).
  { change w1 with (step w (MouseEnter g)). by rewrite listens_step. }
  assert (Hw2 : w2 = handleNodeLeave g i w1).
  { unfold w2, mouseleave. by rewrite Hl1. }
  destruct (handleNodeLeave_data g i w1 d1 Hd1) as (Hdata2 & Htw2 & _).
  rewrite <- Hw2 in Hdata2, Htw2.
  pose proof (leaveTargetSize_recorded d1 _ Ho1 Hnz) as Hleave.
  split; [|split; [|split]].
  - intros Hnone. unfold restingRadius. by rewrite Hnone.
  - exists d1. rewrite Hdata2. done.
  - rewrite Htw2, Htw1, Hr1, Hleave, <- app_assoc. done.
  - intros evs. destruct (run_node evs w1 i d1 Hd1) as (d' & Hd' & _ & _ & Ho').
    exists d'. split; [done|].
    assert (Node.originalR d' = Some (restingRadius d)) as Ho.
    { rewrite Ho'; [done|]. rewrite Ho1. by apply truthy_Some. }
    split; [done|]. by apply leaveTargetSize_recorded.
Qed.

Lemma C2_hover_round_trip_witness :
  exists d2,
    World.data (mouseleave 0 (mouseenter 0 exampleWorld)) !! 0%nat = Some d2
    /\ Node.r d2 = 30
    /\ Node.originalR d2 = Some 30.
Proof.
  assert (Hr : Node.r exampleNode <> 0) by (simpl; lra).
  destruct (C2_hover_round_trip exampleWorld 0 0 exampleNode eq_refl eq_refl Hr)
    as (Hrest & (d2 & Hd2 & Hr2 & Ho2 & _) & _).
  exists d2. split; [exact Hd2|]. split; [exact Hr2|].
  rewrite Ho2, (Hrest eq_refl). reflexivity.
Defined.

(** ** Frames of a radius tween *)

Lemma restartSimulationIfNeeded_alpha s :
  let s' := restartSimulationIfNeeded s in
  SIMULATION_CONFIG.performance.restartAlpha <= Simulation.alpha s'
  /\ (Simulation.alpha s < SIMULATION_CONFIG.performance.restartAlpha ->
      Simulation.alpha s' = SIMULATION_CONFIG.performance.restartAlpha
      /\ Simulation.timer s' = true)
  /\ (SIMULATION_CONFIG.performance.restartAlpha <= Simulation.alpha s -> s' = s)
  /\ Simulation.collide s' = Simulation.collide s.
Proof.
  unfold restartSimulationIfNeeded.
  destruct (Rlt_dec (Simulation.alpha s) SIMULATION_CONFIG.performance.restartAlpha);
    simpl; repeat split; try done; try lra.
Qed.

(** C3. A frame of a hover or leave tween at the eased time [t] writes
    the interpolated radius onto the node and leaves the other nodes
    alone; installs a collision force whose accessor gives [r + padding]
    and whose radii are those of the nodes after the write; and leaves
    alpha at least at the restart threshold 0.1: a lower alpha is set to
    0.1 and the timer restarted, another one is left as it is. *)
Theorem C3_tween_frame (w : World.t) (k : nat) (t : R) (tw : RadiusTween)
    (d : Node.t)
    (Htween : World.tweens w !! k = Some tw)
    (Hnode : World.data w !! tw_node tw = Some d) :
  let w' := tweenFrame k t w in
  (exists d', World.data w' !! tw_node tw = Some d'
      /\ Node.r d' = interpolate (tw_from tw) (tw_to tw) t
      /\ d' = Node.set_r (interpolate (tw_from tw) (tw_to tw) t) d)
  /\ (forall j, j <> tw_node tw -> World.data w' !! j = World.data w !! j)
  /\ (exists f, collideOf w' = Some f
      /\ (forall n, Collide.radius f n
                    = Node.r n + SIMULATION_CONFIG.nodeSize.holePadding)
      /\ Collide.radii f
         = map (fun n => Node.r n + SIMULATION_CONFIG.nodeSize.holePadding)
               (World.data w')
      /\ Collide.strength f = SIMULATION_CONFIG.forces.collide
      /\ Collide.iterations f = SIMULATION_CONFIG.performance.collisionIterations)
  /\ SIMULATION_CONFIG.performance.restartAlpha = 1 / 10
  /\ SIMULATION_CONFIG.performance.restartAlpha
     <= Simulation.alpha (World.simulation w')
  /\ (Simulation.alpha (World.simulation w)
      < SIMULATION_CONFIG.performance.restartAlpha ->
      Simulation.alpha (World.simulation w')
      = SIMULATION_CONFIG.performance.restartAlpha
      /\ Simulation.timer (World.simulation w') = true)
  /\ (SIMULATION_CONFIG.performance.restartAlpha
      <= Simulation.alpha (World.simulation w) ->
      Simulation.alpha (World.simulation w') = Simulation.alpha (World.simulation w)
      /\ Simulation.timer (World.simulation w') = Simulation.timer (World.simulation w)).
Proof.
  intros w'. unfold w', tweenFrame. rewrite Htween, Hnode. simpl.
  set (data' := <[tw_node tw := Node.set_r (interpolate (tw_from tw) (tw_to tw) t) d]>
                  (World.data w)).
  destruct (restartSimulationIfNeeded_alpha (updateCollisionForce data' (World.simulation w)))
    as (Hge & Hlt & Hsame & Hcol).
  cbv zeta in *.
  split; [|split; [|split; [|split; [|split; [|split]]]]].
  - eexists. split; [|split; [|reflexivity]]; [|reflexivity].
    apply list_lookup_insert_eq. by eapply lookup_lt_Some.
  - intros j Hj. unfold data'. by rewrite list_lookup_insert_ne.
  - unfold collideOf. simpl. rewrite Hcol. eexists. split; [reflexivity|]. done.
  - unfold SIMULATION_CONFIG.performance.restartAlpha. lra.
  - exact Hge.
  - exact Hlt.
  - intros Hok. rewrite (Hsame Hok). done.
Qed.

Lemma C3_tween_frame_witness :
  let w := mouseenter 0 exampleWorld in
  let w' := tweenFrame 0 (1 / 2) w in
  (exists d', World.data w' !! 0%nat = Some d' /\ Node.r d' = 50)
  /\ Simulation.alpha (World.simulation w') = 1 / 10
  /\ Simulation.timer (World.simulation w') = true.
Proof.
  intros w w'.
  pose (tw := {| tw_element := 0%nat; tw_node := 0%nat; tw_from := 30;
                 tw_to := SIMULATION_CONFIG.nodeSize.hover |}).
  destruct (C3_tween_frame w 0 (1 / 2) tw
              (Node.set_originalR (Some 30) exampleNode) eq_refl eq_refl)
    as ((d' & Hd' & Hr' & _) & _ & _ & _ & _ & Hlow & _).
  split.
  - exists d'. split; [exact Hd'|]. rewrite Hr'.
    unfold interpolate, tw, SIMULATION_CONFIG.nodeSize.hover. simpl. lra.
  - apply Hlow. simpl. unfold SIMULATION_CONFIG.performance.restartAlpha. lra.
Defined.

(** ** A leave without a hover *)

Lemma leaveTargetSize_unrecorded d :
  Node.originalR d = None ->
  leaveTargetSize d
  = match Node.type d with
    | NodeType.album => SIMULATION_CONFIG.nodeSize.album
    | _ => SIMULATION_CONFIG.nodeSize.artist
    end.
Proof. intros Ho. unfold leaveTargetSize. rewrite Ho. simpl. by destruct (Node.type d). Qed.

(** A leave followed by the last frame of the tween it installs. *)
Lemma leave_final_frame w g i d :
  listens g w = Some i ->
  World.data w !! i = Some d ->
  exists d', World.data (tweenFrame (length (World.tweens w)) 1 (mouseleave g w)) !! i
             = Some d'
    /\ Node.r d' = leaveTargetSize d
    /\ Node.originalR d' = Node.originalR d.
Proof.
  intros Hl Hd. unfold mouseleave. rewrite Hl.
  destruct (handleNodeLeave_data g i w d Hd) as (Hdata & Htw & _).
  unfold tweenFrame. rewrite Htw.
  rewrite lookup_app_r by lia. rewrite Nat.sub_diag. simpl.
  rewrite Hdata, Hd. simpl.
  eexists. split; [apply list_lookup_insert_eq; by eapply lookup_lt_Some|].
  simpl. by rewrite interpolate_1.
Qed.

(** The render used below: one group with one album, the filter
    [album], every draw of [Math.random()] equal to 0. *)
Lemma render_one_album :
  let album := Album.mk 1 "t" "s" "a" in
  let group := Group.mk "A" "n" [album] in
  exists w d,
    render (fun _ => 0) [group] FilterType.album 0%nat = Some w
    /\ World.tweens w = []
    /\ listens 1 w = Some 1%nat
    /\ World.data w !! 1%nat = Some d
    /\ d = initializeNode 1 (albumNodeWith album group 0)
    /\ Node.type d = NodeType.album
    /\ Node.originalR d = None
    /\ Node.r d = 30.
Proof.
  intros album group.
  destruct (render_spec (fun _ => 0) [group] FilterType.album 0%nat)
    as (items & k' & w & _ & Hitems & Hr & Hm).
  simpl in Hitems.
  destruct (mount_spec [group] items) as (w' & Hw' & Hdata & _ & Hsvg & Htw & _).
  { by rewrite Hitems. }
  assert (w' = w) as -> by congruence.
  exists w, (initializeNode 1 (albumNodeWith album group 0)).
  split; [exact Hr|]. split; [exact Htw|].
  assert (Hd : World.data w !! 1%nat
               = Some (initializeNode 1 (albumNodeWith album group 0))).
  { rewrite Hdata, Hitems. reflexivity. }
  split.
  { unfold listens. rewrite Hsvg, Hitems. simpl. rewrite Hd. reflexivity. }
  split; [exact Hd|]. split; [reflexivity|]. split; [reflexivity|].
  split; [reflexivity|].
  rewrite initializeNode_r. simpl.
  destruct (album_radius_bounds 0) as [-> _]; lra.
Qed.

(** C10. A leave on a node that was never hovered.  With no recorded
    resting radius the leave animation goes to the constant of the kind,
    50 for an album and 60 for an artist, whatever radius the node was
    built with, and the radius is that constant at the end of the
    animation.  There is a freshly built album node (random delta -20,
    radius 30) whose radius after such a leave, 50, is not the radius it
    was built with. *)
Theorem C10_leave_without_hover (w : World.t) (g i : nat) (d : Node.t)
    (Hlistens : listens g w = Some i)
    (Hd : World.data w !! i = Some d)
    (Hnever : Node.originalR d = None) :
  SIMULATION_CONFIG.nodeSize.album = 50
  /\ SIMULATION_CONFIG.nodeSize.artist = 60
  /\ leaveTargetSize d
     = match Node.type d with
       | NodeType.album => SIMULATION_CONFIG.nodeSize.album
       | _ => SIMULATION_CONFIG.nodeSize.artist
       end
  /\ Node.type d <> NodeType.title
  /\ (exists d', World.data (tweenFrame (length (World.tweens w)) 1 (mouseleave g w)) !! i
                 = Some d'
        /\ Node.r d' = leaveTargetSize d)
  /\ (exists w0 album group d0 d',
        render (fun _ => 0) [group] FilterType.album 0%nat = Some w0
        /\ World.data w0 !! 1%nat = Some d0
        /\ d0 = initializeNode 1 (albumNodeWith album group 0)
        /\ Node.r d0 = 30
        /\ World.data (run [MouseLeave 1; TweenFrame 0 1] w0) !! 1%nat = Some d'
        /\ Node.r d' = 50
        /\ Node.r d' <> Node.r d0).
Proof.
  split; [reflexivity|]. split; [reflexivity|].
  split; [by apply leaveTargetSize_unrecorded|].
  split.
  { destruct (listens_spec g w i Hlistens) as (grp & d1 & _ & _ & Hd1 & Ht).
    congruence. }
  split.
  { destruct (leave_final_frame w g i d Hlistens Hd) as (d' & Hd' & Hr' & _). eauto. }
  destruct render_one_album as (w0 & d0 & Hr0 & Htw0 & Hl0 & Hd0 & Heq0 & Hty0 & Ho0 & Hrad0).
  destruct (leave_final_frame w0 1 1 d0 Hl0 Hd0) as (d' & Hd' & Hr' & _).
  rewrite Htw0 in Hd'. simpl in Hd'.
  rewrite (leaveTargetSize_unrecorded d0 Ho0), Hty0 in Hr'.
  exists w0, (Album.mk 1 "t" "s" "a"), (Group.mk "A" "n" [Album.mk 1 "t" "s" "a"]), d0, d'.
  split; [exact Hr0|]. split; [exact Hd0|]. split; [exact Heq0|]. split; [exact Hrad0|].
  split; [exact Hd'|].
  unfold SIMULATION_CONFIG.nodeSize.album in Hr'. split; [exact Hr'|].
  rewrite Hr', Hrad0. lra.
Qed.

Lemma C10_leave_without_hover_witness :
  exists d', World.data (tweenFrame 0 1 (mouseleave 0 exampleWorld)) !! 0%nat = Some d'
    /\ Node.r d' = 50.
Proof.
  destruct (C10_leave_without_hover exampleWorld 0 0 exampleNode eq_refl eq_refl eq_refl)
    as (_ & _ & Ht & _ & (d' & Hd' & Hr') & _).
  exists d'. split; [exact Hd'|]. rewrite Hr', Ht. reflexivity.
Defined.

(** ** Render sync *)

Lemma circleRadius_class class r1 r2 r :
  circleRadius (Element.circle class r1) r = circleRadius (Element.circle class r2) r.
Proof. reflexivity. Qed.

Lemma updateChild_idem d e : updateChild d (updateChild d e) = updateChild d e.
Proof. destruct e; reflexivity. Qed.

Lemma updateGroup_idem data g :
  updateGroup data (updateGroup data g) = updateGroup data g.
Proof.
  unfold updateGroup. destruct (data !! G.datum g) as [d|] eqn:Hd; simpl.
  - rewrite Hd. f_equal. rewrite map_map. apply map_ext. apply updateChild_idem.
  - by rewrite Hd.
Qed.

Lemma updateClipPath_idem data c :
  updateClipPath data (updateClipPath data c) = updateClipPath data c.
Proof. reflexivity. Qed.

Lemma updateVisualsOnTick_idem svg data :
  updateVisualsOnTick (updateVisualsOnTick svg data) data
  = updateVisualsOnTick svg data.
Proof.
  unfold updateVisualsOnTick. simpl. rewrite !map_map.
  f_equal; apply map_ext; intros a;
    first [apply updateClipPath_idem | apply updateGroup_idem].
Qed.

Lemma replace_clip_prefix s : replace "clip-" "" ("clip-" +:+ s) = s.
Proof. destruct s; reflexivity. Qed.

Lemma find_by_id (data : list Node.t) j d :
  NoDup (map Node.id data) ->
  data !! j = Some d ->
  find (fun n => bool_decide (Node.id n = Node.id d)) data = Some d.
Proof.
  revert j. induction data as [|n data IH]; intros j Hnd Hj; [done|].
  simpl in Hnd. apply NoDup_cons in Hnd as [Hnot Hnd]. simpl.
  destruct j as [|j]; simpl in Hj.
  - injection Hj as ->. by rewrite bool_decide_eq_true_2.
  - rewrite bool_decide_eq_false_2; [by eapply IH|].
    intros Heq. apply Hnot. rewrite Heq.
    apply list_elem_of_fmap. exists d. split; [done|].
    apply list_elem_of_lookup. eauto.
Qed.

Lemma updateChild_projected d e : projected d e (updateChild d e).
Proof. destruct e; reflexivity. Qed.

Lemma fmap_alter_absorb {A B} (f : A -> B) (g : A -> A) (l : list A) i :
  Forall (fun x => f (g x) = f x) l -> f <$> alter g i l = f <$> l.
Proof.
  intros H. rewrite (list_fmap_alter f g (fun b => b)) by exact H.
  by apply list_alter_id.
Qed.

Lemma updateChild_setChildAttr d a v e :
  overwritten (ChildAttr 0 0 a) = true ->
  updateChild d (setChildAttr a v e) = updateChild d e.
Proof. destruct a, e; simpl; intros H; try discriminate; reflexivity. Qed.

(** Render sync does not read the attributes it writes: whatever a
    transition wrote there before is replaced. *)
Lemma updateVisualsOnTick_overwrites svg data ref v :
  Forall (fun g => is_Some (data !! G.datum g)) (Svg.nodeGroup svg) ->
  overwritten ref = true ->
  updateVisualsOnTick (setAttr ref v svg) data = updateVisualsOnTick svg data.
Proof.
  intros Hall Hov. unfold updateVisualsOnTick.
  destruct ref as [g|g c a|k]; simpl in Hov; [discriminate| |]; simpl; f_equal.
  - change (map (updateGroup data) ?l) with (updateGroup data <$> l).
    apply fmap_alter_absorb. eapply Forall_impl; [exact Hall|].
    intros grp [d Hd]. unfold updateGroup. simpl. rewrite Hd. f_equal.
    change (map (updateChild d) ?l) with (updateChild d <$> l).
    apply fmap_alter_absorb. apply Forall_forall. intros e _.
    apply updateChild_setChildAttr. by destruct a.
  - change (map (updateClipPath data) ?l) with (updateClipPath data <$> l).
    apply fmap_alter_absorb. apply Forall_forall. intros c _. reflexivity.
Qed.

(** X24. Render sync is a projection of the node states.  Running it a
    second time on the same nodes changes nothing.  After a run, the
    group of a node is placed at the node's position, an outer (or
    unclassed) circle has the node's radius, the hole of an album has
    the constant [holePadding], the image box is the square of half-side
    [r - clipPadding] around the centre; and, when the node ids are
    distinct, the clip circle of a node has radius [r - clipPadding].
    It keeps no state: when every group has its node, what it writes
    does not depend on the values those attributes had before. *)
Theorem render_sync_projection (svg : Svg.t) (data : list Node.t) :
  updateVisualsOnTick (updateVisualsOnTick svg data) data
  = updateVisualsOnTick svg data
  /\ (forall gi g d,
        Svg.nodeGroup svg !! gi = Some g ->
        data !! G.datum g = Some d ->
        exists g', Svg.nodeGroup (updateVisualsOnTick svg data) !! gi = Some g'
          /\ G.datum g' = G.datum g
          /\ G.transform g' = Some (Node.x d, Node.y d)
          /\ G.children g' = map (updateChild d) (G.children g)
          /\ forall c e, G.children g !! c = Some e ->
               exists e', G.children g' !! c = Some e' /\ projected d e e')
  /\ (NoDup (map Node.id data) ->
      forall k c j d,
        Svg.defs svg !! k = Some c ->
        data !! j = Some d ->
        ClipPath.id c = "clip-" +:+ Node.id d ->
        Svg.defs (updateVisualsOnTick svg data) !! k
        = Some (ClipPath.mk (ClipPath.id c)
                  (Node.r d - SIMULATION_CONFIG.nodeSize.clipPadding)))
  /\ (Forall (fun g => is_Some (data !! G.datum g)) (Svg.nodeGroup svg) ->
      forall ref v, overwritten ref = true ->
        updateVisualsOnTick (setAttr ref v svg) data = updateVisualsOnTick svg data)
  /\ SIMULATION_CONFIG.nodeSize.holePadding = 2
  /\ SIMULATION_CONFIG.nodeSize.clipPadding = 2.
Proof.
  split; [apply updateVisualsOnTick_idem|].
  split; [|split; [|split; [|by split]]];
    [| | intros Hall ref v Hov; by apply updateVisualsOnTick_overwrites].
  - intros gi g d Hg Hd. exists (updateGroup data g). split.
    { unfold updateVisualsOnTick. simpl.
      change (map (updateGroup data) (Svg.nodeGroup svg))
        with (updateGroup data <$> Svg.nodeGroup svg).
      by rewrite list_lookup_fmap, Hg. }
    unfold updateGroup. rewrite Hd. simpl. repeat split.
    intros c e He. exists (updateChild d e). split; [|apply updateChild_projected].
    change (map (updateChild d) (G.children g)) with (updateChild d <$> G.children g).
    by rewrite list_lookup_fmap, He.
  - intros Hnd k c j d Hc Hd Hid. unfold updateVisualsOnTick. simpl.
    change (map (updateClipPath data) (Svg.defs svg))
      with (updateClipPath data <$> Svg.defs svg).
    rewrite list_lookup_fmap, Hc. simpl. f_equal.
    unfold updateClipPath. rewrite Hid, replace_clip_prefix.
    by rewrite (find_by_id data j d Hnd Hd).
Qed.

Lemma render_sync_projection_witness :
  let other :=
    Node.mk "album-2" "cover.jpg" "cover" NodeType.album (Some "Group") (Some "A")
      (Some "2") 50 None "A" (Some 0) (Some 0) (Some 0) (Some 0) None None in
  let data := [exampleNode; other] in
  let svg := Svg.mk (createClipPaths data) (imap createNodeGroup data) in
  Svg.defs (updateVisualsOnTick svg data) !! 1%nat
  = Some (ClipPath.mk "clip-album-2" (50 - SIMULATION_CONFIG.nodeSize.clipPadding))
  /\ updateVisualsOnTick (setAttr (ChildAttr 1 0 a_r) 12 svg) data
     = updateVisualsOnTick svg data.
Proof.
  intros other data svg.
  assert (Hnd : NoDup (map Node.id data)).
  { apply (bool_decide_unpack _). vm_compute. exact I. }
  assert (Hall : Forall (fun g => is_Some (data !! G.datum g)) (Svg.nodeGroup svg)).
  { constructor; [by eexists|]. constructor; [by eexists|constructor]. }
  destruct (render_sync_projection svg data) as (_ & _ & Hclip & Hover & _).
  split.
  - exact (Hclip Hnd 1%nat (ClipPath.mk "clip-album-2" 0) 1%nat other
             eq_refl eq_refl eq_refl).
  - exact (Hover Hall (ChildAttr 1 0 a_r) 12 eq_refl).
Defined.

(** C8. Render sync on nodes that share an id.  The catalog has two
    groups, [A] and [B], each with an album of id 1; the filter is
    [album] and [Math.random()] gives 0 and then 1/2.  Both album nodes
    get the id [album-1]; the first has radius 30, the second radius 50.
    After a tick both clip paths [clip-album-1] have the radius 28 of
    the first node less the padding: the clip region of the second node
    is not sized to its own radius less the padding, which is 48.  A
    second tick changes nothing. *)
Theorem C8_shared_id_clip :
  let groups := [Group.mk "A" "a" [Album.mk 1 "t" "s" "a"];
                 Group.mk "B" "b" [Album.mk 1 "u" "v" "b"]] in
  let rand := fun k : nat => if (k =? 1)%nat then 1 / 2 else 0 in
  exists w d1 d2,
    render rand groups FilterType.album 0%nat = Some w
    /\ World.data w !! 1%nat = Some d1
    /\ World.data w !! 2%nat = Some d2
    /\ Node.id d1 = "album-1" /\ Node.id d2 = "album-1"
    /\ Node.groupId d1 = Some "A" /\ Node.groupId d2 = Some "B"
    /\ Node.r d1 = 30 /\ Node.r d2 = 50
    /\ Svg.defs (World.svg (onTick w)) !! 1%nat = Some (ClipPath.mk "clip-album-1" 28)
    /\ Svg.defs (World.svg (onTick w)) !! 2%nat = Some (ClipPath.mk "clip-album-1" 28)
    /\ Node.r d2 - SIMULATION_CONFIG.nodeSize.clipPadding = 48
    /\ onTick (onTick w) = onTick w.
Proof.
  intros groups rand.
  destruct (render_spec rand groups FilterType.album 0%nat)
    as (items & k' & w & _ & Hitems & Hr & Hm).
  simpl in Hitems.
  destruct (mount_spec groups items) as (w' & Hw' & Hdata & _ & Hsvg & _).
  { by rewrite Hitems. }
  assert (w' = w) as -> by congruence.
  set (a1 := Album.mk 1 "t" "s" "a") in *.
  set (a2 := Album.mk 1 "u" "v" "b") in *.
  set (gA := Group.mk "A" "a" [a1]) in *.
  set (gB := Group.mk "B" "b" [a2]) in *.
  exists w, (initializeNode 1 (albumNodeWith a1 gA (rand 0%nat))),
         (initializeNode 2 (albumNodeWith a2 gB (rand 1%nat))).
  assert (H1 : Node.r (initializeNode 1 (albumNodeWith a1 gA (rand 0%nat))) = 30).
  { rewrite initializeNode_r. unfold rand. simpl.
    destruct (album_radius_bounds 0) as [-> _]; lra. }
  assert (H2 : Node.r (initializeNode 2 (albumNodeWith a2 gB (rand 1%nat))) = 50).
  { rewrite initializeNode_r. unfold rand. simpl.
    destruct (album_radius_bounds (1 / 2)) as [-> _]; lra. }
  split; [exact Hr|].
  split; [by rewrite Hdata, Hitems|]. split; [by rewrite Hdata, Hitems|].
  split; [reflexivity|]. split; [reflexivity|].
  split; [reflexivity|]. split; [reflexivity|].
  split; [exact H1|]. split; [exact H2|].
  assert (Hclip : forall k, (k = 1 \/ k = 2)%nat ->
            Svg.defs (World.svg (onTick w)) !! k
            = Some (ClipPath.mk "clip-album-1" 28)).
  { intros k Hk. unfold onTick, updateVisualsOnTick. simpl. rewrite Hsvg, Hdata, Hitems.
    simpl.
    assert (Hu : updateClipPath
              [initializeNode 0 createTitleNode;
               initializeNode 1 (albumNodeWith a1 gA (rand 0%nat));
               initializeNode 2 (albumNodeWith a2 gB (rand 1%nat))]
              (ClipPath.mk "clip-album-1" 0)
            = ClipPath.mk "clip-album-1" 28).
    { unfold updateClipPath. simpl. f_equal.
      change (Node.r (initializeNode 1 (albumNodeWith a1 gA (rand 0%nat))) - 2 = 28).
      rewrite H1. lra. }
    destruct Hk as [-> | ->]; simpl; f_equal; exact Hu. }
  split; [apply Hclip; by left|]. split; [apply Hclip; by right|].
  split.
  { rewrite H2. unfold SIMULATION_CONFIG.nodeSize.clipPadding. lra. }
  unfold onTick. simpl. f_equal. apply updateVisualsOnTick_idem.
Qed.

(** ** Entrance choreography *)

Lemma animateNodeEntrance_pending node d i w :
  exists added,
    World.pending (animateNodeEntrance node d i w) = World.pending w ++ added
    /\ Forall (fun s => entranceAttr (s_ref s) = true) added.
Proof.
  unfold animateNodeEntrance.
  destruct (World.data w !! d) as [dn|]; [|exists []; by rewrite app_nil_r].
  destruct (Svg.nodeGroup (World.svg w) !! node) as [g|];
    [|exists []; by rewrite app_nil_r].
  eexists. split; [reflexivity|].
  repeat (apply Forall_app; split).
  - by constructor.
  - apply Forall_forall. intros s Hs.
    apply list_elem_of_fmap in Hs as (c & -> & _). reflexivity.
  - apply Forall_forall. intros s Hs. apply list_elem_of_In in Hs.
    apply in_flat_map in Hs as (c & _ & Hs). simpl in Hs.
    destruct Hs as [<-|[<-|[<-|[<-|[]]]]]; reflexivity.
  - destruct (list_find _ _) as [[k c]|]; by repeat constructor.
  - destruct (NodeType.eqb (Node.type dn) NodeType.title); [|by constructor].
    apply Forall_app; split.
    + destruct (select _ _); by repeat constructor.
    + destruct (select _ _); by repeat constructor.
Qed.

Lemma transitionStep_frame w ev :
  let w' := transitionStep w ev in
  World.data w' = World.data w
  /\ World.simulation w' = World.simulation w
  /\ World.clusters w' = World.clusters w
  /\ World.tweens w' = World.tweens w.
Proof.
  destruct ev as [k|k t]; simpl.
  - unfold startTransition. destruct (World.pending w !! k) as [s|]; [|done].
    by destruct (evalTarget s w).
  - unfold transitionFrame. by destruct (World.running w !! k).
Qed.

Lemma transitionSteps_frame evs w :
  let w' := foldl transitionStep w evs in
  World.data w' = World.data w
  /\ World.simulation w' = World.simulation w
  /\ World.clusters w' = World.clusters w
  /\ World.tweens w' = World.tweens w.
Proof.
  revert w. induction evs as [|ev evs IH]; intros w; simpl; [done|].
  destruct (IH (transitionStep w ev)) as (H1 & H2 & H3 & H4).
  destruct (transitionStep_frame w ev) as (G1 & G2 & G3 & G4).
  simpl in *. repeat split; congruence.
Qed.

Lemma imap_initializeNode_r (items : list Node.t) :
  map Node.r (imap initializeNode items) = map Node.r items.
Proof.
  change (Node.r <$> imap initializeNode items = Node.r <$> items).
  apply list_eq. intros j.
  rewrite !list_lookup_fmap, list_lookup_imap.
  destruct (items !! j) as [d|]; simpl; [|done]. by rewrite initializeNode_r.
Qed.

Lemma createNodeGroup_circles j d c class r :
  G.children (createNodeGroup j d) !! c = Some (Element.circle class r) -> r = 0.
Proof.
  unfold createNodeGroup. simpl.
  destruct (Node.type d); destruct c as [|[|[|c]]]; simpl; intros H;
    try discriminate; by injection H as _ <-.
Qed.

(** C9. The entrance choreography is cosmetic.  Scheduling the entrance
    of a node adds transitions on opacity, circle radii, image box, clip
    radius and font sizes only, and neither this nor any start or frame
    of a transition changes a node (radius, position, velocity and the
    rest), the simulation or its forces.  In a mounted section the
    circles are drawn with radius 0 while the collision force already
    has, for each node, the radius it was built with plus the padding;
    it keeps them through the whole entrance. *)
Theorem C9_entrance_cosmetic (w : World.t) (node d i : nat)
    (evs : list TransitionEvent) (rand : nat -> R) (groups : list Group.t)
    (filter : FilterType.t) (k : nat) :
  (let w1 := animateNodeEntrance node d i w in
   let w2 := foldl transitionStep w1 evs in
   World.data w2 = World.data w
   /\ World.simulation w2 = World.simulation w
   /\ World.svg w1 = World.svg w
   /\ exists added,
        World.pending w1 = World.pending w ++ added
        /\ Forall (fun s => entranceAttr (s_ref s) = true) added)
  /\ (exists items k' w0 f,
        data rand groups filter k = Some (items, k')
        /\ render rand groups filter k = Some w0
        /\ map Node.r (World.data w0) = map Node.r items
        /\ (forall g grp c class r,
              Svg.nodeGroup (World.svg w0) !! g = Some grp ->
              G.children grp !! c = Some (Element.circle class r) -> r = 0)
        /\ let w' := foldl transitionStep w0 evs in
           World.data w' = World.data w0
           /\ collideOf w' = Some f
           /\ Collide.radii f
              = map (fun r => r + SIMULATION_CONFIG.nodeSize.holePadding)
                    (map Node.r items)).
Proof.
  split.
  - cbv zeta.
    destruct (transitionSteps_frame evs (animateNodeEntrance node d i w))
      as (H1 & H2 & _).
    destruct (animateNodeEntrance_frame node d i w) as (G1 & G2 & _ & G4 & _).
    cbv zeta in *. split; [congruence|]. split; [congruence|]. split; [done|].
    apply animateNodeEntrance_pending.
  - destruct (render_spec rand groups filter k) as (items & k' & w0 & Hdata & Hitems & Hr & Hm).
    destruct (mount_spec groups items)
      as (w0' & Hw0 & Hd0 & _ & Hsvg & _ & _ & _ & _ & Hc); [by rewrite Hitems|].
    assert (w0' = w0) as -> by congruence.
    eexists items, k', w0, _. split; [exact Hdata|]. split; [exact Hr|].
    split; [by rewrite Hd0, imap_initializeNode_r|].
    split.
    { intros g grp c class r Hg Hc'. rewrite Hsvg in Hg. simpl in Hg.
      rewrite list_lookup_imap in Hg.
      destruct (imap initializeNode items !! g) as [dn|]; simpl in Hg; [|done].
      injection Hg as <-. by eapply createNodeGroup_circles. }
    destruct (transitionSteps_frame evs w0) as (H1 & H2 & _).
    cbv zeta in *. split; [exact H1|]. unfold collideOf in *. rewrite H2.
    split; [exact Hc|]. simpl.
    rewrite <- (imap_initializeNode_r items), map_map. reflexivity.
Qed.

(** ** Radii stay positive

    The handlers test [originalR] for truthiness, so a radius of 0 would
    count as "not recorded".  It does not occur: a section rendered with
    draws in [0, 1) has positive radii, and pointer events and eased
    frames keep them positive. *)

Lemma albumNodes_positive rand group albums k :
  (forall j, 0 <= rand j < 1) ->
  Forall positiveNode (albumNodes rand group albums k).
Proof.
  intros Hrand. revert k. induction albums as [|a l IH]; intros k; simpl.
  - constructor.
  - constructor; [|apply IH]. split; [|done]. simpl.
    destruct (album_radius_bounds (rand k) (Hrand k)) as [_ Hb]. cbv zeta in Hb. lra.
Qed.

Lemma groupNodes_positive rand filter group k :
  (forall j, 0 <= rand j < 1) ->
  Forall positiveNode (fst (groupNodes rand filter group k)).
Proof.
  intros Hrand. unfold groupNodes.
  set (al := if allowsAlbums filter
             then albumNodes rand group (Group.albums group) k else []).
  assert (Hal : Forall positiveNode al).
  { unfold al. destruct (allowsAlbums filter); [by apply albumNodes_positive|constructor]. }
  destruct (allowsArtists filter), (Group.albums group) as [|a0 l]; simpl; try done.
  apply Forall_app. split; [done|]. constructor; [|constructor].
  split; [|done]. simpl.
  destruct (artist_radius_bounds (rand (k + length al)%nat) (Hrand _)) as [_ Hb].
  cbv zeta in Hb. lra.
Qed.

Lemma nodesFrom_positive rand filter groups k :
  (forall j, 0 <= rand j < 1) ->
  Forall positiveNode (fst (nodesFrom rand filter groups k)).
Proof.
  intros Hrand. revert k. induction groups as [|g gs IH]; intros k; simpl.
  - constructor.
  - pose proof (groupNodes_positive rand filter g k Hrand) as Hg.
    destruct (groupNodes rand filter g k) as [here k1]. specialize (IH k1).
    destruct (nodesFrom rand filter gs k1) as [rest k2]. simpl in *.
    apply Forall_app. by split.
Qed.

Lemma render_positive rand groups filter k w :
  (forall j, 0 <= rand j < 1) ->
  render rand groups filter k = Some w -> positive w.
Proof.
  intros Hrand Hr.
  destruct (render_spec rand groups filter k) as (items & k' & w0 & _ & Hitems & Hr0 & Hm).
  destruct (mount_spec groups items) as (w0' & Hw0 & Hd0 & _ & _ & Htw & _);
    [by rewrite Hitems|].
  assert (w0' = w) as -> by congruence.
  split; [|rewrite Htw; constructor].
  rewrite Hd0. apply Forall_lookup. intros j dj Hj.
  rewrite list_lookup_imap in Hj.
  destruct (items !! j) as [d|] eqn:Hd; simpl in Hj; [|done]. injection Hj as <-.
  assert (Hpos : positiveNode d).
  { rewrite Hitems in Hd. destruct j as [|j]; simpl in Hd.
    - injection Hd as <-. split; [|done]. simpl.
      unfold SIMULATION_CONFIG.nodeSize.title. lra.
    - pose proof (nodesFrom_positive rand filter groups k Hrand) as Hall.
      by eapply Forall_lookup_1 in Hall. }
  destruct Hpos as [Hp1 Hp2]. split.
  - by rewrite initializeNode_r.
  - intros v. rewrite initializeNode_originalR. apply Hp2.
Qed.

Lemma leaveTargetSize_positive d : positiveNode d -> 0 < leaveTargetSize d.
Proof.
  intros [_ Ho]. unfold leaveTargetSize.
  destruct (truthy (Node.originalR d)) eqn:Ht.
  - apply truthy_true in Ht as (v & Hv & _). rewrite Hv. simpl. by apply Ho.
  - unfold SIMULATION_CONFIG.nodeSize.album, SIMULATION_CONFIG.nodeSize.artist.
    destruct (NodeType.eqb _ _); lra.
Qed.

Lemma step_positive w ev : eased ev -> positive w -> positive (step w ev).
Proof.
  intros Hev [Hdata Htw]. destruct ev as [g|g|k t]; simpl.
  - unfold mouseenter. destruct (listens g w) as [i|]; [|done].
    destruct (World.data w !! i) as [d|] eqn:Hd.
    + destruct (handleNodeHover_data g i w d Hd) as (Hd' & Ht' & _).
      pose proof (Forall_lookup_1 _ _ _ _ Hdata Hd) as [Hp1 Hp2].
      split.
      * rewrite Hd'. apply Forall_insert; [done|].
        destruct (negb (truthy (Node.originalR d))); [|done].
        split; [done|]. simpl. intros v [= <-]. done.
      * rewrite Ht'. apply Forall_app. split; [done|].
        constructor; [|constructor]. split; simpl; [done|].
        unfold SIMULATION_CONFIG.nodeSize.hover. lra.
    + unfold handleNodeHover. rewrite Hd. done.
  - unfold mouseleave. destruct (listens g w) as [i|]; [|done].
    destruct (World.data w !! i) as [d|] eqn:Hd.
    + destruct (handleNodeLeave_data g i w d Hd) as (Hd' & Ht' & _).
      pose proof (Forall_lookup_1 _ _ _ _ Hdata Hd) as Hp.
      split; [by rewrite Hd'|].
      rewrite Ht'. apply Forall_app. split; [done|].
      constructor; [|constructor]. split; simpl; [apply (proj1 Hp)|].
      by apply leaveTargetSize_positive.
    + unfold handleNodeLeave. rewrite Hd. done.
  - unfold tweenFrame. destruct (World.tweens w !! k) as [tw|] eqn:Hk; [|done].
    destruct (World.data w !! tw_node tw) as [d|] eqn:Hd; [|done].
    simpl in Hev.
    pose proof (Forall_lookup_1 _ _ _ _ Htw Hk) as [Hf Ht].
    pose proof (Forall_lookup_1 _ _ _ _ Hdata Hd) as [Hp1 Hp2].
    split; simpl; [|done].
    apply Forall_insert; [done|]. split; [|done]. simpl.
    pose proof (interpolate_between (tw_from tw) (tw_to tw) t Hev) as [Hlo _].
    unfold Rmin in Hlo. destruct (Rle_dec (tw_from tw) (tw_to tw)); lra.
Qed.

Lemma run_positive evs w : Forall eased evs -> positive w -> positive (run evs w).
Proof.
  intros Hevs Hw. induction evs as [|ev evs IH] using rev_ind; [done|].
  apply Forall_app in Hevs as [Hevs Hev]. rewrite run_snoc.
  apply step_positive; [by inversion Hev|by apply IH].
Qed.

(** In every state that a rendered section reaches, a node's radius is
    positive, hence not 0. *)
Lemma reachable_radius_nonzero rand groups filter k w evs i d :
  (forall j, 0 <= rand j < 1) ->
  render rand groups filter k = Some w ->
  Forall eased evs ->
  World.data (run evs w) !! i = Some d ->
  0 < Node.r d.
Proof.
  intros Hrand Hr Hevs Hd.
  pose proof (run_positive evs w Hevs (render_positive _ _ _ _ _ Hrand Hr)) as [Hall _].
  by pose proof (Forall_lookup_1 _ _ _ _ Hall Hd) as [? _].
Qed.

(** ** The collision force never holds a stale radius *)

Lemma step_collideFresh w ev : collideFresh w -> collideFresh (step w ev).
Proof.
  intros (f & Hf & Hradii). destruct ev as [g|g|k t]; simpl.
  - unfold mouseenter. destruct (listens g w) as [i|]; [|by exists f].
    destruct (World.data w !! i) as [d|] eqn:Hd.
    + destruct (handleNodeHover_data g i w d Hd) as (Hd' & _ & Hs).
      exists f. unfold collideOf. rewrite Hs, Hd'. split; [done|].
      rewrite Hradii.
      change (map collisionRadius ?l) with (collisionRadius <$> l).
      rewrite list_fmap_insert. symmetry. apply list_insert_id.
      rewrite list_lookup_fmap, Hd. simpl. f_equal.
      by destruct (negb (truthy (Node.originalR d))).
    + unfold handleNodeHover. rewrite Hd. by exists f.
  - unfold mouseleave. destruct (listens g w) as [i|]; [|by exists f].
    destruct (World.data w !! i) as [d|] eqn:Hd.
    + destruct (handleNodeLeave_data g i w d Hd) as (Hd' & _ & Hs).
      exists f. unfold collideOf. by rewrite Hs, Hd'.
    + unfold handleNodeLeave. rewrite Hd. by exists f.
  - unfold tweenFrame. destruct (World.tweens w !! k) as [tw|]; [|by exists f].
    destruct (World.data w !! tw_node tw) as [d|]; [|by exists f].
    unfold collideFresh, collideOf. simpl.
    match goal with
    | |- context [restartSimulationIfNeeded ?s] =>
      destruct (restartSimulationIfNeeded_alpha s) as (_ & _ & _ & ->)
    end.
    eexists. split; [reflexivity|]. reflexivity.
Qed.

Lemma run_collideFresh rand groups filter k w evs :
  render rand groups filter k = Some w -> collideFresh (run evs w).
Proof.
  intros Hr. induction evs as [|ev evs IH] using rev_ind.
  - destruct (render_collide rand groups filter k) as (w' & f & Hr' & Hc & _ & _ & Hradii).
    assert (w' = w) as -> by congruence. by exists f.
  - rewrite run_snoc. by apply step_collideFresh.
Qed.

Lemma C9_entrance_cosmetic_witness :
  let w1 := animateNodeEntrance 0 0 0 exampleWorld in
  let w2 := foldl transitionStep w1 [Start 1; Frame 0 (1 / 2)] in
  World.data w2 = [exampleNode]
  /\ World.simulation w2 = World.simulation exampleWorld.
Proof.
  destruct (C9_entrance_cosmetic exampleWorld 0 0 0 [Start 1; Frame 0 (1 / 2)]
              (fun _ => 0) [] FilterType.tous 0)
    as ((Hdata & Hsim & _) & _).
  split; [exact Hdata | exact Hsim].
Defined.


(** * Further properties of the collage *)

(** ** Invariants of a mounted section *)

Lemma play_snoc actions a w : play (actions ++ [a]) w = act (play actions w) a.
Proof. unfold play. by rewrite foldl_app. Qed.

Lemma onTick_frame w :
  World.data (onTick w) = World.data w
  /\ World.simulation (onTick w) = World.simulation w
  /\ World.clusters (onTick w) = World.clusters w
  /\ World.tweens (onTick w) = World.tweens w.
Proof. done. Qed.

(** A property of the store, the tweens and the simulation that the
    pointer events keep is kept by every action. *)
Lemma play_invariant (P : list Node.t -> list RadiusTween -> Simulation.t -> Prop)
    (ok : Action -> Prop) actions w :
  (forall w ev, ok (Pointer ev) ->
     P (World.data w) (World.tweens w) (World.simulation w) ->
     P (World.data (step w ev)) (World.tweens (step w ev))
       (World.simulation (step w ev))) ->
  Forall ok actions ->
  P (World.data w) (World.tweens w) (World.simulation w) ->
  P (World.data (play actions w)) (World.tweens (play actions w))
    (World.simulation (play actions w)).
Proof.
  intros Hstep Hok Hw. induction actions as [|a actions IH] using rev_ind; [done|].
  apply Forall_app in Hok as [Hok Ha]. apply Forall_inv in Ha.
  rewrite play_snoc. specialize (IH Hok). destruct a as [ev|ev|]; cbn [act].
  - exact (Hstep (play actions w) ev Ha IH).
  - destruct (transitionStep_frame (play actions w) ev) as (-> & -> & _ & ->). done.
  - done.
Qed.

Lemma step_titleKept w ev : titleKept w -> titleKept (step w ev).
Proof.
  intros [H0 Htw]. unfold titleKept.
  assert (Hnot : forall g i, listens g w = Some i -> i <> 0%nat).
  { intros g i Hl ->. destruct (listens_spec g w 0 Hl) as (_ & d & _ & _ & Hd & Ht).
    rewrite H0 in Hd. injection Hd as <-. by rewrite initializeNode_type in Ht. }
  destruct ev as [g|g|k t]; simpl.
  - unfold mouseenter. destruct (listens g w) as [i|] eqn:Hl; [|done].
    destruct (World.data w !! i) as [d|] eqn:Hd.
    + destruct (handleNodeHover_data g i w d Hd) as (-> & -> & _).
      split.
      * rewrite list_lookup_insert_ne; [done|]. by eapply Hnot.
      * apply Forall_app. split; [done|]. constructor; [|constructor]. simpl.
        by eapply Hnot.
    + unfold handleNodeHover. by rewrite Hd.
  - unfold mouseleave. destruct (listens g w) as [i|] eqn:Hl; [|done].
    destruct (World.data w !! i) as [d|] eqn:Hd.
    + destruct (handleNodeLeave_data g i w d Hd) as (-> & -> & _).
      split; [done|]. apply Forall_app. split; [done|].
      constructor; [|constructor]. simpl. by eapply Hnot.
    + unfold handleNodeLeave. by rewrite Hd.
  - unfold tweenFrame. destruct (World.tweens w !! k) as [tw|] eqn:Hk; [|done].
    destruct (World.data w !! tw_node tw) as [d|]; [|done]. simpl.
    split; [|done]. rewrite list_lookup_insert_ne; [done|].
    by pose proof (Forall_lookup_1 _ _ _ _ Htw Hk).
Qed.

Lemma render_titleKept rand groups filter k w :
  render rand groups filter k = Some w -> titleKept w.
Proof.
  intros Hr.
  destruct (render_spec rand groups filter k) as (items & k' & w0 & _ & Hitems & Hr0 & Hm).
  destruct (mount_spec groups items) as (w0' & Hw0 & Hd0 & _ & _ & Htw & _);
    [by rewrite Hitems|].
  assert (w0' = w) as -> by congruence.
  split; [|rewrite Htw; constructor]. by rewrite Hd0, Hitems.
Qed.

(** X1. The title node is never touched.  In every state that a render
    reaches, whatever the pointer does and whatever frames and ticks
    happen, the first node is the title node as it was mounted: radius
    [title], no recorded resting radius, pinned at the centre of the
    canvas; and no radius tween is about it. *)
Theorem title_node_is_kept (rand : nat -> R) (groups : list Group.t)
    (filter : FilterType.t) (k : nat) (actions : list Action) :
  exists w d,
    render rand groups filter k = Some w
    /\ World.data (play actions w) !! 0%nat = Some d
    /\ World.data w !! 0%nat = Some d
    /\ Node.type d = NodeType.title
    /\ Node.r d = SIMULATION_CONFIG.nodeSize.title
    /\ Node.originalR d = None
    /\ Node.fx d = Some (SIMULATION_CONFIG.container.width / 2)
    /\ Node.fy d = Some (SIMULATION_CONFIG.container.height / 2)
    /\ Node.x d = Node.fx d
    /\ Node.y d = Node.fy d
    /\ Forall (fun tw => tw_node tw <> 0%nat) (World.tweens (play actions w)).
Proof.
  destruct (render_spec rand groups filter k) as (items & k' & w & _ & _ & Hr & _).
  pose proof (render_titleKept _ _ _ _ _ Hr) as Hk.
  assert (Hplay : titleKept (play actions w)).
  { apply (play_invariant
             (fun data tweens _ =>
                data !! 0%nat = Some (initializeNode 0 createTitleNode)
                /\ Forall (fun tw => tw_node tw <> 0%nat) tweens)
             (fun _ => True)); [| by apply Forall_true | exact Hk].
    intros w' ev _ H. by apply step_titleKept. }
  destruct Hk as [H0 _]. destruct Hplay as [H0' Htw'].
  exists w, (initializeNode 0 createTitleNode).
  split; [exact Hr|]. repeat split; done.
Qed.

Lemma albumNodes_bounded rand group albums k :
  (forall j, 0 <= rand j < 1) ->
  Forall boundedNode (albumNodes rand group albums k).
Proof.
  intros Hrand. revert k. induction albums as [|a l IH]; intros k; simpl.
  - constructor.
  - constructor; [|apply IH]. right. split; [|done]. simpl.
    destruct (album_radius_bounds (rand k) (Hrand k)) as [_ Hb]. cbv zeta in Hb. lra.
Qed.

Lemma groupNodes_bounded rand filter group k :
  (forall j, 0 <= rand j < 1) ->
  Forall boundedNode (fst (groupNodes rand filter group k)).
Proof.
  intros Hrand. unfold groupNodes.
  set (al := if allowsAlbums filter
             then albumNodes rand group (Group.albums group) k else []).
  assert (Hal : Forall boundedNode al).
  { unfold al. destruct (allowsAlbums filter); [by apply albumNodes_bounded|constructor]. }
  destruct (allowsArtists filter), (Group.albums group) as [|a0 l]; simpl; try done.
  apply Forall_app. split; [done|]. constructor; [|constructor].
  right. split; [|done]. simpl.
  destruct (artist_radius_bounds (rand (k + length al)%nat) (Hrand _)) as [_ Hb].
  cbv zeta in Hb. lra.
Qed.

Lemma nodesFrom_bounded rand filter groups k :
  (forall j, 0 <= rand j < 1) ->
  Forall boundedNode (fst (nodesFrom rand filter groups k)).
Proof.
  intros Hrand. revert k. induction groups as [|g gs IH]; intros k; simpl.
  - constructor.
  - pose proof (groupNodes_bounded rand filter g k Hrand) as Hg.
    destruct (groupNodes rand filter g k) as [here k1]. specialize (IH k1).
    destruct (nodesFrom rand filter gs k1) as [rest k2]. simpl in *.
    apply Forall_app. by split.
Qed.

Lemma render_bounded rand groups filter k w :
  (forall j, 0 <= rand j < 1) ->
  render rand groups filter k = Some w -> bounded w.
Proof.
  intros Hrand Hr.
  destruct (render_spec rand groups filter k) as (items & k' & w0 & _ & Hitems & Hr0 & Hm).
  destruct (mount_spec groups items) as (w0' & Hw0 & Hd0 & _ & _ & Htw & _);
    [by rewrite Hitems|].
  assert (w0' = w) as -> by congruence.
  split; [|rewrite Htw; constructor].
  rewrite Hd0. apply Forall_lookup. intros j dj Hj.
  rewrite list_lookup_imap in Hj.
  destruct (items !! j) as [d|] eqn:Hd; simpl in Hj; [|done]. injection Hj as <-.
  assert (Hb : boundedNode d).
  { rewrite Hitems in Hd. destruct j as [|j]; simpl in Hd.
    - injection Hd as <-. by left.
    - pose proof (nodesFrom_bounded rand filter groups k Hrand) as Hall.
      by eapply Forall_lookup_1 in Hall. }
  destruct Hb as [Ht|[Hb1 Hb2]].
  - left. by rewrite initializeNode_type.
  - right. rewrite initializeNode_r, initializeNode_originalR. done.
Qed.

Lemma leaveTargetSize_bounded d :
  (30 <= Node.r d <= 80 /\ forall v, Node.originalR d = Some v -> 30 <= v <= 80) ->
  30 <= leaveTargetSize d <= 80.
Proof.
  intros [_ Ho]. unfold leaveTargetSize.
  destruct (truthy (Node.originalR d)) eqn:Ht.
  - apply truthy_true in Ht as (v & Hv & _). rewrite Hv. simpl. by apply Ho.
  - unfold SIMULATION_CONFIG.nodeSize.album, SIMULATION_CONFIG.nodeSize.artist.
    destruct (NodeType.eqb _ _); lra.
Qed.

Lemma step_bounded w ev : eased ev -> bounded w -> bounded (step w ev).
Proof.
  intros Hev [Hdata Htw].
  assert (Hlis : forall g i d, listens g w = Some i -> World.data w !! i = Some d ->
            30 <= Node.r d <= 80
            /\ forall v, Node.originalR d = Some v -> 30 <= v <= 80).
  { intros g i d Hl Hd. destruct (listens_spec g w i Hl) as (_ & d' & _ & _ & Hd' & Ht).
    assert (d' = d) as -> by congruence.
    by destruct (Forall_lookup_1 _ _ _ _ Hdata Hd) as [?|?]. }
  destruct ev as [g|g|k t]; simpl.
  - unfold mouseenter. destruct (listens g w) as [i|] eqn:Hl; [|done].
    destruct (World.data w !! i) as [d|] eqn:Hd.
    + destruct (handleNodeHover_data g i w d Hd) as (Hd' & Ht' & _).
      destruct (Hlis g i d Hl Hd) as [Hb1 Hb2].
      split.
      * rewrite Hd'. apply Forall_insert; [done|]. right.
        destruct (negb (truthy (Node.originalR d))); [|done].
        split; [done|]. simpl. intros v [= <-]. done.
      * rewrite Ht'. apply Forall_app. split; [done|].
        constructor; [|constructor]. split; simpl; [done|].
        unfold SIMULATION_CONFIG.nodeSize.hover. lra.
    + unfold handleNodeHover. rewrite Hd. done.
  - unfold mouseleave. destruct (listens g w) as [i|] eqn:Hl; [|done].
    destruct (World.data w !! i) as [d|] eqn:Hd.
    + destruct (handleNodeLeave_data g i w d Hd) as (Hd' & Ht' & _).
      pose proof (Hlis g i d Hl Hd) as Hb.
      split; [by rewrite Hd'|].
      rewrite Ht'. apply Forall_app. split; [done|].
      constructor; [|constructor]. split; simpl; [apply (proj1 Hb)|].
      by apply leaveTargetSize_bounded.
    + unfold handleNodeLeave. rewrite Hd. done.
  - unfold tweenFrame. destruct (World.tweens w !! k) as [tw|] eqn:Hk; [|done].
    destruct (World.data w !! tw_node tw) as [d|] eqn:Hd; [|done].
    simpl in Hev.
    pose proof (Forall_lookup_1 _ _ _ _ Htw Hk) as [Hf Ht].
    split; simpl; [|done].
    apply Forall_insert; [done|].
    destruct (Forall_lookup_1 _ _ _ _ Hdata Hd) as [Hti|[Hb1 Hb2]]; [by left|].
    right. split; [|done]. simpl.
    pose proof (interpolate_between (tw_from tw) (tw_to tw) t Hev) as [Hlo Hhi].
    unfold Rmin, Rmax in *. destruct (Rle_dec (tw_from tw) (tw_to tw)); lra.
Qed.

(** X2. Hovering cannot make a radius grow or shrink without bound.
    When [Math.random()] returns values in [0, 1) and the tweens are
    called with eased times in [0, 1], the radius of every album and
    artist node is between 30 and 80 in every state that a render
    reaches, whatever the sequence of hovers, leaves, frames and ticks;
    so is every recorded resting radius. *)
Theorem radii_stay_bounded (rand : nat -> R) (groups : list Group.t)
    (filter : FilterType.t) (k : nat) (actions : list Action)
    (Hrand : forall j, 0 <= rand j < 1)
    (Heased : Forall easedAction actions) :
  exists w, render rand groups filter k = Some w
    /\ forall i d, World.data (play actions w) !! i = Some d ->
         Node.type d <> NodeType.title ->
         30 <= Node.r d <= 80
         /\ (forall v, Node.originalR d = Some v -> 30 <= v <= 80)
         /\ SIMULATION_CONFIG.nodeSize.minAlbum <= Node.r d
         /\ Node.r d < SIMULATION_CONFIG.nodeSize.title.
Proof.
  destruct (render_spec rand groups filter k) as (items & k' & w & _ & _ & Hr & _).
  exists w. split; [exact Hr|].
  assert (Hb : bounded (play actions w)).
  { apply (play_invariant
             (fun data tweens _ => Forall boundedNode data /\ Forall boundedTween tweens)
             easedAction); [| exact Heased | by eapply render_bounded].
    intros w' ev Hev H. by apply step_bounded. }
  intros i d Hd Hty. destruct Hb as [Hall _].
  destruct (Forall_lookup_1 _ _ _ _ Hall Hd) as [?|[Hb1 Hb2]]; [done|].
  unfold SIMULATION_CONFIG.nodeSize.minAlbum, SIMULATION_CONFIG.nodeSize.title.
  split; [lra|]. split; [exact Hb2|]. lra.
Qed.

Lemma radii_stay_bounded_witness :
  let rand := fun _ : nat => 1 / 4 in
  let groups := [Group.mk "A" "a" [Album.mk 1 "t" "s" "a"]] in
  let actions := [Pointer (MouseEnter 1); Pointer (TweenFrame 0 (1 / 2)); Tick] in
  exists w, render rand groups FilterType.tous 0%nat = Some w
    /\ forall i d, World.data (play actions w) !! i = Some d ->
         Node.type d <> NodeType.title -> 30 <= Node.r d <= 80.
Proof.
  intros rand groups actions.
  assert (Hrand : forall j, 0 <= rand j < 1) by (intros j; unfold rand; lra).
  assert (Heased : Forall easedAction actions).
  { unfold actions. constructor; [exact I|]. constructor; [simpl; lra|].
    constructor; [exact I|]. constructor. }
  destruct (radii_stay_bounded rand groups FilterType.tous 0 actions Hrand Heased)
    as (w & Hr & Hall).
  exists w. split; [exact Hr|]. intros i d Hd Hty. exact (proj1 (Hall i d Hd Hty)).
Defined.

(** ** A whole hover *)

(** A hover followed by the last frame of the tween it installs. *)
Lemma hover_final_frame w g i d :
  listens g w = Some i ->
  World.data w !! i = Some d ->
  Node.r d <> 0 ->
  let w1 := tweenFrame (length (World.tweens w)) 1 (mouseenter g w) in
  (exists d1, World.data w1 !! i = Some d1
     /\ Node.r d1 = SIMULATION_CONFIG.nodeSize.hover
     /\ Node.originalR d1 = Some (restingRadius d)
     /\ Node.type d1 = Node.type d)
  /\ length (World.tweens w1) = S (length (World.tweens w))
  /\ listens g w1 = Some i.
Proof.
  intros Hl Hd Hr w1.
  assert (Hlis : listens g w1 = Some i).
  { unfold w1. change (listens g (step (step w (MouseEnter g))
                                   (TweenFrame (length (World.tweens w)) 1)) = Some i).
    by rewrite !listens_step. }
  unfold w1, mouseenter. rewrite Hl.
  destruct (handleNodeHover_data g i w d Hd) as (Hdata & Htw & _).
  destruct (hover_records d Hr) as (Ho1 & Hr1 & Ht1).
  set (d1 := if negb (truthy (Node.originalR d))
             then Node.set_originalR (Some (Node.r d)) d else d) in *.
  unfold tweenFrame. rewrite Htw.
  rewrite lookup_app_r by lia. rewrite Nat.sub_diag. simpl.
  rewrite Hdata. rewrite list_lookup_insert_eq by (by eapply lookup_lt_Some).
  simpl. split; [|split].
  - eexists. split; [apply list_lookup_insert_eq|].
    + rewrite length_insert. by eapply lookup_lt_Some.
    + simpl. by rewrite interpolate_1.
  - rewrite length_app. simpl. lia.
  - revert Hlis. unfold w1, mouseenter. rewrite Hl. unfold tweenFrame. rewrite Htw.
    rewrite lookup_app_r by lia. rewrite Nat.sub_diag. simpl.
    rewrite Hdata. rewrite list_lookup_insert_eq by (by eapply lookup_lt_Some).
    done.
Qed.

(** X3. A whole hover gives the radius back.  On a node that listens to
    the pointer and has a non-zero radius, a hover run to its last frame
    brings the radius to the hover size 70; the leave that follows, run
    to its last frame, brings it to the resting radius, which is the
    radius before the hover when the node had never been hovered. *)
Theorem hover_cycle_restores_radius (w : World.t) (g i : nat) (d : Node.t)
    (Hlistens : listens g w = Some i)
    (Hd : World.data w !! i = Some d)
    (Hr : Node.r d <> 0) :
  let n := length (World.tweens w) in
  let w1 := run [MouseEnter g; TweenFrame n 1] w in
  let w2 := run [MouseLeave g; TweenFrame (S n) 1] w1 in
  (exists d1, World.data w1 !! i = Some d1
     /\ Node.r d1 = SIMULATION_CONFIG.nodeSize.hover)
  /\ (exists d2, World.data w2 !! i = Some d2
        /\ Node.r d2 = restingRadius d
        /\ Node.originalR d2 = Some (restingRadius d)
        /\ (Node.originalR d = None -> Node.r d2 = Node.r d)).
Proof.
  intros n w1 w2.
  destruct (hover_final_frame w g i d Hlistens Hd Hr) as ((d1 & Hd1 & Hr1 & Ho1 & _) & Hlen & Hl1).
  fold n in Hd1, Hlen, Hl1.
  change (tweenFrame n 1 (mouseenter g w)) with w1 in Hd1, Hlen, Hl1.
  split; [by exists d1|].
  destruct (leave_final_frame w1 g i d1 Hl1 Hd1) as (d2 & Hd2 & Hr2 & Ho2).
  rewrite Hlen in Hd2.
  exists d2. split; [exact Hd2|].
  assert (Hrest : leaveTargetSize d1 = restingRadius d).
  { apply leaveTargetSize_recorded; [done|]. by apply restingRadius_nonzero. }
  split; [congruence|]. split; [congruence|].
  intros Hnone. rewrite Hr2, Hrest. unfold restingRadius. by rewrite Hnone.
Qed.

Lemma hover_cycle_restores_radius_witness :
  exists d2,
    World.data (run [MouseLeave 0; TweenFrame 1 1]
                  (run [MouseEnter 0; TweenFrame 0 1] exampleWorld)) !! 0%nat
    = Some d2
    /\ Node.r d2 = 30.
Proof.
  assert (Hr : Node.r exampleNode <> 0) by (simpl; lra).
  destruct (hover_cycle_restores_radius exampleWorld 0 0 exampleNode
              eq_refl eq_refl Hr) as (_ & d2 & Hd2 & _ & _ & Hsame).
  exists d2. split; [exact Hd2|]. exact (Hsame eq_refl).
Defined.

(** ** The collision force under every action *)

(** X4. The collision force never works with a stale radius.  In every
    state that a render reaches by pointer events, frames of tweens and
    transitions, and ticks, the radii that the installed collision
    force holds are, node by node, the present radius plus the padding,
    with strength 1 and 3 iterations. *)
Theorem collision_radii_always_fresh (rand : nat -> R) (groups : list Group.t)
    (filter : FilterType.t) (k : nat) (actions : list Action) :
  exists w f,
    render rand groups filter k = Some w
    /\ collideOf (play actions w) = Some f
    /\ Collide.radii f
       = map (fun d => Node.r d + SIMULATION_CONFIG.nodeSize.holePadding)
             (World.data (play actions w))
    /\ length (Collide.radii f) = length (World.data w)
    /\ Collide.strength f = SIMULATION_CONFIG.forces.collide
    /\ Collide.iterations f = SIMULATION_CONFIG.performance.collisionIterations.
Proof.
  destruct (render_collide rand groups filter k) as (w & f0 & Hr & Hc0 & Hi0 & Hs0 & Hrad0).
  pose (P := fun (data : list Node.t) (tweens : list RadiusTween) (s : Simulation.t) =>
               length data = length (World.data w)
               /\ exists f, Simulation.collide s = Some f
                    /\ Collide.radii f = map collisionRadius data
                    /\ Collide.strength f = SIMULATION_CONFIG.forces.collide
                    /\ Collide.iterations f
                       = SIMULATION_CONFIG.performance.collisionIterations).
  assert (HP : P (World.data (play actions w)) (World.tweens (play actions w))
                 (World.simulation (play actions w))).
  { apply (play_invariant P (fun _ => True)); [| by apply Forall_true |].
    - intros w' ev _ (Hlen & f & Hf & Hrad & Hs & Hi). split.
      + by rewrite step_length.
      + destruct (step_collideFresh w' ev) as (f' & Hf' & Hrad').
        { by exists f. }
        exists f'. split; [exact Hf'|]. split; [exact Hrad'|].
        destruct ev as [g|g|j t]; simpl in Hf'.
        * unfold mouseenter in Hf'. destruct (listens g w') as [i|];
            [|unfold collideOf in Hf'; by assert (f' = f) as -> by congruence].
          unfold collideOf, handleNodeHover in Hf'.
          destruct (World.data w' !! i); simpl in Hf';
            by assert (f' = f) as -> by congruence.
        * unfold mouseleave in Hf'. destruct (listens g w') as [i|];
            [|unfold collideOf in Hf'; by assert (f' = f) as -> by congruence].
          unfold collideOf, handleNodeLeave in Hf'.
          destruct (World.data w' !! i); simpl in Hf';
            by assert (f' = f) as -> by congruence.
        * unfold tweenFrame, collideOf in Hf'.
          destruct (World.tweens w' !! j) as [tw|];
            [|by assert (f' = f) as -> by congruence].
          destruct (World.data w' !! tw_node tw);
            [|by assert (f' = f) as -> by congruence].
          simpl in Hf'.
          match type of Hf' with
          | context [restartSimulationIfNeeded ?s] =>
            destruct (restartSimulationIfNeeded_alpha s) as (_ & _ & _ & Hcol)
          end.
          rewrite Hcol in Hf'. simpl in Hf'. by injection Hf' as <-.
    - split; [done|]. exists f0. unfold collideOf in Hc0. split; [done|].
      split; [done|]. rewrite Hs0, Hi0. done. }
  destruct HP as (Hlen & f & Hf & Hrad & Hs & Hi).
  exists w, f. split; [exact Hr|]. split; [exact Hf|]. split; [exact Hrad|].
  split; [|by split]. rewrite Hrad, length_map. exact Hlen.
Qed.

(** ** Node ids *)

Lemma albumNodes_ids rand group albums k :
  map Node.id (albumNodes rand group albums k)
  = map (fun a => "album-" +:+ pretty (Album.id a)) albums.
Proof. revert k. induction albums as [|a l IH]; intros k; simpl; [done|]. by rewrite IH. Qed.

Lemma groupNodes_ids rand filter g k :
  map Node.id (fst (groupNodes rand filter g k)) = nodeIdsOf filter g.
Proof.
  unfold groupNodes, nodeIdsOf.
  destruct (allowsAlbums filter), (allowsArtists filter),
    (Group.albums g) as [|a0 l] eqn:E; simpl;
    rewrite ?map_app, ?albumNodes_ids; simpl; rewrite ?app_nil_r; try done.
Qed.

Lemma nodesFrom_ids rand filter groups k :
  map Node.id (fst (nodesFrom rand filter groups k))
  = flat_map (nodeIdsOf filter) groups.
Proof.
  revert k. induction groups as [|g gs IH]; intros k; simpl; [done|].
  pose proof (groupNodes_ids rand filter g k) as Hg.
  destruct (groupNodes rand filter g k) as [here k1]. specialize (IH k1).
  destruct (nodesFrom rand filter gs k1) as [rest k2]. simpl in *.
  by rewrite map_app, Hg, IH.
Qed.

Lemma nodeIdsOf_elem filter g x :
  x ∈ nodeIdsOf filter g ->
  (exists a, a ∈ Group.albums g /\ x = "album-" +:+ pretty (Album.id a))
  \/ x = "artist-" +:+ Group.id g.
Proof.
  unfold nodeIdsOf. intros H. apply elem_of_app in H as [H|H].
  - destruct (allowsAlbums filter); [|by apply elem_of_nil in H].
    left. change (x ∈ (fun a => "album-" +:+ pretty (Album.id a)) <$> Group.albums g) in H.
    apply list_elem_of_fmap in H as (a & -> & Ha). eauto.
  - destruct (_ && _); [|by apply elem_of_nil in H].
    right. by apply list_elem_of_singleton in H.
Qed.

Lemma flat_nodeIdsOf_elem filter groups x :
  x ∈ flat_map (nodeIdsOf filter) groups ->
  (exists g a, g ∈ groups /\ a ∈ Group.albums g
               /\ x = "album-" +:+ pretty (Album.id a))
  \/ (exists g, g ∈ groups /\ x = "artist-" +:+ Group.id g).
Proof.
  intros H. apply list_elem_of_In in H. apply in_flat_map in H as (g & Hg & Hx).
  apply list_elem_of_In in Hg, Hx.
  destruct (nodeIdsOf_elem filter g x Hx) as [(a & Ha & ->) | ->].
  - left. by exists g, a.
  - right. by exists g.
Qed.

Lemma catalogAlbumIds_elem groups g a :
  g ∈ groups -> a ∈ Group.albums g -> Album.id a ∈ catalogAlbumIds groups.
Proof.
  intros Hg Ha. apply list_elem_of_In. apply in_flat_map. exists g.
  split; [by apply list_elem_of_In|]. apply in_map. by apply list_elem_of_In.
Qed.

Lemma album_id_inj (z1 z2 : Z) :
  "album-" +:+ pretty z1 = "album-" +:+ pretty z2 -> z1 = z2.
Proof. intros H. apply (inj (String.app "album-")) in H. by apply (inj pretty) in H. Qed.

Lemma NoDup_nodeIds filter groups :
  NoDup (map Group.id groups) ->
  NoDup (catalogAlbumIds groups) ->
  NoDup (flat_map (nodeIdsOf filter) groups).
Proof.
  induction groups as [|g gs IH]; intros Hg Ha; simpl; [constructor|].
  simpl in Hg. apply NoDup_cons in Hg as [Hgnot Hg].
  unfold catalogAlbumIds in Ha. simpl in Ha. fold (catalogAlbumIds gs) in Ha.
  apply NoDup_app in Ha as (Ha1 & Hdisj & Ha2).
  apply NoDup_app. split; [|split].
  - unfold nodeIdsOf. apply NoDup_app. split; [|split].
    + destruct (allowsAlbums filter); [|constructor].
      assert (Heq : map (fun a => "album-" +:+ pretty (Album.id a)) (Group.albums g)
                    = (fun z => "album-" +:+ pretty z) <$> map Album.id (Group.albums g)).
      { change (map ?f ?l) with (f <$> l). by rewrite <- list_fmap_compose. }
      rewrite Heq. apply NoDup_fmap_2_strong; [|done].
      intros z1 z2 _ _. apply album_id_inj.
    + intros x Hx Hx'. destruct (allowsAlbums filter); [|by apply elem_of_nil in Hx].
      destruct (_ && _); [|by apply elem_of_nil in Hx'].
      apply list_elem_of_singleton in Hx'. subst x.
      change (("artist-" +:+ Group.id g)
              ∈ (fun a => "album-" +:+ pretty (Album.id a)) <$> Group.albums g) in Hx.
      apply list_elem_of_fmap in Hx as (a & Hx & _). discriminate.
    + destruct (_ && _); [apply NoDup_singleton|constructor].
  - intros x Hx Hx'.
    apply flat_nodeIdsOf_elem in Hx'.
    destruct (nodeIdsOf_elem filter g x Hx) as [(a & Hin & ->) | ->];
      destruct Hx' as [(g' & a' & Hg' & Hin' & Heq)|(g' & Hg' & Heq)];
      try discriminate.
    + apply album_id_inj in Heq. apply (Hdisj (Album.id a)).
      * apply list_elem_of_In, in_map. by apply list_elem_of_In.
      * rewrite Heq. by eapply catalogAlbumIds_elem.
    + apply (inj (String.app "artist-")) in Heq. apply Hgnot. rewrite Heq.
      apply list_elem_of_In, in_map. by apply list_elem_of_In.
  - by apply IH.
Qed.

(** X5. Distinct catalog ids give distinct node ids.  When no two
    groups share an id and no two albums of the catalog share an id,
    the nodes built under any filter have pairwise distinct ids, and so
    have the clip paths created for them. *)
Theorem node_ids_distinct (rand : nat -> R) (groups : list Group.t)
    (filter : FilterType.t) (k : nat)
    (Hgroups : NoDup (map Group.id groups))
    (Halbums : NoDup (catalogAlbumIds groups)) :
  exists items k',
    data rand groups filter k = Some (items, k')
    /\ NoDup (map Node.id items)
    /\ NoDup (map ClipPath.id (createClipPaths items)).
Proof.
  do 2 eexists. split; [apply data_eq|].
  assert (Hids : NoDup (map Node.id
                          (createTitleNode :: fst (nodesFrom rand filter groups k)))).
  { simpl. rewrite nodesFrom_ids. apply NoDup_cons. split.
    - intros H. apply flat_nodeIdsOf_elem in H as [(g & a & _ & _ & Heq)|(g & _ & Heq)];
        discriminate.
    - by apply NoDup_nodeIds. }
  split; [exact Hids|].
  unfold createClipPaths. rewrite map_map. simpl.
  change (NoDup ((fun d => "clip-" +:+ Node.id d)
                   <$> (createTitleNode :: fst (nodesFrom rand filter groups k)))).
  rewrite (list_fmap_compose Node.id (String.app "clip-")).
  apply NoDup_fmap_2; [apply _|]. exact Hids.
Qed.

Lemma node_ids_distinct_witness :
  let groups := [Group.mk "A" "a" [Album.mk 1 "t" "s" "a"; Album.mk 2 "t" "s" "a"];
                 Group.mk "B" "b" [Album.mk 3 "t" "s" "a"]] in
  exists items k',
    data (fun _ => 0) groups FilterType.tous 0%nat = Some (items, k')
    /\ NoDup (map Node.id items).
Proof.
  intros groups.
  assert (Hgroups : NoDup (map Group.id groups)).
  { apply (bool_decide_unpack _). vm_compute. exact I. }
  assert (Halbums : NoDup (catalogAlbumIds groups)).
  { apply (bool_decide_unpack _). vm_compute. exact I. }
  destruct (node_ids_distinct (fun _ => 0) groups FilterType.tous 0 Hgroups Halbums)
    as (items & k' & Hd & Hn & _).
  by exists items, k'.
Defined.

(** ** Clip paths and shared ids *)

Lemma find_first_id (data : list Node.t) j d nid :
  data !! j = Some d ->
  Node.id d = nid ->
  (forall j' d', (j' < j)%nat -> data !! j' = Some d' -> Node.id d' <> nid) ->
  find (fun n => bool_decide (Node.id n = nid)) data = Some d.
Proof.
  revert j. induction data as [|n data IH]; intros j Hj Hid Hfirst; [done|].
  destruct j as [|j]; simpl in *.
  - injection Hj as ->. by rewrite bool_decide_eq_true_2.
  - rewrite bool_decide_eq_false_2.
    + apply (IH j Hj Hid). intros j' d' Hlt Hd'. apply (Hfirst (S j') d'); [lia|done].
    + apply (Hfirst 0%nat n); [lia|done].
Qed.

Lemma find_no_id (data : list Node.t) nid :
  Forall (fun d => Node.id d <> nid) data ->
  find (fun n => bool_decide (Node.id n = nid)) data = None.
Proof.
  induction 1 as [|d data Hd _ IH]; simpl; [done|].
  by rewrite bool_decide_eq_false_2.
Qed.

(** X6. The clip circle of a node is found by id.  At a tick the clip
    path created for a node gets the radius, less the clip padding, of
    the first node of the list that has the same id: when two nodes
    share an id, the second one is clipped with the radius of the
    first.  A clip path whose id matches no node gets radius 0. *)
Theorem clip_radius_follows_first_id (svg : Svg.t) (data : list Node.t)
    (k : nat) (c : ClipPath.t) (nid : string)
    (Hclip : Svg.defs svg !! k = Some c)
    (Hid : ClipPath.id c = "clip-" +:+ nid) :
  (forall j d,
     data !! j = Some d ->
     Node.id d = nid ->
     (forall j' d', (j' < j)%nat -> data !! j' = Some d' -> Node.id d' <> nid) ->
     Svg.defs (updateVisualsOnTick svg data) !! k
     = Some (ClipPath.mk (ClipPath.id c)
               (Node.r d - SIMULATION_CONFIG.nodeSize.clipPadding)))
  /\ (Forall (fun d => Node.id d <> nid) data ->
      Svg.defs (updateVisualsOnTick svg data) !! k
      = Some (ClipPath.mk (ClipPath.id c) 0)).
Proof.
  assert (Hk : Svg.defs (updateVisualsOnTick svg data) !! k
               = Some (updateClipPath data c)).
  { unfold updateVisualsOnTick. simpl.
    change (map (updateClipPath data) (Svg.defs svg))
      with (updateClipPath data <$> Svg.defs svg).
    by rewrite list_lookup_fmap, Hclip. }
  rewrite Hk. unfold updateClipPath. rewrite Hid, replace_clip_prefix. split.
  - intros j d Hd Hnid Hfirst. by rewrite (find_first_id data j d nid Hd Hnid Hfirst).
  - intros Hnone. by rewrite (find_no_id data nid Hnone).
Qed.

Lemma clip_radius_follows_first_id_witness :
  let second := Node.set_r 45 exampleNode in
  let data := [exampleNode; second] in
  let svg := Svg.mk (createClipPaths data) (imap createNodeGroup data) in
  Svg.defs (updateVisualsOnTick svg data) !! 1%nat
  = Some (ClipPath.mk "clip-album-1" (30 - SIMULATION_CONFIG.nodeSize.clipPadding)).
Proof.
  intros second data svg.
  destruct (clip_radius_follows_first_id svg data 1 (ClipPath.mk "clip-album-1" 0)
              "album-1" eq_refl eq_refl) as [Hfirst _].
  apply (Hfirst 0%nat exampleNode eq_refl eq_refl).
  intros j' d' Hlt. lia.
Defined.

(** ** Cluster targets of the nodes *)

Lemma createClusters_forEach_in groups i n width height
    (clusters : gmap string Cluster.t) key :
  key ∈ map Group.id groups ->
  exists j g,
    groups !! j = Some g
    /\ Group.id g = key
    /\ createClusters_forEach groups i n width height clusters !! key
       = Some (clusterPoint (i + j) n width height)
    /\ forall j' g', (j < j')%nat -> groups !! j' = Some g' -> Group.id g' <> key.
Proof.
  revert i clusters. induction groups as [|g0 gs IH]; intros i clusters Hin; simpl in *.
  - by apply elem_of_nil in Hin.
  - destruct (decide (key ∈ map Group.id gs)) as [Hgs|Hnot].
    + destruct (IH (S i) (<[Group.id g0 :=
                     {| Cluster.x := width / 2
                          + cos (INR i / INR n * 2 * PI) * (Rmin width height / 4);
                        Cluster.y := height / 2
                          + sin (INR i / INR n * 2 * PI) * (Rmin width height / 4) |}]>
                     clusters) Hgs)
        as (j & g & Hj & Hid & Hlook & Hlast).
      exists (S j), g. split; [done|]. split; [done|]. split.
      * rewrite Hlook. do 2 f_equal. lia.
      * intros [|j'] g' Hlt Hj'; [lia|]. apply (Hlast j' g'); [lia|done].
    + apply elem_of_cons in Hin as [->|Hin]; [|done].
      exists 0%nat, g0. split; [done|]. split; [done|]. split.
      * rewrite createClusters_forEach_notin by exact Hnot.
        rewrite lookup_insert_eq, clusterPoint_code. by rewrite Nat.add_0_r.
      * intros [|j'] g' Hlt Hj'; [lia|]. simpl in Hj'. intros Heq. apply Hnot.
        rewrite <- Heq. apply list_elem_of_fmap. exists g'. split; [done|].
        apply list_elem_of_lookup. eauto.
Qed.

Lemma albumNodes_group rand group albums k d :
  d ∈ albumNodes rand group albums k ->
  Node.type d = NodeType.album /\ Node.group d = Group.id group.
Proof.
  revert k. induction albums as [|a l IH]; intros k H; simpl in H.
  - by apply elem_of_nil in H.
  - apply elem_of_cons in H as [->|H]; [done|]. by eapply IH.
Qed.

Lemma groupNodes_group rand filter group k d :
  d ∈ fst (groupNodes rand filter group k) ->
  Node.type d <> NodeType.title /\ Node.group d = Group.id group.
Proof.
  unfold groupNodes.
  set (al := if allowsAlbums filter
             then albumNodes rand group (Group.albums group) k else []).
  assert (Hal : forall d, d ∈ al ->
            Node.type d <> NodeType.title /\ Node.group d = Group.id group).
  { intros d' Hd'. unfold al in Hd'. destruct (allowsAlbums filter).
    - apply albumNodes_group in Hd' as [Ht Hg]. by rewrite Ht.
    - by apply elem_of_nil in Hd'. }
  destruct (allowsArtists filter), (Group.albums group) as [|a0 l]; simpl;
    intros H; try (by apply Hal).
  apply elem_of_app in H as [H|H]; [by apply Hal|].
  apply list_elem_of_singleton in H. by subst d.
Qed.

Lemma nodesFrom_group rand filter groups k d :
  d ∈ fst (nodesFrom rand filter groups k) ->
  Node.type d <> NodeType.title
  /\ exists g, g ∈ groups /\ Node.group d = Group.id g.
Proof.
  revert k. induction groups as [|g gs IH]; intros k H; simpl in H.
  - by apply elem_of_nil in H.
  - pose proof (groupNodes_group rand filter g k d) as Hg.
    destruct (groupNodes rand filter g k) as [here k1]. specialize (IH k1).
    destruct (nodesFrom rand filter gs k1) as [rest k2]. simpl in *.
    apply elem_of_app in H as [H|H].
    + destruct (Hg H) as [Ht Hgr]. split; [done|]. exists g. split; [|done].
      apply elem_of_cons. by left.
    + destruct (IH H) as (Ht & g' & Hg' & Hgr). split; [done|]. exists g'.
      split; [|done]. apply elem_of_cons. by right.
Qed.

Lemma initializeNode_group i d : Node.group (initializeNode i d) = Node.group d.
Proof.
  unfold initializeNode.
  destruct (Node.fx d), (Node.fy d), (Node.x d), (Node.y d), (Node.vx d), (Node.vy d);
    reflexivity.
Qed.

(** X7. Every album and artist node is pulled towards a cluster point.
    In a mounted section the group key of every node but the title is
    the id of a catalog group, the cluster map has a target for it, the
    point of the last group of the list with that id, on the circle
    around the centre of the canvas, and the [x] and [y] forces aim at
    it.  The title's key is [center]: unless a group has that id, its
    forces aim at the centre of the canvas. *)
Theorem nodes_have_cluster_targets (rand : nat -> R) (groups : list Group.t)
    (filter : FilterType.t) (k : nat) :
  let width := SIMULATION_CONFIG.container.width in
  let height := SIMULATION_CONFIG.container.height in
  exists w fx fy,
    render rand groups filter k = Some w
    /\ Simulation.forceX (World.simulation w) = Some (fx, SIMULATION_CONFIG.forces.x)
    /\ Simulation.forceY (World.simulation w) = Some (fy, SIMULATION_CONFIG.forces.y)
    /\ (forall i d,
          World.data w !! i = Some d ->
          Node.type d <> NodeType.title ->
          exists j g,
            groups !! j = Some g
            /\ Node.group d = Group.id g
            /\ (forall j' g', (j < j')%nat -> groups !! j' = Some g' ->
                  Group.id g' <> Group.id g)
            /\ World.clusters w !! Node.group d
               = Some (clusterPoint j (length groups) width height)
            /\ fx d = Cluster.x (clusterPoint j (length groups) width height)
            /\ fy d = Cluster.y (clusterPoint j (length groups) width height)
            /\ onCircle (clusterPoint j (length groups) width height)
                        (width / 2) (height / 2) (Rmin width height / 4))
    /\ ("center" ∉ map Group.id groups ->
        exists t, World.data w !! 0%nat = Some t
          /\ Node.type t = NodeType.title
          /\ fx t = width / 2
          /\ fy t = height / 2).
Proof.
  intros width height.
  destruct (render_spec rand groups filter k) as (items & k' & w & _ & Hitems & Hr & Hm).
  destruct (mount_spec groups items) as (w1 & Hw1 & Hdata & Hclusters & _);
    [by rewrite Hitems|].
  destruct (mount_forces groups items) as (w2 & Hw2 & Hx & Hy); [by rewrite Hitems|].
  assert (w1 = w) as -> by congruence. assert (w2 = w) as -> by congruence.
  eexists w, _, _. split; [exact Hr|]. split; [exact Hx|]. split; [exact Hy|].
  split.
  - intros i d Hd Hty. rewrite Hdata, list_lookup_imap in Hd.
    destruct (items !! i) as [d0|] eqn:Hd0; simpl in Hd; [|done]. injection Hd as <-.
    rewrite initializeNode_type in Hty.
    assert (Hin : d0 ∈ fst (nodesFrom rand filter groups k)).
    { rewrite Hitems in Hd0. destruct i as [|i]; simpl in Hd0.
      - injection Hd0 as <-. done.
      - apply list_elem_of_lookup. eauto. }
    destruct (nodesFrom_group _ _ _ _ _ Hin) as (_ & g0 & Hg0 & Hgroup).
    assert (Hkey : Node.group d0 ∈ map Group.id groups).
    { rewrite Hgroup. apply list_elem_of_fmap. eauto. }
    destruct (createClusters_forEach_in groups 0 (length groups) width height ∅
                (Node.group d0) Hkey) as (j & g & Hj & Hid & Hlook & Hlast).
    simpl in Hlook.
    assert (Hc : World.clusters w !! Node.group d0
                 = Some (clusterPoint j (length groups) width height)).
    { rewrite Hclusters. exact Hlook. }
    exists j, g. rewrite initializeNode_group.
    split; [done|]. split; [done|]. split.
    { intros j' g' Hlt Hj'. rewrite Hid. by eapply Hlast. }
    split; [exact Hc|].
    unfold clusterX, clusterY. rewrite initializeNode_group, Hc.
    split; [done|]. split; [done|]. apply clusterPoint_onCircle.
  - intros Hnot. exists (initializeNode 0 createTitleNode).
    split; [by rewrite Hdata, Hitems|]. split; [done|].
    assert (Hnone : World.clusters w !! "center" = None).
    { rewrite Hclusters. unfold createClusters.
      rewrite createClusters_forEach_notin by exact Hnot. apply lookup_empty. }
    unfold clusterX, clusterY. simpl. rewrite Hnone. done.
Qed.

Lemma nodes_have_cluster_targets_witness :
  let width := SIMULATION_CONFIG.container.width in
  let height := SIMULATION_CONFIG.container.height in
  let groups := [Group.mk "A" "a" [Album.mk 1 "t" "s" "a"];
                 Group.mk "B" "b" [Album.mk 2 "u" "v" "b"]] in
  exists w fx fy album artist,
    render (fun _ => 0) groups FilterType.tous 0%nat = Some w
    /\ Simulation.forceX (World.simulation w) = Some (fx, SIMULATION_CONFIG.forces.x)
    /\ Simulation.forceY (World.simulation w) = Some (fy, SIMULATION_CONFIG.forces.y)
    /\ World.data w !! 3%nat = Some album
    /\ Node.id album = "album-2"
    /\ World.clusters w !! "B" = Some (clusterPoint 1 2 width height)
    /\ fx album = Cluster.x (clusterPoint 1 2 width height)
    /\ fy album = Cluster.y (clusterPoint 1 2 width height)
    /\ World.data w !! 2%nat = Some artist
    /\ Node.id artist = "artist-A"
    /\ World.clusters w !! "A" = Some (clusterPoint 0 2 width height)
    /\ fx artist = Cluster.x (clusterPoint 0 2 width height)
    /\ fy artist = Cluster.y (clusterPoint 0 2 width height).
Proof.
  intros width height groups.
  destruct (nodes_have_cluster_targets (fun _ => 0) groups FilterType.tous 0)
    as (w & fx & fy & Hr & Hx & Hy & Hnodes & _).
  destruct (render_spec (fun _ => 0) groups FilterType.tous 0%nat)
    as (items & k' & w0 & _ & Hitems & Hr0 & _).
  simpl in Hitems.
  destruct (mount_spec groups items) as (w1 & Hw1 & Hdata & _); [by rewrite Hitems|].
  assert (w0 = w) as -> by congruence.
  assert (w1 = w) as ->.
  { unfold render in Hr. rewrite data_eq in Hr. simpl in Hr. rewrite <- Hitems in Hr.
    congruence. }
  rewrite Hitems in Hdata. simpl in Hdata.
  assert (Halbum : exists d, World.data w !! 3%nat = Some d
                     /\ Node.id d = "album-2" /\ Node.group d = "B"
                     /\ Node.type d = NodeType.album).
  { rewrite Hdata. by eexists. }
  assert (Hartist : exists d, World.data w !! 2%nat = Some d
                      /\ Node.id d = "artist-A" /\ Node.group d = "A"
                      /\ Node.type d = NodeType.artist).
  { rewrite Hdata. by eexists. }
  destruct Halbum as (album & Halbum & Hid1 & Hg1 & Ht1).
  destruct Hartist as (artist & Hartist & Hid2 & Hg2 & Ht2).
  exists w, fx, fy, album, artist.
  destruct (Hnodes 3%nat album Halbum) as (j1 & g1 & Hj1 & Hk1 & _ & Hc1 & Hfx1 & Hfy1 & _).
  { by rewrite Ht1. }
  destruct (Hnodes 2%nat artist Hartist) as (j2 & g2 & Hj2 & Hk2 & _ & Hc2 & Hfx2 & Hfy2 & _).
  { by rewrite Ht2. }
  assert (j1 = 1%nat) as ->.
  { rewrite Hg1 in Hk1. destruct j1 as [|[|j1]]; simpl in Hj1; [|done|done].
    injection Hj1 as <-. discriminate. }
  assert (j2 = 0%nat) as ->.
  { rewrite Hg2 in Hk2. destruct j2 as [|[|j2]]; simpl in Hj2; [done| |done].
    injection Hj2 as <-. discriminate. }
  rewrite Hg1 in Hc1. rewrite Hg2 in Hc2.
  split; [exact Hr|]. split; [exact Hx|]. split; [exact Hy|].
  split; [exact Halbum|]. split; [exact Hid1|]. split; [exact Hc1|].
  split; [exact Hfx1|]. split; [exact Hfy1|].
  split; [exact Hartist|]. split; [exact Hid2|]. split; [exact Hc2|].
  split; [exact Hfx2|]. exact Hfy2.
Defined.

(** ** The entrance animation and render sync *)

Lemma selectAll_elem p children c :
  c ∈ selectAll p children -> exists e, children !! c = Some e /\ p e = true.
Proof.
  unfold selectAll. intros H.
  apply list_elem_of_omap in H as (o & Ho & ->).
  apply elem_of_lookup_imap_1 in Ho as (c' & e & Heq & He).
  destruct (p e) eqn:Hp; [|done]. injection Heq as ->. eauto.
Qed.

Lemma tick_child svg data node g dn c e :
  Svg.nodeGroup svg !! node = Some g ->
  data !! G.datum g = Some dn ->
  G.children g !! c = Some e ->
  forall a,
    getAttr (ChildAttr node c a) (updateVisualsOnTick svg data)
    = getChildAttr a (updateChild dn e).
Proof.
  intros Hg Hd He a. unfold getAttr, updateVisualsOnTick. simpl.
  change (map (updateGroup data) (Svg.nodeGroup svg))
    with (updateGroup data <$> Svg.nodeGroup svg).
  rewrite list_lookup_fmap, Hg. simpl. unfold updateGroup. rewrite Hd. simpl.
  change (map (updateChild dn) (G.children g)) with (updateChild dn <$> G.children g).
  by rewrite list_lookup_fmap, He.
Qed.

(** X8. The entrance animation ends on the geometry of render sync.
    For a group that shows the node [dn], with distinct node ids, every
    transition that the entrance of the [i]-th node schedules starts
    after [100 * i] ms and is over by [100 * i + 800] ms; those on the
    radii of circles, on the image box and on the clip radius go to the
    very values that render sync writes at a tick. *)
Theorem entrance_agrees_with_render_sync (w : World.t) (node d i : nat)
    (dn : Node.t) (g : G.t)
    (Hnode : World.data w !! d = Some dn)
    (Hgroup : Svg.nodeGroup (World.svg w) !! node = Some g)
    (Hdatum : G.datum g = d)
    (Hdistinct : NoDup (map Node.id (World.data w))) :
  exists added,
    World.pending (animateNodeEntrance node d i w) = World.pending w ++ added
    /\ Forall (entranceAgrees w i) added.
Proof.
  unfold animateNodeEntrance. rewrite Hnode, Hgroup.
  eexists. split; [reflexivity|].
  assert (Hd' : World.data w !! G.datum g = Some dn) by (by rewrite Hdatum).
  assert (Hi : 0 <= INR i) by apply pos_INR.
  unfold entranceAgrees, ENTRANCE_ANIMATION_DELAY, ENTRANCE_ANIMATION_DURATION,
    OPACITY_ANIMATION_DURATION, SUBTITLE_DELAY_OFFSET.
  repeat (apply Forall_app; split).
  - constructor; [|constructor]. simpl. split; [lra|]. split; [lra|]. done.
  - apply Forall_forall. intros s Hs.
    apply list_elem_of_fmap in Hs as (c & -> & Hc).
    cbn [s_ref s_delay s_duration s_target].
    split; [lra|]. split; [lra|]. intros _.
    apply selectAll_elem in Hc as (e & He & Hcirc).
    exists (circleRadius e (Node.r dn)). split.
    + unfold evalTarget. simpl. rewrite Hgroup. simpl. rewrite He. simpl.
      by rewrite Hnode.
    + rewrite (tick_child _ _ _ _ _ _ _ Hgroup Hd' He).
      destruct e; try discriminate. reflexivity.
  - apply Forall_forall. intros s Hs. apply list_elem_of_In in Hs.
    apply in_flat_map in Hs as (c & Hc & Hs). apply list_elem_of_In in Hc.
    apply selectAll_elem in Hc as (e & He & Himg).
    destruct e as [| href x0 y0 w0 h0 cp fl |]; try discriminate.
    simpl in Hs.
    destruct Hs as [<-|[<-|[<-|[<-|[]]]]];
      cbn [s_ref s_delay s_duration s_target fst snd];
      (split; [lra|]); (split; [lra|]); intros _;
      (eexists; split; [reflexivity|]);
      rewrite (tick_child _ _ _ _ _ _ _ Hgroup Hd' He); reflexivity.
  - destruct (list_find _ _) as [[k c]|] eqn:Hfind; [|constructor].
    constructor; [|constructor]. cbn [s_ref s_delay s_duration s_target].
    split; [lra|]. split; [lra|]. intros _.
    eexists. split; [reflexivity|].
    apply list_find_Some in Hfind as (Hk & Hid & _).
    unfold getAttr, updateVisualsOnTick. simpl.
    change (map (updateClipPath (World.data w)) (Svg.defs (World.svg w)))
      with (updateClipPath (World.data w) <$> Svg.defs (World.svg w)).
    rewrite list_lookup_fmap, Hk. simpl. f_equal.
    unfold updateClipPath. rewrite Hid, replace_clip_prefix.
    by rewrite (find_by_id _ d dn Hdistinct Hnode).
  - destruct (NodeType.eqb (Node.type dn) NodeType.title); [|constructor].
    apply Forall_app; split.
    + destruct (select _ _); [|constructor]. constructor; [|constructor].
      simpl. split; [lra|]. split; [lra|]. done.
    + destruct (select _ _); [|constructor]. constructor; [|constructor].
      simpl. split; [lra|]. split; [lra|]. done.
Qed.

Lemma entrance_agrees_with_render_sync_witness :
  exists added,
    World.pending (animateNodeEntrance 0 0 0 exampleWorld) = added
    /\ Forall (entranceAgrees exampleWorld 0) added.
Proof.
  assert (Hdistinct : NoDup (map Node.id (World.data exampleWorld))).
  { simpl. apply NoDup_singleton. }
  destruct (entrance_agrees_with_render_sync exampleWorld 0 0 0 exampleNode
              (createNodeGroup 0 exampleNode) eq_refl eq_refl eq_refl Hdistinct)
    as (added & Hp & Hall).
  exists added. split; [exact Hp|exact Hall].
Defined.

(** ** Clicks *)

Lemma pretty_N_go_nonempty x s : s <> "" -> pretty_N_go x s <> "".
Proof.
  revert s. induction (N.lt_wf_0 x) as [x _ IH]; intros s Hs.
  assert (x = 0 \/ 0 < x)%N as [->|Hx] by lia.
  - by rewrite pretty_N_go_0.
  - rewrite pretty_N_go_step by done. apply IH; [by apply N.div_lt|done].
Qed.

Lemma pretty_N_nonempty (x : N) : pretty x <> "".
Proof.
  unfold pretty, pretty_N. case_decide; [done|].
  rewrite pretty_N_go_step by lia. by apply pretty_N_go_nonempty.
Qed.

Lemma pretty_Z_nonempty (z : Z) : pretty z <> "".
Proof.
  destruct z as [|p|p]; unfold pretty, pretty_Z; [done| |done].
  apply pretty_N_nonempty.
Qed.

Lemma handleNodeClick_initializeNode i d :
  handleNodeClick (initializeNode i d) = handleNodeClick d.
Proof.
  unfold handleNodeClick, initializeNode.
  destruct (Node.fx d), (Node.fy d), (Node.x d), (Node.y d), (Node.vx d), (Node.vy d);
    reflexivity.
Qed.

Lemma clickResolves_initializeNode groups i d :
  clickResolves groups d -> clickResolves groups (initializeNode i d).
Proof.
  unfold clickResolves.
  rewrite initializeNode_type, initializeNode_group, handleNodeClick_initializeNode.
  done.
Qed.

Lemma click_album groups g a u :
  g ∈ groups -> a ∈ Group.albums g -> clickResolves groups (albumNodeWith a g u).
Proof.
  intros Hg Ha. unfold clickResolves. simpl. exists g, a.
  split; [done|]. split; [done|]. split; [done|].
  unfold handleNodeClick. simpl.
  rewrite bool_decide_eq_false_2 by apply pretty_Z_nonempty. done.
Qed.

Lemma click_artist groups g a0 u :
  g ∈ groups -> Group.albums g <> [] -> clickResolves groups (artistNodeWith a0 g u).
Proof.
  intros Hg Ha. unfold clickResolves. simpl. exists g.
  split; [done|]. split; [done|]. split; [done|].
  unfold handleNodeClick. simpl. by destruct (bool_decide (Group.id g = "")).
Qed.

Lemma albumNodes_click groups rand g albums k :
  g ∈ groups -> (forall a, a ∈ albums -> a ∈ Group.albums g) ->
  Forall (clickResolves groups) (albumNodes rand g albums k).
Proof.
  intros Hg. revert k. induction albums as [|a l IH]; intros k Hsub; simpl.
  - constructor.
  - constructor.
    + apply click_album; [done|]. apply Hsub, elem_of_cons. by left.
    + apply IH. intros a' Ha'. apply Hsub, elem_of_cons. by right.
Qed.

Lemma groupNodes_click groups rand filter g k :
  g ∈ groups -> Forall (clickResolves groups) (fst (groupNodes rand filter g k)).
Proof.
  intros Hg. unfold groupNodes.
  set (al := if allowsAlbums filter
             then albumNodes rand g (Group.albums g) k else []).
  assert (Hal : Forall (clickResolves groups) al).
  { unfold al. destruct (allowsAlbums filter); [|constructor].
    by apply albumNodes_click. }
  destruct (allowsArtists filter), (Group.albums g) as [|a0 l] eqn:E; simpl; try done.
  apply Forall_app. split; [done|]. constructor; [|constructor].
  apply click_artist; [done|]. by rewrite E.
Qed.

Lemma nodesFrom_click all rand filter groups k :
  (forall g, g ∈ groups -> g ∈ all) ->
  Forall (clickResolves all) (fst (nodesFrom rand filter groups k)).
Proof.
  revert k. induction groups as [|g gs IH]; intros k Hsub; simpl.
  - constructor.
  - pose proof (groupNodes_click all rand filter g k) as Hg.
    destruct (groupNodes rand filter g k) as [here k1]. specialize (IH k1).
    destruct (nodesFrom rand filter gs k1) as [rest k2]. simpl in *.
    apply Forall_app. split.
    + apply Hg, Hsub, elem_of_cons. by left.
    + apply IH. intros g' Hg'. apply Hsub, elem_of_cons. by right.
Qed.

Lemma step_click w ev j d :
  World.data w !! j = Some d ->
  exists d', World.data (step w ev) !! j = Some d'
    /\ handleNodeClick d' = handleNodeClick d.
Proof.
  intros Hd. destruct ev as [g|g|k t]; simpl.
  - unfold mouseenter. destruct (listens g w) as [i|]; [|by exists d].
    destruct (World.data w !! i) as [di|] eqn:Hi.
    + destruct (handleNodeHover_data g i w di Hi) as (-> & _).
      destruct (decide (i = j)) as [->|Hne].
      * rewrite list_lookup_insert_eq by (by eapply lookup_lt_Some).
        assert (di = d) as -> by congruence.
        eexists. split; [reflexivity|].
        by destruct (negb (truthy (Node.originalR d))).
      * rewrite list_lookup_insert_ne by done. by exists d.
    + unfold handleNodeHover. rewrite Hi. by exists d.
  - unfold mouseleave. destruct (listens g w) as [i|]; [|by exists d].
    unfold handleNodeLeave. destruct (World.data w !! i); by exists d.
  - unfold tweenFrame. destruct (World.tweens w !! k) as [tw|]; [|by exists d].
    destruct (World.data w !! tw_node tw) as [dn|] eqn:Hn; [|by exists d].
    simpl. destruct (decide (tw_node tw = j)) as [<-|Hne].
    + rewrite list_lookup_insert_eq by (by eapply lookup_lt_Some).
      assert (dn = d) as -> by congruence. eexists. by split.
    + rewrite list_lookup_insert_ne by done. by exists d.
Qed.

Lemma play_click actions w j d :
  World.data w !! j = Some d ->
  exists d', World.data (play actions w) !! j = Some d'
    /\ handleNodeClick d' = handleNodeClick d.
Proof.
  intros Hd. induction actions as [|a actions IH] using rev_ind; [by exists d|].
  destruct IH as (d1 & Hd1 & Hc1). rewrite play_snoc.
  destruct a as [ev|ev|]; cbn [act].
  - destruct (step_click (play actions w) ev j d1 Hd1) as (d2 & Hd2 & Hc2).
    exists d2. split; [done|]. congruence.
  - destruct (transitionStep_frame (play actions w) ev) as (-> & _). by exists d1.
  - by exists d1.
Qed.

(** X9. Where a click leads.  In a mounted section, a click on the
    title navigates nowhere; a click on an album node always navigates,
    to [/artist/<group id>?album=<album id>] for an album of a catalog
    group and that group; a click on an artist node navigates to
    [/artist/<group id>] for a catalog group that has an album, except
    that it does nothing when the group id is the empty string.  Hovers,
    frames and ticks do not change where a click leads. *)
Theorem clicks_resolve_to_catalog (rand : nat -> R) (groups : list Group.t)
    (filter : FilterType.t) (k : nat) (actions : list Action) :
  exists w, render rand groups filter k = Some w
    /\ Forall (clickResolves groups) (World.data w)
    /\ Forall2 (fun d d' => handleNodeClick d' = handleNodeClick d)
               (World.data w) (World.data (play actions w)).
Proof.
  destruct (render_spec rand groups filter k) as (items & k' & w & _ & Hitems & Hr & Hm).
  destruct (mount_spec groups items) as (w1 & Hw1 & Hdata & _); [by rewrite Hitems|].
  assert (w1 = w) as -> by congruence.
  exists w. split; [exact Hr|]. split.
  - rewrite Hdata. apply Forall_lookup. intros i d Hd.
    rewrite list_lookup_imap in Hd.
    destruct (items !! i) as [d0|] eqn:Hd0; simpl in Hd; [|done]. injection Hd as <-.
    apply clickResolves_initializeNode.
    rewrite Hitems in Hd0. destruct i as [|i]; simpl in Hd0.
    + injection Hd0 as <-. reflexivity.
    + pose proof (nodesFrom_click groups rand filter groups k (fun g H => H)) as Hall.
      by eapply Forall_lookup_1 in Hall.
  - apply Forall2_same_length_lookup. split.
    + assert (Hlen : forall acts, length (World.data (play acts w))
                                  = length (World.data w)).
      { intros acts. induction acts as [|a acts IH] using rev_ind; [done|].
        rewrite play_snoc. destruct a as [ev|ev|]; cbn [act].
        - by rewrite step_length.
        - by destruct (transitionStep_frame (play acts w) ev) as (-> & _).
        - done. }
      by rewrite Hlen.
    + intros i d d' Hd Hd'.
      destruct (play_click actions w i d Hd) as (d2 & Hd2 & Hc). congruence.
Qed.

(** ** The artist page *)

Lemma find_first_group (groupsData : list Group.t) j g id :
  groupsData !! j = Some g ->
  Group.id g = id ->
  (forall j' g', (j' < j)%nat -> groupsData !! j' = Some g' -> Group.id g' <> id) ->
  find (fun g => bool_decide (Some (Group.id g) = Some id)) groupsData = Some g.
Proof.
  revert j. induction groupsData as [|g0 gs IH]; intros j Hj Hid Hfirst; [done|].
  destruct j as [|j]; simpl in *.
  - injection Hj as ->. rewrite bool_decide_eq_true_2; [done|by rewrite Hid].
  - rewrite bool_decide_eq_false_2.
    + apply (IH j Hj Hid). intros j' g' Hlt Hg'. apply (Hfirst (S j') g'); [lia|done].
    + intros [= Heq]. by apply (Hfirst 0%nat g0); [lia| |].
Qed.

Lemma find_no_group (groupsData : list Group.t) (id : option string) :
  Forall (fun g => Some (Group.id g) <> id) groupsData ->
  find (fun g => bool_decide (Some (Group.id g) = id)) groupsData = None.
Proof.
  induction 1 as [|g gs Hg _ IH]; simpl; [done|].
  by rewrite bool_decide_eq_false_2.
Qed.

Lemma filter_all {A} (p : A -> bool) (l : list A) :
  (forall a, a ∈ l -> p a = true) -> List.filter p l = l.
Proof.
  induction l as [|a l IH]; intros H; simpl; [done|].
  rewrite H by (apply elem_of_cons; by left). f_equal. apply IH.
  intros a' Ha'. apply H, elem_of_cons. by right.
Qed.

Lemma filter_delete_unique (albums : list Album.t) i a :
  NoDup (map Album.id albums) ->
  albums !! i = Some a ->
  List.filter
    (fun album => negb (bool_decide (Some (pretty (Album.id album))
                                     = Some (pretty (Album.id a))))) albums
  = delete i albums.
Proof.
  revert i. induction albums as [|a0 l IH]; intros i Hnd Hi; [done|].
  simpl in Hnd. apply NoDup_cons in Hnd as [Hnot Hnd].
  destruct i as [|i]; simpl in *.
  - injection Hi as ->. rewrite bool_decide_eq_true_2 by done. simpl.
    apply filter_all. intros a' Ha'. apply negb_true_iff, bool_decide_eq_false_2.
    intros [= Heq]. apply (inj pretty) in Heq. apply Hnot. rewrite <- Heq.
    apply list_elem_of_In, in_map. by apply list_elem_of_In.
  - rewrite bool_decide_eq_false_2; simpl.
    + f_equal. by apply IH.
    + intros [= Heq]. apply (inj pretty) in Heq. apply Hnot. rewrite Heq.
      apply list_elem_of_In, in_map, list_elem_of_In. apply list_elem_of_lookup. eauto.
Qed.

Lemma find_unique_album (albums : list Album.t) i a :
  NoDup (map Album.id albums) ->
  albums !! i = Some a ->
  find (fun album => bool_decide (Some (pretty (Album.id album))
                                  = Some (pretty (Album.id a)))) albums
  = Some a.
Proof.
  revert i. induction albums as [|a0 l IH]; intros i Hnd Hi; [done|].
  simpl in Hnd. apply NoDup_cons in Hnd as [Hnot Hnd].
  destruct i as [|i]; simpl in *.
  - injection Hi as ->. by rewrite bool_decide_eq_true_2.
  - rewrite bool_decide_eq_false_2; [by eapply IH|].
    intros [= Heq]. apply (inj pretty) in Heq. apply Hnot. rewrite Heq.
    apply list_elem_of_In, in_map, list_elem_of_In. apply list_elem_of_lookup. eauto.
Qed.

(** X10. What the artist page shows.  The page renders the navigation
    bar, whose search reads the group context: rendered with no
    [GroupProvider] above it, the page raises, whatever the address.
    Under a provider, an id that no group has, or no id, gives the "not
    found" page.  Otherwise the page shows the first group with the id;
    the selected album, if any, is an album of the group and is not
    among the other albums; every album of the group is among the others
    or has the id of the selected one; without a selected album all
    albums are listed as others; without an [album] parameter the first
    album is selected.  When the album ids of the group are distinct,
    the [album] parameter that a click on an album node puts in the
    address selects that album and lists all the others. *)
Theorem artist_page_albums (groupsData : list Group.t) (id : string)
    (albumId : option string) :
  (forall route, ArtistPage.Artist None groupsData route albumId = None)
  /\ forall context,
      (Forall (fun g => Group.id g <> id) groupsData ->
       ArtistPage.Artist (Some context) groupsData (Some id) albumId
       = Some ArtistPage.NotFound)
      /\ ArtistPage.Artist (Some context) groupsData None albumId
         = Some ArtistPage.NotFound
      /\ (forall j g,
            groupsData !! j = Some g ->
            Group.id g = id ->
            (forall j' g', (j' < j)%nat -> groupsData !! j' = Some g' ->
               Group.id g' <> id) ->
            exists sel others,
              ArtistPage.Artist (Some context) groupsData (Some id) albumId
              = Some (ArtistPage.Page g sel others)
              /\ (forall a, sel = Some a -> a ∈ Group.albums g /\ a ∉ others)
              /\ (sel = None -> others = Group.albums g)
              /\ (forall a, a ∈ Group.albums g ->
                    a ∈ others \/ exists s, sel = Some s /\ Album.id a = Album.id s)
              /\ (forall a, a ∈ others -> a ∈ Group.albums g)
              /\ (truthyString albumId = false -> sel = Group.albums g !! 0%nat)
              /\ (forall i a,
                    NoDup (map Album.id (Group.albums g)) ->
                    Group.albums g !! i = Some a ->
                    albumId = Some (pretty (Album.id a)) ->
                    sel = Some a /\ others = delete i (Group.albums g))).
Proof.
  split.
  { intros route. unfold ArtistPage.Artist.
    destruct (find _ groupsData); reflexivity. }
  intros context. split; [|split].
  - intros Hnone. unfold ArtistPage.Artist. rewrite find_no_group; [done|].
    eapply Forall_impl; [exact Hnone|]. intros g Hg [= ?]. done.
  - unfold ArtistPage.Artist. rewrite find_no_group; [done|].
    apply Forall_forall. intros g _. done.
  - intros j g Hj Hid Hfirst. unfold ArtistPage.Artist.
    rewrite (find_first_group _ j g id Hj Hid Hfirst). simpl.
    eexists _, _. split; [reflexivity|].
    destruct (truthyString albumId) eqn:Htr.
    + (* an [album] parameter *)
      split; [|split; [|split; [|split; [|split]]]].
      * intros a Ha. apply find_some in Ha as [Hin Hp].
        apply bool_decide_eq_true_1 in Hp. split; [by apply list_elem_of_In|].
        intros Hin'. apply list_elem_of_In, filter_In in Hin' as [_ Hq].
        by rewrite bool_decide_eq_true_2 in Hq.
      * intros Hnone. apply filter_all. intros a Ha.
        apply negb_true_iff, bool_decide_eq_false_2. intros Heq.
        assert (In a (Group.albums g)) as Hin by (by apply list_elem_of_In).
        pose proof (find_none _ _ Hnone a Hin) as Hf. simpl in Hf.
        by rewrite bool_decide_eq_true_2 in Hf.
      * intros a Ha.
        destruct (bool_decide (Some (pretty (Album.id a)) = albumId)) eqn:Hb.
        -- right. apply bool_decide_eq_true_1 in Hb.
           destruct (find _ (Group.albums g)) as [s|] eqn:Hs.
           ++ exists s. split; [done|]. apply find_some in Hs as [_ Hp].
              apply bool_decide_eq_true_1 in Hp. rewrite <- Hb in Hp.
              injection Hp as Hp. by apply (inj pretty) in Hp.
           ++ exfalso.
              assert (In a (Group.albums g)) as Hin by (by apply list_elem_of_In).
              pose proof (find_none _ _ Hs a Hin) as Hf. simpl in Hf.
              by rewrite bool_decide_eq_true_2 in Hf.
        -- left. apply list_elem_of_In, filter_In. split; [by apply list_elem_of_In|].
           by rewrite Hb.
      * intros a Ha. apply list_elem_of_In, filter_In in Ha as [Ha _].
        by apply list_elem_of_In.
      * done.
      * intros i a Hnd Hi ->. split.
        -- by apply (find_unique_album _ i).
        -- by apply filter_delete_unique.
    + (* no [album] parameter *)
      split; [|split; [|split; [|split; [|split]]]].
      * intros a Ha. split; [apply list_elem_of_lookup; eauto|].
        intros Hin'. apply list_elem_of_In, filter_In in Hin' as [_ Hq].
        rewrite Ha in Hq. simpl in Hq. by rewrite bool_decide_eq_true_2 in Hq.
      * intros Hnone. destruct (Group.albums g); [done|discriminate].
      * intros a Ha.
        destruct (Group.albums g !! 0%nat) as [s|] eqn:Hs.
        -- destruct (decide (Album.id a = Album.id s)) as [Heq|Hne].
           ++ right. by exists s.
           ++ left. apply list_elem_of_In, filter_In. split; [by apply list_elem_of_In|].
              simpl. apply negb_true_iff, bool_decide_eq_false_2. by intros [= ?].
        -- destruct (Group.albums g); [by apply elem_of_nil in Ha|discriminate].
      * intros a Ha. apply list_elem_of_In, filter_In in Ha as [Ha _].
        by apply list_elem_of_In.
      * done.
      * intros i a _ _ ->. simpl in Htr.
        rewrite bool_decide_eq_false_2 in Htr by apply pretty_Z_nonempty. done.
Qed.

Lemma artist_page_albums_witness :
  let a1 := Album.mk 1 "one" "s1" "a1" in
  let a2 := Album.mk 2 "two" "s2" "a2" in
  let g := Group.mk "A" "a" [a1; a2] in
  let context := Some (GroupContext.GroupProvider [g]) in
  ArtistPage.Artist None [g] (Some "A") (Some "2") = None
  /\ ArtistPage.Artist context [g] (Some "B") (Some "2") = Some ArtistPage.NotFound
  /\ ArtistPage.Artist context [g] (Some "A") (Some "2")
     = Some (ArtistPage.Page g (Some a2) [a1]).
Proof.
  intros a1 a2 g context.
  destruct (artist_page_albums [g] "B" (Some "2")) as (_ & HB).
  destruct (HB (GroupContext.GroupProvider [g])) as (Hnone & _).
  destruct (artist_page_albums [g] "A" (Some "2")) as (Hraise & HA).
  destruct (HA (GroupContext.GroupProvider [g])) as (_ & _ & Hfound).
  split; [apply Hraise|]. split.
  - apply Hnone. constructor; [done|constructor].
  - destruct (Hfound 0%nat g eq_refl eq_refl) as (sel & others & Hpage & _ & _ & _ & _ & _ & Hsel).
    { intros j' g' Hlt. lia. }
    destruct (Hsel 1%nat a2) as [-> ->]; [|done|done|exact Hpage].
    apply (bool_decide_unpack _). vm_compute. exact I.
Defined.

(** * The full-screen slideshow *)

Lemma slideshow_changeSlide_inRange items i s :
  (0 <= i < Z.of_nat (length items))%Z ->
  Slideshow.inRange items s -> Slideshow.inRange items (Slideshow.changeSlide i s).
Proof.
  intros Hi [Hc Ht]. unfold Slideshow.changeSlide.
  destruct (i =? Slideshow.currentSlide s)%Z; [done|].
  split; [done|]. simpl. apply Forall_app. split; [done|].
  constructor; [done|constructor].
Qed.

Lemma slideshow_next_index items s :
  Slideshow.inRange items s ->
  let n := Z.of_nat (length items) in
  (Z.rem (Slideshow.currentSlide s + 1) n = (Slideshow.currentSlide s + 1) mod n
   /\ 0 <= Z.rem (Slideshow.currentSlide s + 1) n < n)%Z.
Proof.
  intros [Hc _] n. fold n in Hc.
  rewrite Z.rem_mod_nonneg by lia. split; [done|]. apply Z.mod_pos_bound. lia.
Qed.

Lemma slideshow_previous_index items s :
  Slideshow.inRange items s ->
  let n := Z.of_nat (length items) in
  (Z.rem (Slideshow.currentSlide s - 1 + n) n = (Slideshow.currentSlide s - 1) mod n
   /\ 0 <= Z.rem (Slideshow.currentSlide s - 1 + n) n < n)%Z.
Proof.
  intros [Hc _] n. fold n in Hc.
  rewrite Z.rem_mod_nonneg by lia.
  replace (Slideshow.currentSlide s - 1 + n)%Z
    with (Slideshow.currentSlide s - 1 + 1 * n)%Z by lia.
  rewrite Z_mod_plus_full. split; [done|]. apply Z.mod_pos_bound. lia.
Qed.

Lemma slideshow_step_inRange items s ev :
  Slideshow.possible items ev ->
  Slideshow.inRange items s -> Slideshow.inRange items (Slideshow.step items s ev).
Proof.
  intros Hev Hs.
  assert (Hnext : Slideshow.inRange items (Slideshow.goToNext items s)).
  { apply slideshow_changeSlide_inRange; [|done].
    by destruct (slideshow_next_index items s Hs). }
  assert (Hprev : Slideshow.inRange items (Slideshow.goToPrevious items s)).
  { apply slideshow_changeSlide_inRange; [|done].
    by destruct (slideshow_previous_index items s Hs). }
  destruct ev as [| |index|key| | |k]; simpl; try done.
  - apply slideshow_changeSlide_inRange; [|done]. simpl in Hev. lia.
  - unfold Slideshow.handleKeyDown. repeat case_bool_decide; done.
  - destruct Hs as [Hc Ht]. unfold Slideshow.timeout.
    destruct (Slideshow.timeouts s !! k) as [i|] eqn:Hk; [|done].
    split; simpl.
    + by eapply Forall_lookup_1 in Ht.
    + by apply Forall_delete.
Qed.

Lemma slideshow_run_snoc items evs ev s :
  Slideshow.run items (evs ++ [ev]) s
  = Slideshow.step items (Slideshow.run items evs s) ev.
Proof. unfold Slideshow.run. by rewrite foldl_app. Qed.

(** X11. The slideshow never leaves its items.  With at least one item,
    after any sequence of clicks on the arrows and dots, keys, pointer
    moves and timeouts, the current slide is the index of an item, so
    the render finds its item and the click its link; every pending
    timeout is about an existing slide; the progress bar is above 0 and
    at most 100 percent. *)
Theorem slideshow_stays_in_range (items : list Slideshow.CarouselItem)
    (evs : list Slideshow.Event)
    (Hitems : items <> [])
    (Hevs : Forall (Slideshow.possible items) evs) :
  let s := Slideshow.run items evs Slideshow.initial in
  Slideshow.inRange items s
  /\ (exists item, Slideshow.currentItem items s = Some item
        /\ Slideshow.handleSlideClick items s = Some (Slideshow.link item))
  /\ 0 < Slideshow.progress items s <= 100.
Proof.
  intros s.
  assert (Hn : (0 < Z.of_nat (length items))%Z).
  { destruct items; [done|]. simpl. lia. }
  assert (Hs : Slideshow.inRange items s).
  { unfold s. induction evs as [|ev evs IH] using rev_ind.
    - split; simpl; [lia|constructor].
    - apply Forall_app in Hevs as [Hevs Hev]. apply Forall_inv in Hev.
      rewrite slideshow_run_snoc. apply slideshow_step_inRange; [done|]. by apply IH. }
  split; [exact Hs|]. destruct Hs as [Hc _]. split.
  - unfold Slideshow.handleSlideClick, Slideshow.currentItem.
    destruct (0 <=? Slideshow.currentSlide s)%Z eqn:Hle; [|lia].
    destruct (items !! Z.to_nat (Slideshow.currentSlide s)) as [item|] eqn:Hi.
    + by exists item.
    + apply lookup_ge_None in Hi. lia.
  - unfold Slideshow.progress.
    set (c := Slideshow.currentSlide s) in *. set (n := Z.of_nat (length items)) in *.
    assert (0 < IZR n) by (by apply IZR_lt).
    assert (0 < IZR (c + 1)) by (apply IZR_lt; lia).
    assert (IZR (c + 1) <= IZR n) by (apply IZR_le; lia).
    split.
    + apply Rmult_lt_0_compat; [|lra]. by apply Rdiv_lt_0_compat.
    + assert (IZR (c + 1) / IZR n <= 1); [|lra].
      apply (Rmult_le_reg_r (IZR n)); [done|].
      unfold Rdiv. rewrite Rmult_assoc, Rinv_l by lra. lra.
Qed.

Lemma slideshow_stays_in_range_witness :
  let item := Slideshow.mkItem 1 "t" "d" "i.jpg" "/link" "b" in
  let s := Slideshow.run [item; item]
             [Slideshow.ClickNext; Slideshow.Timeout 0; Slideshow.ClickDot 1]
             Slideshow.initial in
  Slideshow.inRange [item; item] s.
Proof.
  intros item.
  assert (Hevs : Forall (Slideshow.possible [item; item])
                   [Slideshow.ClickNext; Slideshow.Timeout 0; Slideshow.ClickDot 1]).
  { constructor; [exact I|]. constructor; [exact I|].
    constructor; [simpl; lia|constructor]. }
  exact (proj1 (slideshow_stays_in_range [item; item] _ ltac:(discriminate) Hevs)).
Defined.

(** A change of slide that has no other timeout pending, followed by its
    timeout. *)
Lemma slideshow_change_then_timeout i s :
  Slideshow.timeouts s = [] ->
  Slideshow.timeout 0 (Slideshow.changeSlide i s)
  = if (i =? Slideshow.currentSlide s)%Z then s
    else Slideshow.mk i true (Slideshow.isPaused s) [].
Proof.
  intros Ht. unfold Slideshow.changeSlide.
  destruct (i =? Slideshow.currentSlide s)%Z.
  - unfold Slideshow.timeout. by rewrite Ht.
  - unfold Slideshow.timeout. simpl. by rewrite Ht.
Qed.

Lemma slideshow_next_then_timeout items s :
  Slideshow.inRange items s ->
  Slideshow.timeouts s = [] ->
  let s' := Slideshow.timeout 0 (Slideshow.goToNext items s) in
  Slideshow.currentSlide s'
  = ((Slideshow.currentSlide s + 1) mod Z.of_nat (length items))%Z
  /\ Slideshow.timeouts s' = []
  /\ Slideshow.isPaused s' = Slideshow.isPaused s
  /\ Slideshow.inRange items s'.
Proof.
  intros Hs Ht s'. unfold s', Slideshow.goToNext.
  rewrite slideshow_change_then_timeout by done.
  destruct (slideshow_next_index items s Hs) as [Hrem Hb]. cbv zeta in *.
  set (i := Z.rem (Slideshow.currentSlide s + 1) (Z.of_nat (length items))) in *.
  destruct (i =? Slideshow.currentSlide s)%Z eqn:Heq.
  - apply Z.eqb_eq in Heq. rewrite <- Hrem, Heq. done.
  - simpl. split; [exact Hrem|]. split; [done|]. split; [done|].
    split; simpl; [exact Hb|constructor].
Qed.

Lemma slideshow_previous_then_timeout items s :
  Slideshow.inRange items s ->
  Slideshow.timeouts s = [] ->
  let s' := Slideshow.timeout 0 (Slideshow.goToPrevious items s) in
  Slideshow.currentSlide s'
  = ((Slideshow.currentSlide s - 1) mod Z.of_nat (length items))%Z
  /\ Slideshow.timeouts s' = []
  /\ Slideshow.isPaused s' = Slideshow.isPaused s
  /\ Slideshow.inRange items s'.
Proof.
  intros Hs Ht s'. unfold s', Slideshow.goToPrevious.
  rewrite slideshow_change_then_timeout by done.
  destruct (slideshow_previous_index items s Hs) as [Hrem Hb]. cbv zeta in *.
  set (i := Z.rem (Slideshow.currentSlide s - 1 + Z.of_nat (length items))
                  (Z.of_nat (length items))) in *.
  destruct (i =? Slideshow.currentSlide s)%Z eqn:Heq.
  - apply Z.eqb_eq in Heq. rewrite <- Hrem, Heq. done.
  - simpl. split; [exact Hrem|]. split; [done|]. split; [done|].
    split; simpl; [exact Hb|constructor].
Qed.

(** X12. Next and previous undo each other.  From a slide in range with
    no fade pending, going to the next slide and, once it shows, to the
    previous one (or the other way round) comes back to the slide one
    started from, with no timeout left. *)
Theorem slideshow_next_previous_round_trip (items : list Slideshow.CarouselItem)
    (s : Slideshow.State)
    (Hs : Slideshow.inRange items s)
    (Hidle : Slideshow.timeouts s = []) :
  let there_and_back :=
    Slideshow.run items
      [Slideshow.ClickNext; Slideshow.Timeout 0;
       Slideshow.ClickPrevious; Slideshow.Timeout 0] s in
  let back_and_there :=
    Slideshow.run items
      [Slideshow.ClickPrevious; Slideshow.Timeout 0;
       Slideshow.ClickNext; Slideshow.Timeout 0] s in
  Slideshow.currentSlide there_and_back = Slideshow.currentSlide s
  /\ Slideshow.timeouts there_and_back = []
  /\ Slideshow.currentSlide back_and_there = Slideshow.currentSlide s
  /\ Slideshow.timeouts back_and_there = [].
Proof.
  cbv zeta. unfold Slideshow.run. simpl.
  destruct (slideshow_next_then_timeout items s Hs Hidle) as (Hc1 & Ht1 & _ & Hr1).
  destruct (slideshow_previous_then_timeout items _ Hr1 Ht1) as (Hc2 & Ht2 & _ & _).
  destruct (slideshow_previous_then_timeout items s Hs Hidle) as (Hc3 & Ht3 & _ & Hr3).
  destruct (slideshow_next_then_timeout items _ Hr3 Ht3) as (Hc4 & Ht4 & _ & _).
  cbv zeta in *. destruct Hs as [Hc _].
  set (c := Slideshow.currentSlide s) in *. set (n := Z.of_nat (length items)) in *.
  split; [|split; [done|split; [|done]]].
  - rewrite Hc2, Hc1. rewrite Zminus_mod_idemp_l.
    replace (c + 1 - 1)%Z with c by lia. apply Z.mod_small. lia.
  - rewrite Hc4, Hc3. rewrite Zplus_mod_idemp_l.
    replace (c - 1 + 1)%Z with c by lia. apply Z.mod_small. lia.
Qed.

Lemma slideshow_next_previous_round_trip_witness :
  let item := Slideshow.mkItem 1 "t" "d" "i.jpg" "/link" "b" in
  Slideshow.currentSlide
    (Slideshow.run [item; item; item]
       [Slideshow.ClickNext; Slideshow.Timeout 0;
        Slideshow.ClickPrevious; Slideshow.Timeout 0] Slideshow.initial) = 0%Z.
Proof.
  intros item.
  assert (Hs : Slideshow.inRange [item; item; item] Slideshow.initial).
  { split; simpl; [lia|constructor]. }
  exact (proj1 (slideshow_next_previous_round_trip [item; item; item]
                  Slideshow.initial Hs eq_refl)).
Defined.

(** X13. Two quick clicks advance by one slide only.  With at least two
    items and no fade pending, a second click on "next" before the
    timeout of the first has run asks for the same slide again: while
    the two timeouts are pending the slide has not changed, and after
    both have run the slideshow is one slide further, not two. *)
Theorem slideshow_double_click_advances_once (items : list Slideshow.CarouselItem)
    (s : Slideshow.State)
    (Hs : Slideshow.inRange items s)
    (Hidle : Slideshow.timeouts s = [])
    (Htwo : (2 <= length items)%nat) :
  let next := ((Slideshow.currentSlide s + 1) mod Z.of_nat (length items))%Z in
  let clicked := Slideshow.run items [Slideshow.ClickNext; Slideshow.ClickNext] s in
  let settled := Slideshow.run items [Slideshow.Timeout 0; Slideshow.Timeout 0] clicked in
  next <> Slideshow.currentSlide s
  /\ Slideshow.currentSlide clicked = Slideshow.currentSlide s
  /\ Slideshow.isVisible clicked = false
  /\ Slideshow.timeouts clicked = [next; next]
  /\ Slideshow.currentSlide settled = next
  /\ Slideshow.isVisible settled = true
  /\ Slideshow.timeouts settled = [].
Proof.
  intros next clicked settled.
  destruct (slideshow_next_index items s Hs) as [Hrem Hb]. cbv zeta in *.
  destruct Hs as [Hc _].
  assert (Hne : next <> Slideshow.currentSlide s).
  { unfold next. set (c := Slideshow.currentSlide s) in *.
    set (n := Z.of_nat (length items)) in *.
    assert (2 <= n)%Z by (unfold n; lia).
    destruct (decide (c + 1 < n)%Z).
    - rewrite Z.mod_small by lia. lia.
    - replace (c + 1)%Z with n by lia. rewrite Z_mod_same_full. lia. }
  assert (Hnext : forall s', Slideshow.currentSlide s' = Slideshow.currentSlide s ->
            Slideshow.goToNext items s'
            = Slideshow.mk (Slideshow.currentSlide s) false (Slideshow.isPaused s')
                (Slideshow.timeouts s' ++ [next])).
  { intros s' Hsame. unfold Slideshow.goToNext, Slideshow.changeSlide.
    rewrite Hsame, Hrem. fold next.
    destruct (next =? Slideshow.currentSlide s)%Z eqn:Heq;
      [by apply Z.eqb_eq in Heq|done]. }
  assert (Hclicked : clicked
            = Slideshow.mk (Slideshow.currentSlide s) false (Slideshow.isPaused s)
                [next; next]).
  { unfold clicked.
    change (Slideshow.run items [Slideshow.ClickNext; Slideshow.ClickNext] s)
      with (Slideshow.goToNext items (Slideshow.goToNext items s)).
    rewrite (Hnext s eq_refl). rewrite Hnext by reflexivity. simpl. by rewrite Hidle. }
  assert (Hsettled : settled
            = Slideshow.mk next true (Slideshow.isPaused s) []).
  { unfold settled. rewrite Hclicked. reflexivity. }
  split; [exact Hne|]. rewrite Hsettled, Hclicked. simpl. done.
Qed.

Lemma slideshow_double_click_advances_once_witness :
  let item := Slideshow.mkItem 1 "t" "d" "i.jpg" "/link" "b" in
  Slideshow.currentSlide
    (Slideshow.run [item; item; item] [Slideshow.Timeout 0; Slideshow.Timeout 0]
       (Slideshow.run [item; item; item] [Slideshow.ClickNext; Slideshow.ClickNext]
          Slideshow.initial)) = (1 mod 3)%Z.
Proof.
  intros item.
  assert (Hs : Slideshow.inRange [item; item; item] Slideshow.initial).
  { split; simpl; [lia|constructor]. }
  destruct (slideshow_double_click_advances_once [item; item; item]
              Slideshow.initial Hs eq_refl) as (_ & _ & _ & _ & Hc & _).
  { simpl. lia. }
  exact Hc.
Defined.

(** X14. The slideshow is a cycle.  From a slide in range with no fade
    pending, [j] clicks on "next", each followed by its timeout, lead to
    the slide [(c + j) mod n]; as many clicks as there are items lead
    back to the slide one started from. *)
Theorem slideshow_next_cycles (items : list Slideshow.CarouselItem)
    (s : Slideshow.State) (j : nat)
    (Hs : Slideshow.inRange items s)
    (Hidle : Slideshow.timeouts s = []) :
  Slideshow.currentSlide (Slideshow.run items (Slideshow.nexts j) s)
  = ((Slideshow.currentSlide s + Z.of_nat j) mod Z.of_nat (length items))%Z
  /\ Slideshow.timeouts (Slideshow.run items (Slideshow.nexts j) s) = []
  /\ Slideshow.currentSlide
       (Slideshow.run items (Slideshow.nexts (length items)) s)
     = Slideshow.currentSlide s.
Proof.
  assert (Hgen : forall j s, Slideshow.inRange items s -> Slideshow.timeouts s = [] ->
            Slideshow.currentSlide (Slideshow.run items (Slideshow.nexts j) s)
            = ((Slideshow.currentSlide s + Z.of_nat j) mod Z.of_nat (length items))%Z
            /\ Slideshow.timeouts (Slideshow.run items (Slideshow.nexts j) s) = []).
  { clear. intros j. induction j as [|j IH]; intros s Hs Hidle.
    - simpl. split; [|done]. destruct Hs as [Hc _].
      rewrite Z.add_0_r. symmetry. apply Z.mod_small. lia.
    - destruct (slideshow_next_then_timeout items s Hs Hidle) as (Hc1 & Ht1 & _ & Hr1).
      cbv zeta in *.
      change (Slideshow.run items (Slideshow.nexts (S j)) s)
        with (Slideshow.run items (Slideshow.nexts j)
                (Slideshow.timeout 0 (Slideshow.goToNext items s))).
      destruct (IH _ Hr1 Ht1) as [Hc2 Ht2]. split; [|done].
      rewrite Hc2, Hc1, Zplus_mod_idemp_l. f_equal. lia. }
  destruct (Hgen j s Hs Hidle) as [H1 H2].
  destruct (Hgen (length items) s Hs Hidle) as [H3 _].
  split; [done|]. split; [done|]. rewrite H3. destruct Hs as [Hc _].
  replace (Slideshow.currentSlide s + Z.of_nat (length items))%Z
    with (Slideshow.currentSlide s + 1 * Z.of_nat (length items))%Z by lia.
  rewrite Z_mod_plus_full. apply Z.mod_small. lia.
Qed.

Lemma slideshow_next_cycles_witness :
  let item := Slideshow.mkItem 1 "t" "d" "i.jpg" "/link" "b" in
  Slideshow.currentSlide
    (Slideshow.run [item; item; item] (Slideshow.nexts 3) Slideshow.initial) = 0%Z.
Proof.
  intros item.
  assert (Hs : Slideshow.inRange [item; item; item] Slideshow.initial).
  { split; simpl; [lia|constructor]. }
  destruct (slideshow_next_cycles [item; item; item] Slideshow.initial 3 Hs eq_refl)
    as (_ & _ & Hback).
  exact Hback.
Defined.

(** * The album pile *)

Lemma indexOf_elem (index : Z) (l : list Z) :
  index ∈ l ->
  exists k, AlbumSelection.indexOf index l = Z.of_nat k
    /\ l !! k = Some index /\ (k < length l)%nat.
Proof.
  intros Hin. unfold AlbumSelection.indexOf.
  destruct (list_find (fun y => y = index) l) as [[k y]|] eqn:Hf.
  - apply list_find_Some in Hf as (Hk & -> & _). exists k.
    split; [done|]. split; [done|]. by eapply lookup_lt_Some.
  - apply list_find_None in Hf. exfalso.
    by eapply Forall_forall in Hf.
Qed.

(** X15. The selected album is on top of the pile.  Among the albums of
    the pile (indices below [albumsLength]) the selected one has the
    greatest z-index; an album that was selected before and is not
    selected now is above every album that never was. *)
Theorem selected_album_is_on_top (albumsLength : Z) (s : AlbumSelection.State)
    (i j : Z)
    (Hj : (0 <= j < albumsLength)%Z)
    (Hother : AlbumSelection.selectedAlbum s <> Some j) :
  (AlbumSelection.selectedAlbum s = Some i ->
   (AlbumSelection.getAlbumZIndex albumsLength j s
    < AlbumSelection.getAlbumZIndex albumsLength i s)%Z)
  /\ (i ∈ AlbumSelection.selectionHistory s ->
      j ∉ AlbumSelection.selectionHistory s ->
      (AlbumSelection.getAlbumZIndex albumsLength j s
       < AlbumSelection.getAlbumZIndex albumsLength i s)%Z).
Proof.
  assert (Hzj : (AlbumSelection.getAlbumZIndex albumsLength j s
                 < albumsLength
                   + Z.of_nat (length (AlbumSelection.selectionHistory s)) + 50)%Z).
  { unfold AlbumSelection.getAlbumZIndex.
    rewrite bool_decide_eq_false_2 by done. case_bool_decide as Hin.
    - destruct (indexOf_elem j _ Hin) as (k & -> & _ & Hk). lia.
    - lia. }
  split.
  - intros Hsel. unfold AlbumSelection.getAlbumZIndex at 2.
    rewrite bool_decide_eq_true_2 by done. lia.
  - intros Hi Hnot.
    assert (Hjz : AlbumSelection.getAlbumZIndex albumsLength j s = j).
    { unfold AlbumSelection.getAlbumZIndex.
      rewrite bool_decide_eq_false_2 by done. by rewrite bool_decide_eq_false_2. }
    rewrite Hjz. unfold AlbumSelection.getAlbumZIndex. case_bool_decide; [lia|].
    rewrite bool_decide_eq_true_2 by done.
    destruct (indexOf_elem i _ Hi) as (k & -> & _ & _). lia.
Qed.

Lemma selected_album_is_on_top_witness :
  let s := AlbumSelection.run 3
             [AlbumSelection.ClickAlbum 1; AlbumSelection.ClickAlbum 2]
             AlbumSelection.initial in
  (AlbumSelection.getAlbumZIndex 3 0 s < AlbumSelection.getAlbumZIndex 3 2 s)%Z
  /\ (AlbumSelection.getAlbumZIndex 3 0 s < AlbumSelection.getAlbumZIndex 3 1 s)%Z.
Proof.
  intros s.
  assert (Hj : (0 <= 0 < 3)%Z) by lia.
  assert (Hother : AlbumSelection.selectedAlbum s <> Some 0%Z) by (by vm_compute).
  split.
  - apply (proj1 (selected_album_is_on_top 3 s 2 0 Hj Hother)). reflexivity.
  - apply (proj2 (selected_album_is_on_top 3 s 1 0 Hj Hother)).
    + apply (bool_decide_unpack _). by vm_compute.
    + apply (bool_decide_unpack _). by vm_compute.
Defined.

(** X16. No two albums of the pile share a z-index. *)
Theorem album_z_indices_are_distinct (albumsLength : Z) (s : AlbumSelection.State)
    (i j : Z)
    (Hi : (0 <= i < albumsLength)%Z)
    (Hj : (0 <= j < albumsLength)%Z)
    (Hne : i <> j) :
  AlbumSelection.getAlbumZIndex albumsLength i s
  <> AlbumSelection.getAlbumZIndex albumsLength j s.
Proof.
  unfold AlbumSelection.getAlbumZIndex.
  set (h := AlbumSelection.selectionHistory s).
  destruct (decide (AlbumSelection.selectedAlbum s = Some i)) as [Hsi|Hsi];
    destruct (decide (AlbumSelection.selectedAlbum s = Some j)) as [Hsj|Hsj];
    rewrite ?(bool_decide_eq_true_2 _ Hsi), ?(bool_decide_eq_true_2 _ Hsj),
      ?(bool_decide_eq_false_2 _ Hsi), ?(bool_decide_eq_false_2 _ Hsj).
  - congruence.
  - case_bool_decide as Hin; [|lia].
    destruct (indexOf_elem j h Hin) as (k & -> & _ & Hk). lia.
  - case_bool_decide as Hin; [|lia].
    destruct (indexOf_elem i h Hin) as (k & -> & _ & Hk). lia.
  - case_bool_decide as Hini; case_bool_decide as Hinj; try lia.
    + destruct (indexOf_elem i h Hini) as (k & -> & Hk & _).
      destruct (indexOf_elem j h Hinj) as (k' & -> & Hk' & _).
      intros Heq. assert (k = k') by lia. subst k'. congruence.
    + destruct (indexOf_elem i h Hini) as (k & -> & _ & _). lia.
    + destruct (indexOf_elem j h Hinj) as (k & -> & _ & _). lia.
Qed.

Lemma album_z_indices_are_distinct_witness :
  let s := AlbumSelection.run 3
             [AlbumSelection.ClickAlbum 1; AlbumSelection.ClickAlbum 2]
             AlbumSelection.initial in
  AlbumSelection.getAlbumZIndex 3 1 s <> AlbumSelection.getAlbumZIndex 3 2 s.
Proof.
  intros s. apply album_z_indices_are_distinct; lia.
Defined.

Lemma setAdd_spec (index : Z) (prev : list Z) :
  NoDup prev ->
  NoDup (AlbumSelection.setAdd index prev)
  /\ index ∈ AlbumSelection.setAdd index prev
  /\ prev `prefix_of` AlbumSelection.setAdd index prev
  /\ forall x, x ∈ AlbumSelection.setAdd index prev -> x ∈ prev \/ x = index.
Proof.
  intros Hnd. unfold AlbumSelection.setAdd. case_bool_decide as Hin.
  - split; [done|]. split; [done|]. split; [done|]. by left.
  - split; [|split; [|split]].
    + apply NoDup_app. split; [done|]. split; [|apply NoDup_singleton].
      intros x Hx Hx'. apply list_elem_of_singleton in Hx'. by subst.
    + apply elem_of_app. right. by apply list_elem_of_singleton.
    + by apply prefix_app_r.
    + intros x Hx. apply elem_of_app in Hx as [?|Hx]; [by left|].
      right. by apply list_elem_of_singleton in Hx.
Qed.

Lemma random_index_in_range (albumsLength : Z) (u : R) :
  (0 < albumsLength)%Z -> 0 <= u < 1 ->
  (0 <= Zfloor (u * IZR albumsLength) < albumsLength)%Z.
Proof.
  intros Hn Hu. assert (0 < IZR albumsLength) by (by apply IZR_lt).
  pose proof (Zfloor_bound (u * IZR albumsLength)) as [Hlo Hhi].
  split.
  - apply Zfloor_lub. simpl. apply Rmult_le_pos; lra.
  - apply lt_IZR. eapply Rle_lt_trans; [exact Hlo|]. nra.
Qed.

Lemma pile_step_invariant (albumsLength : Z) (s : AlbumSelection.State)
    (ev : AlbumSelection.Event) :
  (0 < albumsLength)%Z ->
  AlbumSelection.possible albumsLength ev ->
  pileInvariant albumsLength s ->
  pileInvariant albumsLength (AlbumSelection.step albumsLength s ev)
  /\ AlbumSelection.selectionHistory s
     `prefix_of` AlbumSelection.selectionHistory (AlbumSelection.step albumsLength s ev).
Proof.
  intros Hn Hev (Hnd & Hall & Hsel).
  assert (Hadd : forall index, (0 <= index < albumsLength)%Z ->
            pileInvariant albumsLength
              (AlbumSelection.mk (Some index)
                 (AlbumSelection.setAdd index (AlbumSelection.selectionHistory s)))
            /\ AlbumSelection.selectionHistory s
               `prefix_of` AlbumSelection.setAdd index (AlbumSelection.selectionHistory s)).
  { intros index Hi.
    destruct (setAdd_spec index _ Hnd) as (H1 & H2 & H3 & H4).
    split; [|done]. split; [done|]. split.
    - apply Forall_forall. intros x Hx. destruct (H4 x Hx) as [Hx'| ->]; [|done].
      by eapply Forall_forall in Hall.
    - simpl. intros i [= <-]. done. }
  assert (Hnone : pileInvariant albumsLength
                    (AlbumSelection.mk None (AlbumSelection.selectionHistory s))).
  { split; [done|]. split; [done|]. intros i. discriminate. }
  destruct ev as [index| |u]; simpl.
  - unfold AlbumSelection.handleAlbumClick.
    case_bool_decide; [split; [exact Hnone|reflexivity]|]. by apply Hadd.
  - destruct (AlbumSelection.selectedAlbum s) eqn:E.
    + split; [exact Hnone|reflexivity].
    + split; [|reflexivity]. split; [done|]. split; [done|].
      intros i. rewrite E. discriminate.
  - unfold AlbumSelection.handleRandomSelection.
    destruct (AlbumSelection.selectedAlbum s); [split; [exact Hnone|reflexivity]|].
    apply Hadd. by apply random_index_in_range.
Qed.

Lemma pile_run_snoc n evs ev s :
  AlbumSelection.run n (evs ++ [ev]) s
  = AlbumSelection.step n (AlbumSelection.run n evs s) ev.
Proof. unfold AlbumSelection.run. by rewrite foldl_app. Qed.

(** X17. The history of the pile.  With at least one album, after any
    sequence of clicks on albums of the pile, on the section and on the
    random button, the history has no repetition and holds indices of
    albums only, the selected album (if any) is an album of the pile
    and is in the history, and a further event only appends to the
    history: the order of first selection is kept. *)
Theorem pile_history_is_kept (albumsLength : Z) (evs : list AlbumSelection.Event)
    (Hn : (0 < albumsLength)%Z)
    (Hevs : Forall (AlbumSelection.possible albumsLength) evs) :
  let s := AlbumSelection.run albumsLength evs AlbumSelection.initial in
  NoDup (AlbumSelection.selectionHistory s)
  /\ Forall (fun i => 0 <= i < albumsLength)%Z (AlbumSelection.selectionHistory s)
  /\ (forall i, AlbumSelection.selectedAlbum s = Some i ->
        (0 <= i < albumsLength)%Z /\ i ∈ AlbumSelection.selectionHistory s)
  /\ (forall ev, AlbumSelection.possible albumsLength ev ->
        AlbumSelection.selectionHistory s
        `prefix_of` AlbumSelection.selectionHistory
                      (AlbumSelection.step albumsLength s ev)).
Proof.
  intros s.
  assert (Hinv : pileInvariant albumsLength s).
  { unfold s. induction evs as [|ev evs IH] using rev_ind.
    - split; [constructor|]. split; [constructor|]. intros i. discriminate.
    - apply Forall_app in Hevs as [Hevs Hev]. apply Forall_inv in Hev.
      rewrite pile_run_snoc. by apply pile_step_invariant; [| |apply IH]. }
  destruct Hinv as (Hnd & Hall & Hsel) eqn:E. clear E.
  split; [done|]. split; [done|]. split.
  - intros i Hi. split; [|by apply Hsel].
    by eapply Forall_forall in Hall; [|by apply Hsel].
  - intros ev Hev. by apply pile_step_invariant.
Qed.

Lemma pile_history_is_kept_witness :
  let s := AlbumSelection.run 3
             [AlbumSelection.ClickAlbum 1; AlbumSelection.ClickRandom (1 / 2);
              AlbumSelection.ClickRandom (1 / 2); AlbumSelection.ClickAlbum 1]
             AlbumSelection.initial in
  NoDup (AlbumSelection.selectionHistory s).
Proof.
  intros s.
  assert (Hn : (0 < 3)%Z) by lia.
  assert (Hevs : Forall (AlbumSelection.possible 3)
            [AlbumSelection.ClickAlbum 1; AlbumSelection.ClickRandom (1 / 2);
             AlbumSelection.ClickRandom (1 / 2); AlbumSelection.ClickAlbum 1]).
  { constructor; [simpl; lia|]. constructor; [simpl; lra|].
    constructor; [simpl; lra|]. constructor; [simpl; lia|constructor]. }
  exact (proj1 (pile_history_is_kept 3 _ Hn Hevs)).
Defined.



Lemma rounding_between round (lo hi : Z) x :
  AlbumSelection.rounding round ->
  (Z.abs lo <= 2 ^ 52)%Z -> (Z.abs hi <= 2 ^ 52)%Z ->
  IZR lo <= x <= IZR hi -> IZR lo <= round x <= IZR hi.
Proof.
  intros [Hmono Hexact] Hlo Hhi [H1 H2].
  assert (Hfix : forall n : Z, (Z.abs n <= 2 ^ 52)%Z -> round (IZR n) = IZR n).
  { intros n Hn. replace (IZR n) with (IZR (2 * n) / 2) by (rewrite mult_IZR; lra).
    apply Hexact. lia. }
  split.
  - rewrite <- (Hfix lo Hlo). by apply Hmono.
  - rewrite <- (Hfix hi Hhi). by apply Hmono.
Qed.

Lemma rounding_half round x :
  AlbumSelection.rounding round ->
  - (1 / 2) <= x <= 1 / 2 -> - (1 / 2) <= round x <= 1 / 2.
Proof.
  intros [Hmono Hexact] [H1 H2].
  pose proof (Hexact (-1)%Z ltac:(lia)) as Hm. pose proof (Hexact 1%Z ltac:(lia)) as Hp.
  replace (IZR (-1) / 2) with (- (1 / 2)) in Hm by lra.
  replace (IZR 1 / 2) with (1 / 2) in Hp by lra.
  split.
  - rewrite <- Hm. by apply Hmono.
  - rewrite <- Hp. by apply Hmono.
Qed.

Lemma roundToHalves_rounding : AlbumSelection.rounding AlbumSelection.roundToHalves.
Proof.
  split.
  - intros x y Hxy. unfold AlbumSelection.roundToHalves.
    assert (Zfloor (x * 2 + 1 / 2) <= Zfloor (y * 2 + 1 / 2))%Z as Hle
      by (apply Zfloor_le; lra).
    apply IZR_le in Hle. lra.
  - intros n _. unfold AlbumSelection.roundToHalves.
    rewrite (Zfloor_eq n); [done|]. lra.
Qed.

(** X19. Where the albums of the pile are put.  Whatever the three
    values of [Math.random()] in [0, 1), and with every sum and product
    rounded to a number, an album is placed between 30 and 70 percent
    from the top and from the left, so the clamp to [10, 90] never
    applies, and is rotated by -20 to 20 degrees.  In exact arithmetic
    the upper bounds are 69 and 19; with rounding, 70 percent is
    reached. *)
Theorem album_positions_are_central (round : R -> R) (u1 u2 u3 : R)
    (Hround : AlbumSelection.rounding round)
    (H1 : 0 <= u1 < 1) (H2 : 0 <= u2 < 1) (H3 : 0 <= u3 < 1) :
  let p := AlbumSelection.albumPosition round u1 u2 u3 in
  (30 <= AlbumSelection.top p <= 70)%Z
  /\ (30 <= AlbumSelection.left p <= 70)%Z
  /\ (-20 <= AlbumSelection.rotate p <= 20)%Z
  /\ AlbumSelection.top p
     = Zfloor (round (50 + round (round (round (u2 - 1 / 2) * 2) * 20)))
  /\ AlbumSelection.left p
     = Zfloor (round (50 + round (round (round (u1 - 1 / 2) * 2) * 20)))
  /\ ((forall x, round x = x) ->
      (AlbumSelection.top p <= 69)%Z
      /\ (AlbumSelection.left p <= 69)%Z
      /\ (AlbumSelection.rotate p <= 19)%Z).
Proof.
  assert (Hsum : forall u, 0 <= u < 1 ->
            30 <= round (50 + round (round (round (u - 1 / 2) * 2) * 20)) <= 70).
  { intros u Hu.
    assert (Ha : - (1 / 2) <= round (u - 1 / 2) <= 1 / 2)
      by (apply rounding_half; [done|lra]).
    assert (Hb : IZR (-1) <= round (round (u - 1 / 2) * 2) <= IZR 1)
      by (apply rounding_between; [done|lia|lia|lra]).
    assert (Hc : IZR (-20) <= round (round (round (u - 1 / 2) * 2) * 20) <= IZR 20)
      by (apply rounding_between; [done|lia|lia|lra]).
    apply (rounding_between round 30 70); [done|lia|lia|lra]. }
  assert (Hrot : -20 <= round (round (u3 * 40) - round (40 / 2)) <= 20).
  { assert (Ha : IZR 0 <= round (u3 * 40) <= IZR 40)
      by (apply rounding_between; [done|lia|lia|lra]).
    assert (Hb : IZR 20 <= round (40 / 2) <= IZR 20)
      by (apply rounding_between; [done|lia|lia|lra]).
    apply (rounding_between round (-20) 20); [done|lia|lia|lra]. }
  assert (Hclamp : forall x, 30 <= x <= 70 -> Rmax 10 (Rmin 90 x) = x).
  { intros x Hx. rewrite Rmin_right by lra. rewrite Rmax_right by lra. done. }
  assert (Hfloor : forall x (lo hi : Z), IZR lo <= x < IZR hi + 1 ->
            (lo <= Zfloor x <= hi)%Z).
  { intros x lo hi [Hlo Hhi]. pose proof (Zfloor_bound x) as [Hb1 Hb2]. split.
    - by apply Zfloor_lub.
    - apply Z.lt_succ_r. apply lt_IZR. rewrite succ_IZR. lra. }
  cbv zeta. unfold AlbumSelection.albumPosition. simpl.
  rewrite (Hclamp _ (Hsum u1 H1)), (Hclamp _ (Hsum u2 H2)).
  pose proof (Hsum u1 H1) as Hs1. pose proof (Hsum u2 H2) as Hs2.
  split; [apply Hfloor; lra|]. split; [apply Hfloor; lra|].
  split; [apply Hfloor; lra|]. split; [done|]. split; [done|].
  intros Hid. rewrite !Hid.
  split; [|split].
  - apply (Hfloor _ 30%Z 69%Z). lra.
  - apply (Hfloor _ 30%Z 69%Z). lra.
  - apply (Hfloor _ (-20)%Z 19%Z). lra.
Qed.

Lemma album_positions_are_central_witness :
  let p := AlbumSelection.albumPosition AlbumSelection.roundToHalves 0 (3 / 4) (1 / 4) in
  (30 <= AlbumSelection.top p <= 70)%Z
  /\ (30 <= AlbumSelection.left p <= 70)%Z
  /\ (-20 <= AlbumSelection.rotate p <= 20)%Z
  /\ AlbumSelection.top p = 70%Z.
Proof.
  assert (H1 : 0 <= 0 < 1) by lra.
  assert (H2 : 0 <= 3 / 4 < 1) by lra.
  assert (H3 : 0 <= 1 / 4 < 1) by lra.
  destruct (album_positions_are_central AlbumSelection.roundToHalves 0 (3 / 4) (1 / 4)
              roundToHalves_rounding H1 H2 H3) as (Htop & Hleft & Hrot & Heq & _).
  split; [exact Htop|]. split; [exact Hleft|]. split; [exact Hrot|].
  rewrite Heq.
  assert (E1 : AlbumSelection.roundToHalves (3 / 4 - 1 / 2) = 1 / 2).
  { unfold AlbumSelection.roundToHalves. rewrite (Zfloor_eq 1); lra. }
  assert (E2 : AlbumSelection.roundToHalves (1 / 2 * 2) = 1).
  { unfold AlbumSelection.roundToHalves. rewrite (Zfloor_eq 2); lra. }
  assert (E3 : AlbumSelection.roundToHalves (1 * 20) = 20).
  { unfold AlbumSelection.roundToHalves. rewrite (Zfloor_eq 40); lra. }
  assert (E4 : AlbumSelection.roundToHalves (50 + 20) = 70).
  { unfold AlbumSelection.roundToHalves. rewrite (Zfloor_eq 140); lra. }
  rewrite E1, E2, E3, E4. apply Zfloor_eq. lra.
Defined.

(** * The album carousel *)

Lemma carousel_update_invariant n v index s :
  (0 <= index <= Carousel.maxIndex n v)%Z ->
  Carousel.invariant n v s ->
  Carousel.invariant n v (Carousel.updateCarousel index s).
Proof.
  intros Hi [Hc Ht]. unfold Carousel.updateCarousel.
  destruct (Carousel.isTransitioning s) eqn:E; [by split; [|rewrite E]|].
  split; simpl; [done|]. by rewrite Ht.
Qed.

Lemma carousel_step_invariant n v s ev :
  Carousel.possible n v ev ->
  Carousel.invariant n v s -> Carousel.invariant n v (Carousel.step n v s ev).
Proof.
  intros Hev Hs. pose proof Hs as [Hc Ht].
  assert (Hmax : (0 <= Carousel.maxIndex n v)%Z) by (unfold Carousel.maxIndex; lia).
  assert (Hnext : Carousel.invariant n v (Carousel.handleNext n v s)).
  { apply carousel_update_invariant; [|done].
    destruct (_ <? _)%Z eqn:E; [apply Z.ltb_lt in E|]; lia. }
  destruct ev as [| |index| |]; simpl.
  - exact Hnext.
  - apply carousel_update_invariant; [|done].
    destruct (_ <? _)%Z eqn:E; [apply Z.ltb_lt in E|]; lia.
  - by apply carousel_update_invariant.
  - unfold Carousel.timeout. destruct (Carousel.timeouts s) as [|k] eqn:E; [done|].
    split; simpl; [done|]. destruct (Carousel.isTransitioning s); lia.
  - unfold Carousel.interval. by destruct (negb _).
Qed.

Lemma carousel_run_snoc n v evs ev s :
  Carousel.run n v (evs ++ [ev]) s = Carousel.step n v (Carousel.run n v evs s) ev.
Proof. unfold Carousel.run. by rewrite foldl_app. Qed.

(** X20. The carousel stays on its albums.  After any sequence of
    clicks on the arrows and indicators, timeouts and auto-scroll
    ticks, the index is between 0 and [maxIndex]; when there are at
    least as many albums as shown at once, the albums shown,
    [currentIndex .. currentIndex + itemsPerView - 1], all exist; with
    fewer albums the index is 0.  At most one timeout is pending,
    exactly when a transition is under way, and while it is, clicks and
    auto-scroll change nothing. *)
Theorem carousel_stays_in_range (albumsLength itemsPerView : Z)
    (evs : list Carousel.Event)
    (Hlen : (0 <= albumsLength)%Z) (Hview : (0 <= itemsPerView)%Z)
    (Hevs : Forall (Carousel.possible albumsLength itemsPerView) evs) :
  let s := Carousel.run albumsLength itemsPerView evs Carousel.initial in
  (0 <= Carousel.currentIndex s <= Carousel.maxIndex albumsLength itemsPerView)%Z
  /\ (itemsPerView <= albumsLength ->
      Carousel.currentIndex s + itemsPerView <= albumsLength)%Z
  /\ (albumsLength <= itemsPerView -> Carousel.currentIndex s = 0)%Z
  /\ Carousel.timeouts s = (if Carousel.isTransitioning s then 1 else 0)%nat
  /\ (Carousel.isTransitioning s = true ->
      forall ev, ev <> Carousel.Timeout ->
        Carousel.step albumsLength itemsPerView s ev = s)
  /\ Carousel.isTransitioning (Carousel.timeout s) = false.
Proof.
  intros s.
  assert (Hinv : Carousel.invariant albumsLength itemsPerView s).
  { unfold s. induction evs as [|ev evs IH] using rev_ind.
    - split; simpl; [unfold Carousel.maxIndex; lia|done].
    - apply Forall_app in Hevs as [Hevs Hev]. apply Forall_inv in Hev.
      rewrite carousel_run_snoc. apply carousel_step_invariant; [done|]. by apply IH. }
  destruct Hinv as [Hc Ht]. unfold Carousel.maxIndex in Hc.
  split; [exact Hc|]. split; [lia|]. split; [lia|]. split; [exact Ht|]. split.
  - intros Htr ev Hev.
    destruct ev as [| |index| |]; simpl; try done;
      unfold Carousel.handleNext, Carousel.handlePrev, Carousel.handleIndicatorClick,
        Carousel.interval, Carousel.updateCarousel; by rewrite Htr.
  - unfold Carousel.timeout. rewrite Ht.
    destruct (Carousel.isTransitioning s) eqn:E; simpl; done.
Qed.

Lemma carousel_stays_in_range_witness :
  let s := Carousel.run 5 3
             [Carousel.ClickNext; Carousel.ClickNext; Carousel.Timeout;
              Carousel.Interval; Carousel.Timeout; Carousel.ClickIndicator 2]
             Carousel.initial in
  (Carousel.currentIndex s + 3 <= 5)%Z.
Proof.
  intros s.
  assert (Hevs : Forall (Carousel.possible 5 3)
            [Carousel.ClickNext; Carousel.ClickNext; Carousel.Timeout;
             Carousel.Interval; Carousel.Timeout; Carousel.ClickIndicator 2]).
  { repeat (constructor; [exact I|]).
    constructor; [|constructor]. simpl. unfold Carousel.maxIndex. lia. }
  destruct (carousel_stays_in_range 5 3 _ ltac:(lia) ltac:(lia) Hevs)
    as (_ & Hwin & _).
  apply Hwin. lia.
Defined.

(** X21. The arrows of the carousel undo each other and wrap around.
    From an index in range with no transition under way, "next", its
    timeout, "previous" and its timeout come back to the same index, and
    so does the other order; "next" on the last index goes to 0 and
    "previous" on 0 goes to the last index. *)
Theorem carousel_next_prev_round_trip (albumsLength itemsPerView : Z)
    (s : Carousel.State)
    (Hs : Carousel.invariant albumsLength itemsPerView s)
    (Hidle : Carousel.isTransitioning s = false) :
  let n := albumsLength in
  let v := itemsPerView in
  Carousel.run n v [Carousel.ClickNext; Carousel.Timeout;
                    Carousel.ClickPrev; Carousel.Timeout] s = s
  /\ Carousel.run n v [Carousel.ClickPrev; Carousel.Timeout;
                       Carousel.ClickNext; Carousel.Timeout] s = s
  /\ (Carousel.currentIndex s = Carousel.maxIndex n v ->
      Carousel.currentIndex (Carousel.handleNext n v s) = 0%Z)
  /\ (Carousel.currentIndex s = 0%Z ->
      Carousel.currentIndex (Carousel.handlePrev n v s) = Carousel.maxIndex n v).
Proof.
  cbv zeta. destruct s as [c tr t]. destruct Hs as [Hc Ht]. simpl in *. subst tr.
  subst t. set (m := Carousel.maxIndex albumsLength itemsPerView) in *.
  assert (Hnext : forall c', Carousel.timeout
             (Carousel.handleNext albumsLength itemsPerView (Carousel.mk c' false 0))
           = Carousel.mk (if (c' <? m)%Z then c' + 1 else 0)%Z false 0).
  { intros c'. reflexivity. }
  assert (Hprev : forall c', Carousel.timeout
             (Carousel.handlePrev albumsLength itemsPerView (Carousel.mk c' false 0))
           = Carousel.mk (if (0 <? c')%Z then c' - 1 else m)%Z false 0).
  { intros c'. reflexivity. }
  split; [|split; [|split]].
  - unfold Carousel.run. cbn [foldl Carousel.step]. rewrite Hnext, Hprev. f_equal.
    destruct (c <? m)%Z eqn:E1.
    + apply Z.ltb_lt in E1. destruct (0 <? c + 1)%Z eqn:E2; [lia|].
      apply Z.ltb_ge in E2. lia.
    + apply Z.ltb_ge in E1. simpl. lia.
  - unfold Carousel.run. cbn [foldl Carousel.step]. rewrite Hprev, Hnext. f_equal.
    destruct (0 <? c)%Z eqn:E1.
    + apply Z.ltb_lt in E1. destruct (c - 1 <? m)%Z eqn:E2; [lia|].
      apply Z.ltb_ge in E2. lia.
    + apply Z.ltb_ge in E1. destruct (m <? m)%Z eqn:E2; [apply Z.ltb_lt in E2; lia|].
      lia.
  - intros ->. simpl. by rewrite Z.ltb_irrefl.
  - intros ->. simpl. done.
Qed.

Lemma carousel_next_prev_round_trip_witness :
  Carousel.run 5 3 [Carousel.ClickNext; Carousel.Timeout;
                    Carousel.ClickPrev; Carousel.Timeout] Carousel.initial
  = Carousel.initial.
Proof.
  assert (Hs : Carousel.invariant 5 3 Carousel.initial).
  { split; simpl; [unfold Carousel.maxIndex; lia|done]. }
  exact (proj1 (carousel_next_prev_round_trip 5 3 Carousel.initial Hs eq_refl)).
Defined.

(** * The selection in the search results *)

Lemma search_press_range n i key :
  (0 < n)%Z -> (-1 <= i < n)%Z ->
  (0 <= SearchSelection.press n i key < n)%Z.
Proof.
  intros Hn Hi. destruct key; simpl.
  - unfold SearchSelection.arrowDown. destruct (_ <? _)%Z eqn:E;
      [apply Z.ltb_lt in E|]; lia.
  - unfold SearchSelection.arrowUp. destruct (_ <? _)%Z eqn:E;
      [apply Z.ltb_lt in E|]; lia.
Qed.

Lemma search_after_snoc n keys key :
  SearchSelection.after n (keys ++ [key])
  = SearchSelection.press n (SearchSelection.after n keys) key.
Proof. unfold SearchSelection.after. by rewrite foldl_app. Qed.

(** X22. Enter in the search box.  With at least one result, after any
    sequence of arrow keys the selected index is -1 (no key yet) or the
    index of a result, so Enter does nothing or opens an existing
    result and never raises.  With no result, Enter after "arrow down"
    raises: the index is 0 and there is no result to read. *)
Theorem search_enter_outcome (n : Z) (keys : list SearchSelection.Key) :
  ((0 < n)%Z ->
   (-1 <= SearchSelection.after n keys < n)%Z
   /\ (keys <> [] -> 0 <= SearchSelection.after n keys)%Z
   /\ SearchSelection.enter n (SearchSelection.after n keys) <> SearchSelection.Raises
   /\ (keys <> [] ->
       exists i, SearchSelection.enter n (SearchSelection.after n keys)
                 = SearchSelection.Opens i /\ (Z.of_nat i < n)%Z))
  /\ (n = 0%Z ->
      SearchSelection.enter n
        (SearchSelection.after n (keys ++ [SearchSelection.ArrowDown]))
      = SearchSelection.Raises).
Proof.
  split.
  - intros Hn.
    assert (Hrange : (-1 <= SearchSelection.after n keys < n)%Z
                     /\ (keys <> [] -> 0 <= SearchSelection.after n keys)%Z).
    { induction keys as [|key keys IH] using rev_ind.
      - split; [unfold SearchSelection.after; simpl; lia|done].
      - rewrite search_after_snoc. destruct IH as [IH _].
        pose proof (search_press_range n _ key Hn IH). split; [lia|]. intros _. lia. }
    destruct Hrange as [Hr Hpos]. split; [exact Hr|]. split; [exact Hpos|].
    unfold SearchSelection.enter. split.
    + destruct (0 <=? _)%Z; [|done].
      destruct (_ <? n)%Z eqn:E; [done|]. apply Z.ltb_ge in E. lia.
    + intros Hne. specialize (Hpos Hne).
      destruct (0 <=? _)%Z eqn:E0; [|apply Z.leb_gt in E0; lia].
      destruct (_ <? n)%Z eqn:E; [|apply Z.ltb_ge in E; lia].
      eexists. split; [reflexivity|]. lia.
  - intros ->. rewrite search_after_snoc. simpl.
    unfold SearchSelection.arrowDown.
    destruct (_ <? _)%Z eqn:E; [|reflexivity].
    apply Z.ltb_lt in E.
    assert (Hlow : forall ks, (SearchSelection.after 0 ks = -1 \/
                               SearchSelection.after 0 ks = 0)%Z).
    { clear. intros ks. induction ks as [|key ks IH] using rev_ind; [by left|].
      rewrite search_after_snoc. destruct key; simpl.
      - unfold SearchSelection.arrowDown.
        destruct (_ <? _)%Z eqn:E; [apply Z.ltb_lt in E; lia|by right].
      - unfold SearchSelection.arrowUp.
        destruct (_ <? _)%Z eqn:E; [apply Z.ltb_lt in E; lia|by left]. }
    destruct (Hlow keys); lia.
Qed.

Lemma search_enter_outcome_witness :
  SearchSelection.enter 3
    (SearchSelection.after 3 [SearchSelection.ArrowDown; SearchSelection.ArrowUp])
  <> SearchSelection.Raises
  /\ SearchSelection.enter 0
       (SearchSelection.after 0 ([] ++ [SearchSelection.ArrowDown]))
     = SearchSelection.Raises.
Proof.
  destruct (search_enter_outcome 3 [SearchSelection.ArrowDown; SearchSelection.ArrowUp])
    as [Hsafe _].
  destruct (search_enter_outcome 0 []) as [_ Hraise].
  split.
  - destruct (Hsafe ltac:(lia)) as (_ & _ & Hno & _). exact Hno.
  - apply Hraise. reflexivity.
Defined.

(** * The simulation stays warm *)

Lemma warm_no_restart s : warm s -> restartSimulationIfNeeded s = s.
Proof.
  intros (_ & _ & Ha). unfold restartSimulationIfNeeded.
  destruct (Rlt_dec _ _) as [Hlt|]; [|done].
  unfold SIMULATION_CONFIG.performance.alphaTarget,
    SIMULATION_CONFIG.performance.restartAlpha in *. lra.
Qed.

Lemma step_warm w ev :
  warm (World.simulation w) -> warm (World.simulation (step w ev)).
Proof.
  intros Hw. destruct ev as [g|g|k t]; simpl.
  - unfold mouseenter. destruct (listens g w) as [i|]; [|done].
    unfold handleNodeHover. by destruct (World.data w !! i).
  - unfold mouseleave. destruct (listens g w) as [i|]; [|done].
    unfold handleNodeLeave. by destruct (World.data w !! i).
  - unfold tweenFrame. destruct (World.tweens w !! k) as [tw|]; [|done].
    destruct (World.data w !! tw_node tw); [|done]. simpl.
    rewrite warm_no_restart; done.
Qed.

Lemma act_warm w a :
  warm (World.simulation w) -> warm (World.simulation (act w a)).
Proof.
  intros Hw. destruct a as [ev|ev|]; cbn [act].
  - by apply step_warm.
  - by destruct (transitionStep_frame w ev) as (_ & -> & _).
  - done.
Qed.

Lemma d3Step_warm alphaDecay w :
  0 <= alphaDecay <= 1 ->
  warm (World.simulation w) -> warm (World.simulation (d3Step alphaDecay w)).
Proof.
  intros Hd (Ht & Htarget & Ha). unfold d3Step. rewrite Ht. cbv zeta.
  set (alpha := Simulation.alpha (World.simulation w)
                + (Simulation.alphaTarget (World.simulation w)
                   - Simulation.alpha (World.simulation w)) * alphaDecay).
  assert (Hb : SIMULATION_CONFIG.performance.alphaTarget <= alpha <= 1).
  { unfold alpha. rewrite Htarget.
    unfold SIMULATION_CONFIG.performance.alphaTarget in *. nra. }
  destruct (Rlt_dec alpha (1 / 1000)) as [Hlt|_].
  - unfold SIMULATION_CONFIG.performance.alphaTarget in Hb. lra.
  - simpl. done.
Qed.

(** X23. The simulation never cools down.  Whatever [alphaDecay] in
    [0, 1] d3 uses, in every state that a render reaches by steps of the
    timer, pointer events, frames and ticks, alpha is between the target
    0.3 and 1 and the timer runs: the simulation never stops by itself,
    and since 0.3 is above the restart threshold 0.1,
    [restartSimulationIfNeeded] never has anything to do. *)
Theorem simulation_stays_warm (alphaDecay : R) (rand : nat -> R)
    (groups : list Group.t) (filter : FilterType.t) (k : nat)
    (actions : list LiveAction)
    (Hdecay : 0 <= alphaDecay <= 1) :
  exists w, render rand groups filter k = Some w
    /\ let s := World.simulation (live alphaDecay actions w) in
       Simulation.timer s = true
       /\ SIMULATION_CONFIG.performance.alphaTarget <= Simulation.alpha s <= 1
       /\ SIMULATION_CONFIG.performance.restartAlpha < Simulation.alpha s
       /\ restartSimulationIfNeeded s = s.
Proof.
  destruct (render_spec rand groups filter k) as (items & k' & w & _ & Hitems & Hr & Hm).
  destruct (mount_spec groups items)
    as (w1 & Hw1 & _ & _ & _ & _ & _ & Halpha & Htimer & _); [by rewrite Hitems|].
  assert (w1 = w) as -> by congruence.
  exists w. split; [exact Hr|].
  assert (Htarget : Simulation.alphaTarget (World.simulation w)
                    = SIMULATION_CONFIG.performance.alphaTarget).
  { revert Hm. unfold mount. destruct items as [|d0 items']; [by rewrite Hitems|].
    cbn [length Nat.eqb orb negb]. intros [= <-].
    match goal with
    | |- context [foldl _ ?w0 ?idx] =>
      destruct (entrances_frame idx w0) as (_ & H2 & _)
    end.
    cbv zeta in H2. by rewrite H2. }
  assert (Hwarm : warm (World.simulation (live alphaDecay actions w))).
  { induction actions as [|a actions IH] using rev_ind.
    - unfold live. simpl. split; [done|]. split; [done|]. rewrite Halpha.
      unfold SIMULATION_CONFIG.performance.alphaTarget. lra.
    - unfold live. rewrite foldl_app. simpl. fold (live alphaDecay actions w).
      destruct a as [a|]; cbn [liveAct].
      + by apply act_warm.
      + by apply d3Step_warm. }
  cbv zeta. pose proof (warm_no_restart _ Hwarm) as Hno.
  destruct Hwarm as (Ht & _ & Ha). split; [done|]. split; [done|]. split; [|done].
  unfold SIMULATION_CONFIG.performance.alphaTarget,
    SIMULATION_CONFIG.performance.restartAlpha in *. lra.
Qed.

Lemma simulation_stays_warm_witness :
  exists w, render (fun _ => 0) [] FilterType.tous 0%nat = Some w
    /\ SIMULATION_CONFIG.performance.restartAlpha
       < Simulation.alpha
           (World.simulation (live (1 / 50) [Step; Do Tick; Step] w)).
Proof.
  assert (Hdecay : 0 <= 1 / 50 <= 1) by lra.
  destruct (simulation_stays_warm (1 / 50) (fun _ => 0) [] FilterType.tous 0
              [Step; Do Tick; Step] Hdecay) as (w & Hr & _ & _ & Hlt & _).
  by exists w.
Defined.
